(** * Topic: a typed pub/sub handle over a shared connection (src/Topic.ts)

    The class [Topic] stores an in-flight [Promise<Publisher>] and a
    [Map] from callbacks to [Subscription] handles.  Its methods only
    register continuations with [.then]; the continuations run later, as
    microtasks, once the connection settles the promise.  The embedding
    therefore makes the promise store, the microtask queue and the calls
    that reach the connection explicit, and every method of the class is a
    function from worlds to worlds.

    What lies outside of the class is the environment.  [Ros] and the
    [Publisher] and [Subscription] handles are imported types (./Ros,
    ./Impl): a factory call returns a new promise, pending, which the
    connection settles later with a handle of its choosing or rejects; a
    method of a handle is recorded on the trace and returns.  Method calls
    and microtasks may interleave in any order: JavaScript only allows
    some of these schedules (a method runs to completion, queued
    microtasks run before the next task), and the concrete scenarios below
    are all among them. *)

From stdpp Require Import base decidable option list strings.

Set Default Proof Using "Type".

(** ** The insertion-ordered [Map] of JavaScript

    [Map.prototype.set] on a key that is present replaces the value and
    keeps the position, on a new key it appends; [values()] iterates in
    insertion order.  The order is observable here (it is the order of the
    [unsubscribe] calls of line 61), hence an association list. *)

Module JsMap.
Section JsMap.
Context {K V : Type} `{EqDecision K}.

Definition t : Type := list (K * V).

Fixpoint get (k : K) (m : t) : option V :=
  match m with
  | [] => None
  | (k', v) :: m' => if decide (k' = k) then Some v else get k m'
  end.

Fixpoint set (k : K) (v : V) (m : t) : t :=
  match m with
  | [] => [(k, v)]
  | (k', v') :: m' =>
      if decide (k' = k) then (k', v) :: m' else (k', v') :: set k v m'
  end.

Fixpoint delete (k : K) (m : t) : t :=
  match m with
  | [] => []
  | (k', v) :: m' =>
      if decide (k' = k) then delete k m' else (k', v) :: delete k m'
  end.

Definition keys (m : t) : list K := map fst m.
Definition values (m : t) : list V := map snd m.
Definition clear (m : t) : t := [].

End JsMap.
Global Arguments t : clear implicits.
End JsMap.

(** ** Identities

    Callbacks are map keys by reference, handles and promises are objects:
    each is modelled by its identity. *)

Definition callback : Type := nat.
Definition handle : Type := nat.
Definition promise_id : Type := nat.

Section Topic.
(** [Topic<TMessage>] is generic in the message type. *)
Context {TMessage : Type}.

(** The three closures the class passes to [.then], defunctionalised. *)
Inductive reaction : Type :=
| then_publish (message : TMessage)   (* lines 43-45: publisher.publish(message) *)
| then_unadvertise                    (* lines 76-79: publisher.unadvertise(); #publisher = undefined *)
| then_set (cb : callback).           (* lines 51-53: #subscriptions.set(callback, subscription) *)

Inductive promise_state : Type :=
| Pending (reactions : list reaction)
| Fulfilled (h : handle)
| Rejected.

(** What the connection and its handles observe, in chronological order.
    The two factory calls carry the promise they returned. *)
Inductive call : Type :=
| createPublisher (topicName type : string) (p : promise_id)
| createSubscription (topicName : string) (cb : callback) (p : promise_id)
| publisher_publish (h : handle) (message : TMessage)
| publisher_unadvertise (h : handle)
| subscription_unsubscribe (h : handle)
| invoke (cb : callback) (message : TMessage).

Record Topic : Type := mkTopic {
  name : string;
  messageType : string;
  publisher : option promise_id;
  subscriptions : JsMap.t callback handle
}.

(** [rosImpl] is the optional field of the shared [Ros] object that the
    class reads through [this.#ros.rosImpl?.]; [jobs] is the microtask
    queue, each job a reaction with the value its promise was fulfilled
    with. *)
Record World : Type := mkWorld {
  topic : Topic;
  rosImpl : bool;
  promises : list promise_state;
  jobs : list (reaction * handle);
  trace : list call
}.

(** The constructor, lines 19-29. *)
Definition new_Topic (nm ty : string) : Topic :=
  {| name := nm; messageType := ty; publisher := None; subscriptions := [] |}.

Definition new_World (impl : bool) (nm ty : string) : World :=
  {| topic := new_Topic nm ty; rosImpl := impl; promises := [];
     jobs := []; trace := [] |}.

(** *** Field updates *)

Definition set_publisher (o : option promise_id) (w : World) : World :=
  {| topic := {| name := name (topic w); messageType := messageType (topic w);
                 publisher := o; subscriptions := subscriptions (topic w) |};
     rosImpl := rosImpl w; promises := promises w; jobs := jobs w;
     trace := trace w |}.

Definition set_subscriptions (m : JsMap.t callback handle) (w : World) : World :=
  {| topic := {| name := name (topic w); messageType := messageType (topic w);
                 publisher := publisher (topic w); subscriptions := m |};
     rosImpl := rosImpl w; promises := promises w; jobs := jobs w;
     trace := trace w |}.

Definition set_promises (ps : list promise_state) (w : World) : World :=
  {| topic := topic w; rosImpl := rosImpl w; promises := ps; jobs := jobs w;
     trace := trace w |}.

Definition set_jobs (js : list (reaction * handle)) (w : World) : World :=
  {| topic := topic w; rosImpl := rosImpl w; promises := promises w; jobs := js;
     trace := trace w |}.

Definition set_rosImpl (b : bool) (w : World) : World :=
  {| topic := topic w; rosImpl := b; promises := promises w; jobs := jobs w;
     trace := trace w |}.

Definition emit (c : call) (w : World) : World :=
  {| topic := topic w; rosImpl := rosImpl w; promises := promises w;
     jobs := jobs w; trace := trace w ++ [c] |}.

(** *** Promises *)

(** A factory call of the connection returns a new promise, pending. *)
Definition new_promise (w : World) : World :=
  set_promises (promises w ++ [Pending []]) w.

(** [p.then(r)] with no rejection handler: on a pending promise the
    reaction is appended to its list, on a fulfilled one a job is queued,
    on a rejected one the reaction never runs. *)
Definition then_ (p : promise_id) (r : reaction) (w : World) : World :=
  match promises w !! p with
  | Some (Pending rs) => set_promises (<[p := Pending (rs ++ [r])]> (promises w)) w
  | Some (Fulfilled h) => set_jobs (jobs w ++ [(r, h)]) w
  | Some Rejected => w
  | None => w
  end.

(** The connection settles a pending promise; a settled promise stays as
    it is.  Fulfilment queues the reactions in registration order. *)
Definition resolve (p : promise_id) (h : handle) (w : World) : World :=
  match promises w !! p with
  | Some (Pending rs) =>
      set_jobs (jobs w ++ map (fun r => (r, h)) rs)
        (set_promises (<[p := Fulfilled h]> (promises w)) w)
  | _ => w
  end.

Definition reject (p : promise_id) (w : World) : World :=
  match promises w !! p with
  | Some (Pending _) => set_promises (<[p := Rejected]> (promises w)) w
  | _ => w
  end.

(** The body of each continuation. *)
Definition run_job (j : reaction * handle) (w : World) : World :=
  match j with
  | (then_publish m, h) => emit (publisher_publish h m) w
  | (then_unadvertise, h) => set_publisher None (emit (publisher_unadvertise h) w)
  | (then_set cb, h) =>
      set_subscriptions (JsMap.set cb h (subscriptions (topic w))) w
  end.

(** One microtask, and the queue run until it is empty (no continuation
    of the class queues another one). *)
Definition tick (w : World) : World :=
  match jobs w with
  | [] => w
  | j :: js => run_job j (set_jobs js w)
  end.

Definition drain (w : World) : World := Nat.iter (length (jobs w)) tick w.

(** The jobs of a queue run in order, outside of the queue. *)
Definition run_jobs (js : list (reaction * handle)) (w : World) : World :=
  foldl (fun w' j => run_job j w') w js.

(** *** The methods of the class *)

(** Lines 68-73.  With no [rosImpl] the optional call yields [undefined],
    which is assigned all the same. *)
Definition advertise (w : World) : World :=
  if rosImpl w then
    let p := length (promises w) in
    set_publisher (Some p)
      (emit (createPublisher (name (topic w)) (messageType (topic w)) p)
         (new_promise w))
  else set_publisher None w.

(** Lines 39-46. *)
Definition publish (message : TMessage) (w : World) : World :=
  let w1 := match publisher (topic w) with
            | None => advertise w
            | Some _ => w
            end in
  match publisher (topic w1) with
  | Some p => then_ p (then_publish message) w1
  | None => w1
  end.

(** Lines 48-54. *)
Definition subscribe (cb : callback) (w : World) : World :=
  if rosImpl w then
    let p := length (promises w) in
    then_ p (then_set cb)
      (emit (createSubscription (name (topic w)) cb p) (new_promise w))
  else w.

(** Lines 56-66; [None] is the call without an argument. *)
Definition unsubscribe (cb : option callback) (w : World) : World :=
  match cb with
  | Some cb =>
      let w1 := match JsMap.get cb (subscriptions (topic w)) with
                | Some h => emit (subscription_unsubscribe h) w
                | None => w
                end in
      set_subscriptions (JsMap.delete cb (subscriptions (topic w1))) w1
  | None =>
      let w1 := foldl (fun w' h => emit (subscription_unsubscribe h) w') w
                  (JsMap.values (subscriptions (topic w))) in
      set_subscriptions (JsMap.clear (subscriptions (topic w1))) w1
  end.

(** Lines 75-80. *)
Definition unadvertise (w : World) : World :=
  match publisher (topic w) with
  | Some p => then_ p then_unadvertise w
  | None => w
  end.

(** *** The environment *)

(** The calls of the trace, by kind. *)
Definition publisher_requests (tr : list call) : nat :=
  length (omap (fun c => match c with
                         | createPublisher _ _ p => Some p
                         | _ => None
                         end) tr).

Definition forwarded (h : handle) (tr : list call) : list TMessage :=
  omap (fun c => match c with
                 | publisher_publish h' m => if decide (h' = h) then Some m else None
                 | _ => None
                 end) tr.

Definition unadvertise_calls (h : handle) (tr : list call) : nat :=
  length (omap (fun c => match c with
                         | publisher_unadvertise h' =>
                             if decide (h' = h) then Some h' else None
                         | _ => None
                         end) tr).

Definition unsubscribe_calls (h : handle) (tr : list call) : nat :=
  length (omap (fun c => match c with
                         | subscription_unsubscribe h' =>
                             if decide (h' = h) then Some h' else None
                         | _ => None
                         end) tr).

Definition invocations (cb : callback) (tr : list call) : list TMessage :=
  omap (fun c => match c with
                 | invoke cb' m => if decide (cb' = cb) then Some m else None
                 | _ => None
                 end) tr.

(** What a queued job makes of the trace when it runs. *)
Definition job_calls (j : reaction * handle) : list call :=
  match j with
  | (then_publish m, h) => [publisher_publish h m]
  | (then_unadvertise, h) => [publisher_unadvertise h]
  | (then_set _, _) => []
  end.

(** Modelled from the spec: the delivery side of the Connection, whose
    implementation (./Ros, ./Impl) is not among the sources.  A
    subscription is live on the transport from the fulfilment of its
    [createSubscription] request until its handle receives [unsubscribe];
    a delivered message invokes the callback of every live subscription
    once (spec 4.2 and the end-to-end scenario of spec 8). *)
Definition live (w : World) : list (handle * callback) :=
  omap (fun c => match c with
                 | createSubscription _ cb p =>
                     match promises w !! p with
                     | Some (Fulfilled h) =>
                         if decide (unsubscribe_calls h (trace w) = 0)
                         then Some (h, cb) else None
                     | _ => None
                     end
                 | _ => None
                 end) (trace w).

Definition deliver (message : TMessage) (w : World) : World :=
  foldl (fun w' r => emit (invoke (snd r) message) w') w (live w).

(** Everything that can happen to a world: a method call of user code, a
    microtask, the connection settling a promise, the [Ros] object gaining
    or losing its implementation, the connection delivering a message. *)
Inductive event : Type :=
| Publish (message : TMessage)
| Subscribe (cb : callback)
| Unsubscribe (cb : option callback)
| Advertise
| Unadvertise
| Tick
| Resolve (p : promise_id) (h : handle)
| Reject (p : promise_id)
| SetImpl (b : bool)
| Deliver (message : TMessage).

Definition step (e : event) (w : World) : World :=
  match e with
  | Publish m => publish m w
  | Subscribe cb => subscribe cb w
  | Unsubscribe cb => unsubscribe cb w
  | Advertise => advertise w
  | Unadvertise => unadvertise w
  | Tick => tick w
  | Resolve p h => resolve p h w
  | Reject p => reject p w
  | SetImpl b => set_rosImpl b w
  | Deliver m => deliver m w
  end.

Definition run (es : list event) (w : World) : World :=
  foldl (fun w' e => step e w') w es.

Definition publish_all (ms : list TMessage) (w : World) : World :=
  foldl (fun w' m => publish m w') w ms.

(** The publisher is not resolved yet: either none is stored and the next
    [publish] can request one, or the stored promise is pending. *)
Definition publisher_unresolved (w : World) : bool :=
  match publisher (topic w) with
  | None => rosImpl w
  | Some p => match promises w !! p with
              | Some (Pending _) => true
              | _ => false
              end
  end.

(** No registration of [cb] exists or is under way: it is not a key of
    the map, no continuation that would store it is pending or queued, and
    none of its requests has a live subscription. *)
Definition unregistered (cb : callback) (w : World) : Prop :=
  JsMap.get cb (subscriptions (topic w)) = None /\
  (forall h, (then_set cb, h) ∉ jobs w) /\
  (forall p rs, promises w !! p = Some (Pending rs) -> then_set cb ∉ rs) /\
  (forall n p, createSubscription n cb p ∈ trace w ->
     promises w !! p = Some Rejected \/
     exists h, promises w !! p = Some (Fulfilled h) /\
               unsubscribe_calls h (trace w) <> 0).

(** A call that neither requests a subscription for [cb] nor invokes
    [cb], and a step from [w] to [w'] that makes only such calls and
    leaves [cb] unregistered. *)
Definition quiet (cb : callback) (c : call) : Prop :=
  match c with
  | createSubscription _ cb' _ => cb' <> cb
  | invoke cb' _ => cb' <> cb
  | _ => True
  end.

Definition quietly (cb : callback) (w w' : World) : Prop :=
  unregistered cb w' /\
  exists cs, trace w' = trace w ++ cs /\ Forall (quiet cb) cs.

End Topic.

(** ** More of the state of a Topic *)

Section TopicState.
Context {TMessage : Type}.

Definition subscription_requests (tr : list (@call TMessage)) : nat :=
  length (omap (fun c => match c with
                         | createSubscription _ _ p => Some p
                         | _ => None
                         end) tr).

(** The calls that need the connection: those that request something
    from it or chain on what it returned. *)
Definition needs_connection (e : @event TMessage) : bool :=
  match e with
  | Publish _ | Subscribe _ | Advertise | Unadvertise => true
  | _ => false
  end.

Definition uses_publisher (e : @event TMessage) : bool :=
  match e with
  | Publish _ | Unadvertise => true
  | _ => false
  end.

(** *** Where promises, reactions and handles come from *)

Definition request_ids (tr : list (@call TMessage)) : list promise_id :=
  omap (fun c => match c with
                 | createPublisher _ _ p => Some p
                 | createSubscription _ _ p => Some p
                 | _ => None
                 end) tr.

Definition publisher_request (tr : list (@call TMessage)) (p : promise_id) : Prop :=
  exists nm ty, createPublisher nm ty p ∈ tr.

Definition subscription_request (tr : list (@call TMessage)) (cb : callback)
    (p : promise_id) : Prop :=
  exists nm, createSubscription nm cb p ∈ tr.

(** The promise a continuation may be chained on: [then_set cb] on the
    promise of a request for [cb], the two others on the promise of a
    [createPublisher] request. *)
Definition reaction_origin (tr : list (@call TMessage)) (p : promise_id)
    (r : @reaction TMessage) : Prop :=
  match r with
  | then_set cb => subscription_request tr cb p
  | _ => publisher_request tr p
  end.

Definition last_publisher_request (tr : list (@call TMessage)) : option promise_id :=
  last (omap (fun c => match c with
                       | createPublisher _ _ p => Some p
                       | _ => None
                       end) tr).

(** A call on a handle is legitimate when the connection fulfilled a
    request of the right kind with that handle. *)
Definition handle_obtained (w : @World TMessage) (c : @call TMessage) : Prop :=
  match c with
  | publisher_publish h _ | publisher_unadvertise h =>
      exists p, promises w !! p = Some (Fulfilled h) /\
                publisher_request (trace w) p
  | subscription_unsubscribe h =>
      exists p cb, promises w !! p = Some (Fulfilled h) /\
                   subscription_request (trace w) cb p
  | _ => True
  end.

(** A request carries the name and the message type of the Topic. *)
Definition request_named (t : Topic) (c : @call TMessage) : Prop :=
  match c with
  | createPublisher nm ty _ => nm = name t /\ ty = messageType t
  | createSubscription nm _ _ => nm = name t
  | _ => True
  end.

Record consistent (w : @World TMessage) : Prop := mkConsistent {
  cons_ids : request_ids (trace w) = seq 0 (length (promises w));
  cons_pending : forall p rs r,
    promises w !! p = Some (Pending rs) -> r ∈ rs ->
    reaction_origin (trace w) p r;
  cons_jobs : forall r h,
    (r, h) ∈ jobs w ->
    exists p, promises w !! p = Some (Fulfilled h) /\
              reaction_origin (trace w) p r;
  cons_subs : forall cb h,
    (cb, h) ∈ subscriptions (topic w) ->
    exists p, promises w !! p = Some (Fulfilled h) /\
              subscription_request (trace w) cb p;
  cons_publisher : forall p,
    publisher (topic w) = Some p -> last_publisher_request (trace w) = Some p;
  cons_calls : forall c, c ∈ trace w -> handle_obtained w c;
  cons_keys : NoDup (JsMap.keys (subscriptions (topic w)));
  cons_names : forall c, c ∈ trace w -> request_named (topic w) c
}.

End TopicState.

(** * The application (src/app.tsx)

    The component keeps the content of robot.yaml, the namespace read
    from it and the diagnostics received on the topic; what it computes
    from them is modelled here.  A JavaScript string is the list of its
    UTF-16 code units. *)

Module App.

Definition code_unit : Type := N.
Definition jsstring : Type := list code_unit.

(** A string literal of the source. *)
Definition js (s : string) : jsstring :=
  map Ascii.N_of_ascii (String.list_ascii_of_string s).

(** ** White space

    [\s] in a regular expression and [String.prototype.trim] use the same
    set: the WhiteSpace and LineTerminator code points of ECMAScript. *)

Definition isLineTerminator (c : code_unit) : bool :=
  bool_decide (c ∈ [10; 13; 8232; 8233]%N).

Definition isWhiteSpace (c : code_unit) : bool :=
  bool_decide (c ∈ [9; 11; 12; 32; 160; 5760; 8239; 8287; 12288; 65279]%N)
  || ((8192 <=? c)%N && (c <=? 8202)%N).

Definition isSpace (c : code_unit) : bool := isWhiteSpace c || isLineTerminator c.
Definition notSpace (c : code_unit) : bool := negb (isSpace c).

Fixpoint trimStart (s : jsstring) : jsstring :=
  match s with
  | c :: s' => if isSpace c then trimStart s' else s
  | [] => []
  end.

Definition trimEnd (s : jsstring) : jsstring := rev (trimStart (rev s)).
Definition trim (s : jsstring) : jsstring := trimEnd (trimStart s).

(** ** The two regular expressions

    Only what [/^\s*namespace:\s*(\S+)/m] and [/^serial_number:\s*(\S+)/m]
    are made of: the line-start assertion of the [m] flag, a literal
    character, a greedy star of a character class, and the capturing group
    of a greedy plus of a character class. *)

Inductive term : Type :=
| Bol
| Lit (c : code_unit)
| Star (cls : code_unit -> bool)
| CapturePlus (cls : code_unit -> bool).

Definition lits (s : string) : list term := map Lit (js s).

(** [^] with the [m] flag: at the start of the input or after a line
    terminator. *)
Definition atLineStart (s : jsstring) (i : nat) : bool :=
  match i with
  | 0 => true
  | S j => match s !! j with
           | Some c => isLineTerminator c
           | None => false
           end
  end.

(** The length of the longest run of [cls] at the head of [s]. *)
Fixpoint runLength (cls : code_unit -> bool) (s : jsstring) : nat :=
  match s with
  | c :: s' => if cls c then S (runLength cls s') else 0
  | [] => 0
  end.

(** Greedy repetition with backtracking: the continuation [k] is tried
    with [n] repetitions, then with fewer, down to [lo]. *)
Fixpoint longestFirst {A} (k : nat -> option A) (lo n : nat) : option A :=
  if decide (n < lo) then None
  else match k n with
       | Some r => Some r
       | None => match n with
                 | 0 => None
                 | S n' => longestFirst k lo n'
                 end
       end.

(** The backtracking matcher: the rest of the pattern is the continuation.
    The result is the end of the match and the capture of group 1. *)
Fixpoint matchFrom (re : list term) (s : jsstring) (i : nat)
    (cap : option jsstring) : option (nat * option jsstring) :=
  match re with
  | [] => Some (i, cap)
  | Bol :: re' => if atLineStart s i then matchFrom re' s i cap else None
  | Lit c :: re' =>
      match s !! i with
      | Some c' => if bool_decide (c' = c) then matchFrom re' s (S i) cap else None
      | None => None
      end
  | Star cls :: re' =>
      longestFirst (fun n => matchFrom re' s (i + n) cap) 0
        (runLength cls (drop i s))
  | CapturePlus cls :: re' =>
      longestFirst (fun n => matchFrom re' s (i + n) (Some (take n (drop i s))))
        1 (runLength cls (drop i s))
  end.

(** [RegExp.prototype.exec] without the [g] flag: the match at the
    leftmost start position.  [fuel] counts the start positions left. *)
Fixpoint execFrom (re : list term) (s : jsstring) (i fuel : nat)
    : option (nat * nat * option jsstring) :=
  match matchFrom re s i None with
  | Some (e, cap) => Some (i, e, cap)
  | None => match fuel with
            | 0 => None
            | S fuel' => execFrom re s (S i) fuel'
            end
  end.

Definition exec (re : list term) (s : jsstring) : option (nat * nat * option jsstring) :=
  execFrom re s 0 (length s).

(** [s.match(re)[1]] *)
Definition group1 (re : list term) (s : jsstring) : option jsstring :=
  match exec re s with
  | Some (_, _, Some cap) => Some cap
  | Some (_, _, None) => None
  | None => None
  end.

Definition namespaceRe : list term :=
  [Bol; Star isSpace] ++ lits "namespace:" ++ [Star isSpace; CapturePlus notSpace].

Definition serialNumberRe : list term :=
  [Bol] ++ lits "serial_number:" ++ [Star isSpace; CapturePlus notSpace].

(** [.replace(/-/g, "_")] *)
Definition replaceDashes (s : jsstring) : jsstring :=
  map (fun c => if bool_decide (c = 45%N) then 95%N else c) s.

(** ** The content of robot.yaml (lines 87-105) *)

Record State : Type := mkState {
  yaml : jsstring;
  namespace : jsstring
}.

Definition setYaml (v : jsstring) (st : State) : State :=
  {| yaml := v; namespace := namespace st |}.

Definition setNamespace (v : jsstring) (st : State) : State :=
  {| yaml := yaml st; namespace := v |}.

(** [Unknown] is the translation of the string "Unknown"; [content] is
    [None] for [null].  A match of either expression always has its
    group, so that the cases without a capture are never taken. *)
Definition updateYamlContent (Unknown : jsstring) (content : option jsstring)
    (st : State) : State :=
  match content with
  | Some (c :: cs) =>
      let trimmedContent := trim (c :: cs) in
      let st1 := setYaml trimmedContent st in
      let namespaceMatch := exec namespaceRe trimmedContent in
      let serialNumberMatch := exec serialNumberRe trimmedContent in
      match namespaceMatch, serialNumberMatch with
      | Some (_, _, Some ns), _ => setNamespace ns st1
      | None, Some (_, _, Some sn) => setNamespace (replaceDashes sn) st1
      | _, _ => st1
      end
  | _ => setYaml Unknown st
  end.

(** ** Saving (lines 184-202): the delay before the Save button is
    released, from the two readings of the clock, in milliseconds. *)
Definition remainingTime (saveStartTime now : Z) : Z :=
  let elapsedTime := (now - saveStartTime)%Z in
  Z.max (500 - elapsedTime) 0.

(** ** Diagnostics

    The entries of the [diagnostics] state, as the subscription callback
    builds them (lines 147-151): three strings. *)
Record DiagnosticStatus : Type := mkStatus {
  name : jsstring;
  message : jsstring;
  level : jsstring
}.

#[export] Instance DiagnosticStatus_eq_dec : EqDecision DiagnosticStatus.
Proof. solve_decision. Defined.

Fixpoint startsWith (s searchString : jsstring) {struct searchString} : bool :=
  match searchString, s with
  | [], _ => true
  | c :: p, d :: s' => bool_decide (d = c) && startsWith s' p
  | _ :: _, [] => false
  end.

(** *** The tables of errors and warnings (lines 271-305) *)

Definition isBottomLevel (diagnostics : list DiagnosticStatus)
    (status : DiagnosticStatus) : bool :=
  negb (existsb (fun other => startsWith (name other) (name status ++ js "/"))
          diagnostics).

Definition includes (levelFilter : list jsstring) (x : jsstring) : bool :=
  bool_decide (x ∈ levelFilter).

Definition tableRows (diagnostics : list DiagnosticStatus)
    (levelFilter : list jsstring) : list DiagnosticStatus :=
  List.filter (fun status =>
                 isBottomLevel diagnostics status &&
                 includes levelFilter (level status))
    diagnostics.

(** *** The tree (lines 204-239) *)

(** [s.split('/')] *)
Fixpoint split (s : jsstring) : list jsstring :=
  match s with
  | [] => [[]]
  | c :: s' =>
      if bool_decide (c = 47%N) then [] :: split s'
      else match split s' with
           | part :: parts => (c :: part) :: parts
           | [] => [[c]]
           end
  end.

(** A node of the tree under construction; the objects [tree] and
    [children] are the lists of their own properties, in creation
    order. *)
Unset Elimination Schemes.
Inductive treeNode : Type :=
| TreeNode (name : jsstring) (children : list (jsstring * treeNode))
    (data : option DiagnosticStatus).
Set Elimination Schemes.

Definition nodeName (n : treeNode) : jsstring :=
  match n with TreeNode nm _ _ => nm end.
Definition nodeChildren (n : treeNode) : list (jsstring * treeNode) :=
  match n with TreeNode _ ch _ => ch end.
Definition nodeData (n : treeNode) : option DiagnosticStatus :=
  match n with TreeNode _ _ d => d end.

(** [current[part]] also finds what [{}] inherits from
    [Object.prototype]; these keys are never own properties of the tree,
    because the test [!current[part]] never succeeds for them. *)
Definition inheritedKeys : list jsstring :=
  map js ["constructor"; "hasOwnProperty"; "isPrototypeOf";
          "propertyIsEnumerable"; "toLocaleString"; "toString"; "valueOf";
          "__defineGetter__"; "__defineSetter__"; "__lookupGetter__";
          "__lookupSetter__"; "__proto__"].

(** What a call comes to: a value, a [TypeError], or a write to
    [Object.prototype] itself, after which objects are no longer what this
    model takes them to be. *)
Inductive outcome (A : Type) : Type :=
| Ok (a : A)
| Throws
| Unmodelled.
Global Arguments Ok {A} a.
Global Arguments Throws {A}.
Global Arguments Unmodelled {A}.

(** The inner [forEach] (lines 211-223), from [current] on.  On an
    inherited key [current[part]] is a function, or [Object.prototype] for
    [__proto__]: setting its [data] leaves the tree alone, and its
    [children] is [undefined], so that a further part throws. *)
Fixpoint insertParts (parts : list jsstring) (status : DiagnosticStatus)
    (current : list (jsstring * treeNode)) : outcome (list (jsstring * treeNode)) :=
  match parts with
  | [] => Ok current
  | part :: rest =>
      if bool_decide (part ∈ inheritedKeys) then
        match rest with
        | [] => if bool_decide (part = js "__proto__") then Unmodelled
                else Ok current
        | _ :: _ => Throws
        end
      else
        let node := match JsMap.get part current with
                    | Some n => n
                    | None => TreeNode part [] None
                    end in
        let data := match rest with
                    | [] => Some status
                    | _ :: _ => nodeData node
                    end in
        match insertParts rest status (nodeChildren node) with
        | Ok children => Ok (JsMap.set part (TreeNode (nodeName node) children data) current)
        | Throws => Throws
        | Unmodelled => Unmodelled
        end
  end.

(** The outer [forEach] (lines 207-224). *)
Fixpoint insertAll (diagnostics : list DiagnosticStatus)
    (tree : list (jsstring * treeNode)) : outcome (list (jsstring * treeNode)) :=
  match diagnostics with
  | [] => Ok tree
  | status :: rest =>
      match insertParts (split (name status)) status tree with
      | Ok tree' => insertAll rest tree'
      | Throws => Throws
      | Unmodelled => Unmodelled
      end
  end.

(** The order of [Object.values]: the keys that are array indices first,
    in ascending order, then the others in creation order. *)
Definition isDigit (c : code_unit) : bool := (48 <=? c)%N && (c <=? 57)%N.

Definition arrayIndex (k : jsstring) : option N :=
  match k with
  | [] => None
  | c :: k' =>
      if forallb isDigit k && (negb (bool_decide (c = 48%N)) || bool_decide (k' = []))
      then let v := foldl (fun acc d => (10 * acc + (d - 48))%N) 0%N k in
           if (v <=? 4294967294)%N then Some v else None
      else None
  end.

Fixpoint insertIndexed {A} (i : N) (a : A) (l : list (N * A)) : list (N * A) :=
  match l with
  | [] => [(i, a)]
  | (j, b) :: l' => if (i <? j)%N then (i, a) :: l else (j, b) :: insertIndexed i a l'
  end.

Fixpoint indexed {A} (o : list (jsstring * A)) : list (N * A) :=
  match o with
  | [] => []
  | (k, a) :: o' => match arrayIndex k with
                    | Some i => insertIndexed i a (indexed o')
                    | None => indexed o'
                    end
  end.

Fixpoint named {A} (o : list (jsstring * A)) : list A :=
  match o with
  | [] => []
  | (k, a) :: o' => match arrayIndex k with
                    | Some _ => named o'
                    | None => a :: named o'
                    end
  end.

Definition objectValues {A} (o : list (jsstring * A)) : list A :=
  map snd (indexed o) ++ named o.

Unset Elimination Schemes.
Inductive viewNode : Type :=
| ViewNode (name message level : jsstring) (children : list viewNode).
Set Elimination Schemes.

(** [x || 'N/A'] on a string that may be missing. *)
Definition orNA (x : option jsstring) : jsstring :=
  match x with
  | Some (c :: s) => c :: s
  | _ => js "N/A"
  end.

(** [convertToTreeView] (lines 226-236), item by item; the children are
    converted before they are put in the order of [Object.values], which
    depends on the keys alone. *)
Fixpoint convertItem (item : treeNode) : viewNode :=
  match item with
  | TreeNode nm children data =>
      ViewNode nm (orNA (message <$> data)) (orNA (level <$> data))
        (objectValues (map (fun kv => (fst kv, convertItem (snd kv))) children))
  end.

Definition convertToTreeView (node : list (jsstring * treeNode)) : list viewNode :=
  map convertItem (objectValues node).

Definition buildTree (diagnostics : list DiagnosticStatus) : outcome (list viewNode) :=
  match insertAll diagnostics [] with
  | Ok tree => Ok (convertToTreeView tree)
  | Throws => Throws
  | Unmodelled => Unmodelled
  end.

(** *** Reading the tree and the view *)

(** The node reached from the top by the keys [parts]. *)
Fixpoint findNode (parts : list jsstring) (tree : list (jsstring * treeNode))
    : option treeNode :=
  match parts with
  | [] => None
  | part :: rest =>
      match JsMap.get part tree with
      | Some n => match rest with
                  | [] => Some n
                  | _ :: _ => findNode rest (nodeChildren n)
                  end
      | None => None
      end
  end.

Definition viewName (v : viewNode) : jsstring :=
  match v with ViewNode nm _ _ _ => nm end.
Definition viewMessage (v : viewNode) : jsstring :=
  match v with ViewNode _ m _ _ => m end.
Definition viewLevel (v : viewNode) : jsstring :=
  match v with ViewNode _ _ l _ => l end.
Definition viewChildren (v : viewNode) : list viewNode :=
  match v with ViewNode _ _ _ ch => ch end.

(** [v] is in the view under the names [parts], from the top down. *)
Fixpoint viewAt (parts : list jsstring) (vs : list viewNode) (v : viewNode) : Prop :=
  match parts with
  | [] => False
  | part :: rest =>
      match rest with
      | [] => v ∈ vs /\ viewName v = part
      | _ :: _ => exists u, u ∈ vs /\ viewName u = part /\
                            viewAt rest (viewChildren u) v
      end
  end.

(** No part of the name is a property that [{}] inherits. *)
Definition safeName (nm : jsstring) : Prop :=
  Forall (fun part => part ∉ inheritedKeys) (split nm).

(** [parts.join('/')] *)
Fixpoint join (parts : list jsstring) : jsstring :=
  match parts with
  | [] => []
  | [part] => part
  | part :: rest => part ++ 47%N :: join rest
  end.

(** Every object of the tree has each key once. *)
Definition uniqueKeys (tree : list (jsstring * treeNode)) : Prop :=
  NoDup (map fst tree) /\
  forall qs n, findNode qs tree = Some n -> NoDup (map fst (nodeChildren n)).

(** *** A concrete robot.yaml and concrete diagnostics *)

(** A robot.yaml with the namespace on the line after its key, one with
    a serial number only, and some diagnostics. *)
Definition yamlNamespace : jsstring :=
  js "  namespace:" ++ [10%N] ++ js "    a200_0001 # id" ++ [10%N].

Definition yamlSerial : jsstring :=
  js "serial_number: a200-0001" ++ [10%N] ++ js "version: 0".

Definition someDiagnostics : list DiagnosticStatus :=
  [ mkStatus (js "base/motors") (js "ok") (js "0");
    mkStatus (js "base/motors/left") (js "stalled") (js "2");
    mkStatus (js "base/battery") (js "low") (js "1");
    mkStatus (js "10") (js "") (js "3");
    mkStatus (js "base/motors/left") (js "running") (js "0") ].

End App.

(** ** A concrete topic

    The diagnostics topic of the application (src/app.tsx, lines 139-143),
    with messages as strings, a connection implementation present, and
    nothing requested yet. *)

Definition diagnostics : @World string :=
  new_World true "/ns/diagnostics_agg" "diagnostic_msgs/DiagnosticArray".

(** Two callbacks subscribed and both requests resolved. *)
Definition two_subscriptions : @World string :=
  run [Subscribe 1; Subscribe 2; Resolve 0 10; Resolve 1 11; Tick; Tick]
    diagnostics.

(** The same callback subscribed twice before either request resolves,
    then both resolved and the queue run. *)
Definition subscribed_twice : @World string :=
  drain (resolve 1 11 (resolve 0 10 (subscribe 1 (subscribe 1 diagnostics)))).

(** A resolved publisher. *)
Definition advertised : @World string :=
  drain (resolve 0 7 (advertise diagnostics)).

(** * Properties *)

Section Properties.
Context {TMessage : Type}.
Local Abbreviation World := (@World TMessage).
Local Abbreviation reaction := (@reaction TMessage).
Local Abbreviation call := (@call TMessage).
Implicit Types (w : World) (p : promise_id) (h : handle) (cb : callback).
Implicit Types (j : reaction * handle) (js : list (reaction * handle)).
Implicit Types (m : JsMap.t callback handle).

(** ** The map *)

Lemma get_set_eq cb h m : JsMap.get cb (JsMap.set cb h m) = Some h.
Proof.
  induction m as [|[k v] m IH]; simpl.
  - by rewrite decide_True.
  - destruct (decide (k = cb)) as [->|Hne]; simpl.
    + by rewrite decide_True.
    + by rewrite decide_False.
Qed.

Lemma get_set_ne cb cb' h m :
  cb <> cb' -> JsMap.get cb' (JsMap.set cb h m) = JsMap.get cb' m.
Proof.
  intros Hne. induction m as [|[k v] m IH]; simpl.
  - by rewrite decide_False.
  - destruct (decide (k = cb)) as [->|Hk]; simpl.
    + by rewrite !decide_False.
    + by rewrite IH.
Qed.

Lemma set_set cb h1 h2 m :
  JsMap.set cb h2 (JsMap.set cb h1 m) = JsMap.set cb h2 m.
Proof.
  induction m as [|[k v] m IH]; simpl.
  - by rewrite decide_True.
  - destruct (decide (k = cb)) as [->|Hk]; simpl.
    + by rewrite decide_True.
    + by rewrite decide_False, IH.
Qed.

Lemma values_set cb h h' m :
  h' ∈ JsMap.values (JsMap.set cb h m) -> h' = h \/ h' ∈ JsMap.values m.
Proof.
  unfold JsMap.values. induction m as [|[k v] m IH]; simpl.
  - intros Hin. apply list_elem_of_singleton in Hin. by left.
  - destruct (decide (k = cb)) as [->|Hk]; simpl; intros Hin;
      apply elem_of_cons in Hin as [->|Hin].
    + by left.
    + right. by apply elem_of_cons; right.
    + right. by apply elem_of_cons; left.
    + destruct (IH Hin) as [->|Hm]; [by left|].
      right. by apply elem_of_cons; right.
Qed.

Lemma get_delete_eq cb m : JsMap.get cb (JsMap.delete cb m) = None.
Proof.
  induction m as [|[k v] m IH]; simpl; [done|].
  destruct (decide (k = cb)) as [->|Hk]; simpl; [done|].
  by rewrite decide_False.
Qed.

Lemma get_delete_ne cb cb' m :
  cb <> cb' -> JsMap.get cb' (JsMap.delete cb m) = JsMap.get cb' m.
Proof.
  intros Hne. induction m as [|[k v] m IH]; simpl; [done|].
  destruct (decide (k = cb)) as [->|Hk]; simpl.
  - by rewrite decide_False.
  - by rewrite IH.
Qed.

Lemma delete_absent cb m : JsMap.get cb m = None -> JsMap.delete cb m = m.
Proof.
  induction m as [|[k v] m IH]; simpl; [done|].
  destruct (decide (k = cb)) as [->|Hk]; [done|].
  intros Hget. by rewrite IH.
Qed.

Lemma values_delete cb h m :
  h ∈ JsMap.values (JsMap.delete cb m) -> h ∈ JsMap.values m.
Proof.
  unfold JsMap.values. induction m as [|[k v] m IH]; simpl; [done|].
  destruct (decide (k = cb)) as [->|Hk]; simpl; intros Hin.
  - apply elem_of_cons; right. by apply IH.
  - apply elem_of_cons in Hin as [->|Hin]; apply elem_of_cons; [by left|].
    right. by apply IH.
Qed.

Lemma get_values cb h m : JsMap.get cb m = Some h -> h ∈ JsMap.values m.
Proof.
  unfold JsMap.values. induction m as [|[k v] m IH]; simpl; [done|].
  destruct (decide (k = cb)) as [->|Hk]; intros Hget; apply elem_of_cons.
  - left. congruence.
  - right. by apply IH.
Qed.

(** ** The microtask queue *)

Lemma run_job_set_jobs j js w :
  run_job j (set_jobs js w) = set_jobs js (run_job j w).
Proof. by destruct j as [[| |] ?]. Qed.

Lemma jobs_run_job j w : jobs (run_job j w) = jobs w.
Proof. by destruct j as [[| |] ?]. Qed.

Lemma drain_run_jobs w : drain w = run_jobs (jobs w) (set_jobs [] w).
Proof.
  unfold drain. remember (jobs w) as js eqn:Hjs.
  revert w Hjs. induction js as [|j js IH]; intros w Hjs.
  - destruct w; simpl in *; by subst.
  - cbn [length run_jobs foldl]. rewrite Nat.iter_succ_r.
    unfold tick at 2. rewrite <- Hjs.
    rewrite (IH (run_job j (set_jobs js w))).
    + rewrite !run_job_set_jobs. by destruct (run_job j w).
    + by rewrite jobs_run_job.
Qed.

Lemma run_jobs_app js1 js2 w :
  run_jobs (js1 ++ js2) w = run_jobs js2 (run_jobs js1 w).
Proof. apply foldl_app. Qed.

Lemma trace_run_jobs js w :
  trace (run_jobs js w) = trace w ++ flat_map job_calls js.
Proof.
  revert w. induction js as [|j js IH]; intros w; simpl.
  - by rewrite app_nil_r.
  - rewrite IH. destruct j as [[| |] ?]; simpl; by rewrite <- ?app_assoc.
Qed.

Lemma promises_run_jobs js w : promises (run_jobs js w) = promises w.
Proof.
  revert w. induction js as [|j js IH]; intros w; simpl; [done|].
  rewrite IH. by destruct j as [[| |] ?].
Qed.

Lemma rosImpl_run_jobs js w : rosImpl (run_jobs js w) = rosImpl w.
Proof.
  revert w. induction js as [|j js IH]; intros w; simpl; [done|].
  rewrite IH. by destruct j as [[| |] ?].
Qed.

Lemma jobs_run_jobs js w : jobs (run_jobs js w) = jobs w.
Proof.
  revert w. induction js as [|j js IH]; intros w; simpl; [done|].
  rewrite IH. apply jobs_run_job.
Qed.

Lemma jobs_drain w : jobs (drain w) = [].
Proof. by rewrite drain_run_jobs, jobs_run_jobs. Qed.

Lemma trace_drain w : trace (drain w) = trace w ++ flat_map job_calls (jobs w).
Proof. by rewrite drain_run_jobs, trace_run_jobs. Qed.

Lemma promises_drain w : promises (drain w) = promises w.
Proof. by rewrite drain_run_jobs, promises_run_jobs. Qed.

Lemma drain_idle w : jobs w = [] -> drain w = w.
Proof. unfold drain. by intros ->. Qed.

(** ** Names *)

Lemma name_step (e : event) w :
  name (topic (step e w)) = name (topic w) /\
  messageType (topic (step e w)) = messageType (topic w).
Proof.
  destruct e as [msg|cb|[cb|]| | | |p h|p|b|msg]; simpl.
  - unfold publish, advertise, then_.
    repeat (case_match; simpl in *; simplify_eq); done.
  - unfold subscribe, then_. repeat (case_match; simpl); done.
  - unfold unsubscribe. case_match; done.
  - unfold unsubscribe. simpl.
    generalize (JsMap.values (subscriptions (topic w))). intros hs.
    revert w. induction hs as [|h hs IH]; intros w; simpl; [done|].
    apply (IH (emit _ w)).
  - unfold advertise. case_match; done.
  - unfold unadvertise, then_. repeat (case_match; simpl); done.
  - unfold tick. by destruct (jobs w) as [|[[| |] ?] js].
  - unfold resolve. repeat (case_match; simpl); done.
  - unfold reject. repeat (case_match; simpl); done.
  - done.
  - unfold deliver. generalize (live w). intros rs.
    revert w. induction rs as [|r rs IH]; intros w; simpl; [done|].
    apply (IH (emit _ w)).
Qed.

(** C10. Whatever sequence of method calls (and of events of the
    environment) follows the construction of a Topic, the getters [name]
    and [messageType] still return the values given to the constructor. *)
Theorem name_messageType_immutable (impl : bool) (nm ty : string)
    (es : list (@event TMessage)) :
  name (topic (run es (new_World impl nm ty))) = nm /\
  messageType (topic (run es (new_World impl nm ty))) = ty.
Proof.
  assert (Hgen : forall w : World,
             name (topic (run es w)) = name (topic w) /\
             messageType (topic (run es w)) = messageType (topic w)).
  { induction es as [|e es IH]; intros w; simpl; [done|].
    destruct (IH (step e w)) as [-> ->]. apply name_step. }
  apply (Hgen (new_World impl nm ty)).
Qed.

(** ** Unsubscribing *)

Lemma foldl_emit {A} (f : A -> call) (xs : list A) w :
  foldl (fun w' x => emit (f x) w') w xs =
  {| topic := topic w; rosImpl := rosImpl w; promises := promises w;
     jobs := jobs w; trace := trace w ++ map f xs |}.
Proof.
  revert w. induction xs as [|x xs IH]; intros w; simpl.
  - rewrite app_nil_r. by destruct w.
  - rewrite IH. simpl. by rewrite <- app_assoc.
Qed.

Lemma unsubscribe_calls_app h (tr1 tr2 : list call) :
  unsubscribe_calls h (tr1 ++ tr2) =
  unsubscribe_calls h tr1 + unsubscribe_calls h tr2.
Proof. unfold unsubscribe_calls. by rewrite omap_app, length_app. Qed.

Lemma unsubscribe_calls_cons h (c : call) (tr : list call) :
  unsubscribe_calls h (c :: tr) =
  unsubscribe_calls h [c] + unsubscribe_calls h tr.
Proof. apply (unsubscribe_calls_app h [c] tr). Qed.

Lemma unsubscribe_calls_other h hs :
  h ∉ hs -> unsubscribe_calls h (map (@subscription_unsubscribe TMessage) hs) = 0.
Proof.
  unfold unsubscribe_calls. induction hs as [|h' hs IH]; simpl; [done|].
  intros Hnin. apply not_elem_of_cons in Hnin as [Hne Hnin].
  rewrite decide_False by done. by apply IH.
Qed.

Lemma unsubscribe_calls_once h hs :
  NoDup hs -> h ∈ hs ->
  unsubscribe_calls h (map (@subscription_unsubscribe TMessage) hs) = 1.
Proof.
  intros Hnd. induction Hnd as [|h' hs Hnin Hnd IH]; intros Hin.
  - by apply elem_of_nil in Hin.
  - apply elem_of_cons in Hin as [->|Hin].
    + cbn [map]. rewrite unsubscribe_calls_cons.
      rewrite unsubscribe_calls_other by done.
      unfold unsubscribe_calls. simpl. by rewrite decide_True.
    + cbn [map]. rewrite unsubscribe_calls_cons.
      rewrite IH by done. unfold unsubscribe_calls. simpl.
      rewrite decide_False; [done|]. intros ->. done.
Qed.

Lemma unsubscribe_calls_jobs h js :
  unsubscribe_calls h (flat_map (@job_calls TMessage) js) = 0.
Proof.
  induction js as [|[[| |] ?] js IH]; simpl; [done|..]; try done.
Qed.

(** The handles an [unsubscribe] call tears down are values of the map
    at the moment of the call; nothing else of the world changes but the
    map. *)
Lemma unsubscribe_spec (ocb : option callback) w :
  exists hs m',
    (forall h, h ∈ hs -> h ∈ JsMap.values (subscriptions (topic w))) /\
    (forall h, h ∈ JsMap.values m' -> h ∈ JsMap.values (subscriptions (topic w))) /\
    unsubscribe ocb w =
    {| topic := {| name := name (topic w); messageType := messageType (topic w);
                   publisher := publisher (topic w); subscriptions := m' |};
       rosImpl := rosImpl w; promises := promises w; jobs := jobs w;
       trace := trace w ++ map subscription_unsubscribe hs |}.
Proof.
  destruct ocb as [cb|]; unfold unsubscribe.
  - destruct (JsMap.get cb (subscriptions (topic w))) as [h|] eqn:Hget.
    + exists [h], (JsMap.delete cb (subscriptions (topic w))).
      split_and!; [|intros h'; apply values_delete|done].
      intros h' Hin. apply list_elem_of_singleton in Hin as ->.
      by eapply get_values.
    + exists [], (JsMap.delete cb (subscriptions (topic w))).
      split_and!; [|intros h'; apply values_delete|].
      * intros h' Hin. by apply elem_of_nil in Hin.
      * simpl. by rewrite app_nil_r.
  - exists (JsMap.values (subscriptions (topic w))), [].
    split_and!; [done| |].
    + intros h Hin. by apply elem_of_nil in Hin.
    + by rewrite foldl_emit.
Qed.

(** C9. [unsubscribe(cb)] for a callback that is not a key of the map
    (never subscribed, or removed already) is a no-op: the call returns,
    the map is as it was and no handle receives [unsubscribe] (the trace,
    like the whole world, is unchanged). *)
Theorem unsubscribe_unknown_noop w cb :
  JsMap.get cb (subscriptions (topic w)) = None ->
  unsubscribe (Some cb) w = w /\
  subscriptions (topic (unsubscribe (Some cb) w)) = subscriptions (topic w) /\
  trace (unsubscribe (Some cb) w) = trace w.
Proof.
  intros Hget.
  assert (Heq : unsubscribe (Some cb) w = w).
  { unfold unsubscribe. rewrite Hget. unfold set_subscriptions.
    rewrite delete_absent by done. by destruct w as [[] ? ? ? ?]. }
  by rewrite Heq.
Qed.

(** C6. [unsubscribe()] without an argument empties the map and calls
    [unsubscribe] on the handles it held, in insertion order; when the
    handles are distinct objects each of them receives exactly one call,
    and a handle that was not in the map receives none.  On an empty map
    the call changes nothing. *)
Theorem unsubscribe_all_clears w :
  NoDup (JsMap.values (subscriptions (topic w))) ->
  let w' := unsubscribe None w in
  subscriptions (topic w') = [] /\
  trace w' =
    trace w ++ map subscription_unsubscribe (JsMap.values (subscriptions (topic w))) /\
  (forall h, h ∈ JsMap.values (subscriptions (topic w)) ->
     unsubscribe_calls h (trace w') = unsubscribe_calls h (trace w) + 1) /\
  (forall h, h ∉ JsMap.values (subscriptions (topic w)) ->
     unsubscribe_calls h (trace w') = unsubscribe_calls h (trace w)) /\
  (subscriptions (topic w) = [] -> w' = w).
Proof.
  intros Hnd w'.
  assert (Htr : trace w' = trace w ++
            map subscription_unsubscribe (JsMap.values (subscriptions (topic w)))).
  { subst w'. unfold unsubscribe. by rewrite foldl_emit. }
  split_and!.
  - done.
  - done.
  - intros h Hin. by rewrite Htr, unsubscribe_calls_app, unsubscribe_calls_once.
  - intros h Hnin.
    rewrite Htr, unsubscribe_calls_app, unsubscribe_calls_other by done. lia.
  - intros Hnil. subst w'. unfold unsubscribe. rewrite Hnil. simpl.
    unfold set_subscriptions, JsMap.clear.
    by destruct w as [[] ? ? ? ?]; simpl in *; subst.
Qed.

(** ** Requests *)

Lemma lookup_fresh {A} (l : list A) (x : A) : (l ++ [x]) !! length l = Some x.
Proof. by apply list_lookup_middle. Qed.

Lemma insert_fresh {A} (l : list A) (x y : A) :
  <[length l := y]> (l ++ [x]) = l ++ [y].
Proof. induction l as [|a l IH]; simpl; [done|]. by rewrite IH. Qed.

Lemma subscribe_spec cb w :
  rosImpl w = true ->
  subscribe cb w =
  {| topic := topic w; rosImpl := rosImpl w;
     promises := promises w ++ [Pending [then_set cb]]; jobs := jobs w;
     trace := trace w ++
              [createSubscription (name (topic w)) cb (length (promises w))] |}.
Proof.
  intros Himpl. unfold subscribe, then_. rewrite Himpl. simpl.
  rewrite lookup_fresh. unfold set_promises. simpl.
  by rewrite insert_fresh, Himpl.
Qed.

Lemma advertise_spec w :
  rosImpl w = true ->
  advertise w =
  {| topic := {| name := name (topic w); messageType := messageType (topic w);
                 publisher := Some (length (promises w));
                 subscriptions := subscriptions (topic w) |};
     rosImpl := rosImpl w;
     promises := promises w ++ [Pending []]; jobs := jobs w;
     trace := trace w ++
              [createPublisher (name (topic w)) (messageType (topic w))
                 (length (promises w))] |}.
Proof.
  intros Himpl. unfold advertise. rewrite Himpl.
  unfold set_publisher, emit, new_promise, set_promises. simpl.
  by rewrite Himpl.
Qed.

Lemma resolve_pending p h (rs : list reaction) w :
  promises w !! p = Some (Pending rs) ->
  resolve p h w =
  {| topic := topic w; rosImpl := rosImpl w;
     promises := <[p := Fulfilled h]> (promises w);
     jobs := jobs w ++ map (fun r => (r, h)) rs; trace := trace w |}.
Proof. intros Hp. unfold resolve. by rewrite Hp. Qed.

Lemma subscriptions_run_jobs_last js cb h w :
  JsMap.get cb (subscriptions (topic (run_jobs (js ++ [(then_set cb, h)]) w)))
  = Some h.
Proof. rewrite run_jobs_app. simpl. apply get_set_eq. Qed.

(** C7. An [unsubscribe] (with or without the callback) that runs while
    the request of [subscribe(cb)] is still pending leaves that request
    alone: its continuation stays registered, the handle is stored under
    [cb] when the request resolves, and the handle receives no
    [unsubscribe] call.  The calls [unsubscribe] makes go to handles that
    were in the map when it ran. *)
Theorem unsubscribe_misses_pending w cb (ocb : option callback) h :
  rosImpl w = true ->
  h ∉ JsMap.values (subscriptions (topic w)) ->
  let p := length (promises w) in
  let w1 := unsubscribe ocb (subscribe cb w) in
  let w2 := drain (resolve p h w1) in
  promises w1 !! p = Some (Pending [then_set cb]) /\
  (exists hs,
     trace w1 = trace (subscribe cb w) ++ map subscription_unsubscribe hs /\
     forall h', h' ∈ hs -> h' ∈ JsMap.values (subscriptions (topic w))) /\
  JsMap.get cb (subscriptions (topic w2)) = Some h /\
  unsubscribe_calls h (trace w2) = unsubscribe_calls h (trace w).
Proof.
  intros Himpl Hfresh p w1 w2. subst w2 w1 p.
  rewrite subscribe_spec by done.
  destruct (unsubscribe_spec ocb
              {| topic := topic w; rosImpl := rosImpl w;
                 promises := promises w ++ [Pending [then_set cb]];
                 jobs := jobs w;
                 trace := trace w ++
                   [createSubscription (name (topic w)) cb (length (promises w))] |})
    as (hs & m' & Hhs & _ & ->).
  simpl in Hhs.
  rewrite (resolve_pending _ _ [then_set cb]) by apply lookup_fresh.
  split; [apply lookup_fresh|].
  split; [by exists hs|].
  rewrite drain_run_jobs. unfold set_jobs. simpl.
  split.
  - apply subscriptions_run_jobs_last.
  - rewrite trace_run_jobs. simpl.
    rewrite !unsubscribe_calls_app, unsubscribe_calls_jobs.
    rewrite unsubscribe_calls_other by (intros Hin; by apply Hfresh, Hhs).
    unfold unsubscribe_calls at 2. simpl. lia.
Qed.

(** ** Publishing *)

Lemma then_pending p (r : reaction) (rs : list reaction) w :
  promises w !! p = Some (Pending rs) ->
  then_ p r w = set_promises (<[p := Pending (rs ++ [r])]> (promises w)) w.
Proof. intros Hp. unfold then_. by rewrite Hp. Qed.

Lemma publish_stored p (msg : TMessage) w :
  publisher (topic w) = Some p -> publish msg w = then_ p (then_publish msg) w.
Proof. intros Hp. unfold publish. rewrite Hp. cbv zeta. by rewrite Hp. Qed.

Lemma publish_all_pending (ms : list TMessage) p (rs : list reaction) w :
  publisher (topic w) = Some p ->
  promises w !! p = Some (Pending rs) ->
  publish_all ms w =
  set_promises (<[p := Pending (rs ++ map then_publish ms)]> (promises w)) w.
Proof.
  revert rs w. induction ms as [|msg ms IH]; intros rs w Hpub Hp; simpl.
  - rewrite app_nil_r, list_insert_id by done. by destruct w.
  - rewrite (publish_stored p), (then_pending p _ rs) by done.
    assert (Hlt : p < length (promises w)) by by eapply lookup_lt_Some.
    rewrite (IH (rs ++ [then_publish msg])); simpl.
    + unfold set_promises. simpl.
      by rewrite list_insert_insert_eq, <- app_assoc.
    + done.
    + by apply list_lookup_insert_eq.
Qed.

Lemma job_calls_publish h (ms : list TMessage) :
  flat_map job_calls (map (fun r => (r, h)) (map then_publish ms)) =
  map (publisher_publish h) ms.
Proof. induction ms as [|msg ms IH]; simpl; [done|]. by rewrite IH. Qed.

Lemma forwarded_app h (tr1 tr2 : list call) :
  forwarded h (tr1 ++ tr2) = forwarded h tr1 ++ forwarded h tr2.
Proof. apply omap_app. Qed.

Lemma forwarded_publish h (ms : list TMessage) :
  forwarded h (map (publisher_publish h) ms) = ms.
Proof.
  induction ms as [|msg ms IH]; [done|].
  unfold forwarded in *. cbn [map omap list_omap].
  by rewrite decide_True, IH.
Qed.

(** After [publish_all ms], started while the publisher is unresolved,
    one pending promise is stored and carries the forwards of [ms], in
    order, behind the reactions [rs] it carried before. *)
Lemma publish_all_unresolved (ms : list TMessage) w :
  publisher_unresolved w = true -> ms <> [] ->
  exists p rs,
    (publisher (topic w) = None /\ p = length (promises w) /\ rs = [] /\
     publish_all ms w =
     set_promises (promises w ++ [Pending (map then_publish ms)])
       (advertise w)
     \/
     publisher (topic w) = Some p /\ promises w !! p = Some (Pending rs) /\
     publish_all ms w =
     set_promises (<[p := Pending (rs ++ map then_publish ms)]> (promises w)) w).
Proof.
  unfold publisher_unresolved. intros Hun Hms.
  destruct (publisher (topic w)) as [p|] eqn:Hpub.
  - destruct (promises w !! p) as [[rs| |]|] eqn:Hp; try done.
    exists p, rs. right. split_and!; [done..|]. by apply publish_all_pending.
  - destruct ms as [|msg ms]; [done|].
    exists (length (promises w)), []. left. split_and!; [done..|].
    simpl. unfold publish at 1. rewrite Hpub.
    rewrite (advertise_spec w) by done. simpl.
    rewrite (then_pending _ _ []) by apply lookup_fresh. simpl.
    rewrite (publish_all_pending ms (length (promises w)) [then_publish msg]).
    + unfold set_promises. simpl.
      by rewrite !insert_fresh.
    + done.
    + simpl. rewrite insert_fresh. apply lookup_fresh.
Qed.

Lemma trace_drain_resolve p h (rs : list reaction) w :
  promises w !! p = Some (Pending rs) ->
  trace (drain (resolve p h w)) =
  trace w ++ flat_map job_calls (jobs w ++ map (fun r => (r, h)) rs).
Proof. intros Hp. by rewrite (resolve_pending p h rs), trace_drain. Qed.

Lemma publisher_requests_app (tr1 tr2 : list call) :
  publisher_requests (tr1 ++ tr2) =
  publisher_requests tr1 + publisher_requests tr2.
Proof. unfold publisher_requests. by rewrite omap_app, length_app. Qed.

(** C4. Messages published, in program order, while the publisher is
    unresolved are all chained on the one stored promise, in that order,
    with at most one [createPublisher] request; when the promise resolves
    to [h] and the queue runs, [h] receives them in exactly that order
    (after whatever was pending before them). *)
Theorem publish_order w (ms : list TMessage) h :
  publisher_unresolved w = true -> ms <> [] ->
  let w1 := publish_all ms w in
  exists p rs,
    publisher (topic w1) = Some p /\
    promises w1 !! p = Some (Pending (rs ++ map then_publish ms)) /\
    (publisher (topic w) = None -> rs = [] /\ p = length (promises w)) /\
    (forall p0, publisher (topic w) = Some p0 ->
       p = p0 /\ promises w !! p0 = Some (Pending rs)) /\
    publisher_requests (trace w1) <= publisher_requests (trace w) + 1 /\
    let w2 := drain (resolve p h w1) in
    let earlier := flat_map job_calls (jobs w ++ map (fun r => (r, h)) rs) in
    trace w2 = trace w1 ++ earlier ++ map (publisher_publish h) ms /\
    forwarded h (trace w2) = forwarded h (trace w1 ++ earlier) ++ ms.
Proof.
  intros Hun Hms w1.
  destruct (publish_all_unresolved ms w Hun Hms)
    as (p & rs & [(Hpub & -> & -> & Heq)|(Hpub & Hp & Heq)]).
  - exists (length (promises w)), [].
    assert (Himpl : rosImpl w = true).
    { unfold publisher_unresolved in Hun. by rewrite Hpub in Hun. }
    assert (Hp1 : promises w1 !! length (promises w) =
                  Some (Pending ([] ++ map then_publish ms))).
    { subst w1. rewrite Heq. simpl. apply lookup_fresh. }
    assert (Htr : trace w1 = trace w ++
              [createPublisher (name (topic w)) (messageType (topic w))
                 (length (promises w))]).
    { subst w1. rewrite Heq, advertise_spec by done. done. }
    assert (Hjobs : jobs w1 = jobs w).
    { subst w1. rewrite Heq, advertise_spec by done. done. }
    split_and!.
    + subst w1. rewrite Heq, advertise_spec by done. done.
    + done.
    + done.
    + intros p0 Hp0. congruence.
    + rewrite Htr, publisher_requests_app. unfold publisher_requests. simpl. lia.
    + cbv zeta. rewrite (trace_drain_resolve _ _ _ _ Hp1), Hjobs.
      rewrite !map_app, !flat_map_app, job_calls_publish. simpl.
      rewrite !app_nil_r. split; [done|].
      by rewrite !forwarded_app, forwarded_publish, <- ?app_assoc.
  - exists p, rs.
    assert (Hlt : p < length (promises w)) by by eapply lookup_lt_Some.
    assert (Hp1 : promises w1 !! p = Some (Pending (rs ++ map then_publish ms))).
    { subst w1. rewrite Heq. simpl. by apply list_lookup_insert_eq. }
    assert (Htr : trace w1 = trace w) by (subst w1; by rewrite Heq).
    assert (Hjobs : jobs w1 = jobs w) by (subst w1; by rewrite Heq).
    split_and!.
    + subst w1. by rewrite Heq.
    + done.
    + intros Hnone. congruence.
    + intros p0 Hp0. split; congruence.
    + rewrite Htr. lia.
    + cbv zeta. rewrite (trace_drain_resolve _ _ _ _ Hp1), Hjobs.
      rewrite !map_app, !flat_map_app, job_calls_publish.
      rewrite <- !app_assoc. split; [done|].
      by rewrite !forwarded_app, forwarded_publish, <- ?app_assoc.
Qed.

(** ** Unadvertising *)

Lemma unadvertise_stored p w :
  publisher (topic w) = Some p -> unadvertise w = then_ p then_unadvertise w.
Proof. intros Hp. unfold unadvertise. by rewrite Hp. Qed.

Lemma unadvertise_none w : publisher (topic w) = None -> unadvertise w = w.
Proof. intros Hp. unfold unadvertise. by rewrite Hp. Qed.

Lemma then_fulfilled p h (r : reaction) w :
  promises w !! p = Some (Fulfilled h) ->
  then_ p r w = set_jobs (jobs w ++ [(r, h)]) w.
Proof. intros Hp. unfold then_. by rewrite Hp. Qed.

(** [advertise(); unadvertise()] on a quiescent world, once the request
    has resolved to [h] and the queue has run: the same world whether the
    request resolves before or after the call of [unadvertise]. *)
Lemma advertise_unadvertise_completed w h w1 :
  rosImpl w = true -> jobs w = [] ->
  w1 = drain (resolve (length (promises w)) h (unadvertise (advertise w))) \/
  w1 = drain (unadvertise (drain (resolve (length (promises w)) h (advertise w)))) ->
  w1 =
  {| topic := {| name := name (topic w); messageType := messageType (topic w);
                 publisher := None; subscriptions := subscriptions (topic w) |};
     rosImpl := rosImpl w;
     promises := promises w ++ [Fulfilled h]; jobs := [];
     trace := trace w ++
              [createPublisher (name (topic w)) (messageType (topic w))
                 (length (promises w));
               publisher_unadvertise h] |}.
Proof.
  intros Himpl Hjobs [->| ->]; rewrite advertise_spec by done.
  - rewrite (unadvertise_stored (length (promises w))) by done.
    rewrite (then_pending _ _ []) by apply lookup_fresh.
    unfold set_promises. simpl. rewrite insert_fresh.
    rewrite (resolve_pending _ _ [then_unadvertise]) by apply lookup_fresh.
    simpl. rewrite insert_fresh, Hjobs, drain_run_jobs. simpl.
    unfold set_publisher, emit. simpl. by rewrite <- app_assoc.
  - rewrite (resolve_pending _ _ []) by apply lookup_fresh.
    simpl. rewrite insert_fresh, Hjobs. simpl.
    rewrite (drain_idle (mkWorld _ _ _ _ _)) by reflexivity.
    rewrite (unadvertise_stored (length (promises w))) by done.
    rewrite (then_fulfilled _ h) by apply lookup_fresh.
    rewrite drain_run_jobs. simpl.
    unfold set_publisher, emit. simpl. by rewrite <- app_assoc.
Qed.

(** C5. After [advertise()], [unadvertise()] and its completion, the
    publisher field is empty again, and a [publish] then issues a new
    [createPublisher] request, stores the new promise (not the old one,
    which stays fulfilled with the retired handle) and chains the forward
    on it. *)
Theorem publish_after_unadvertise_readvertises w h (msg : TMessage) w1 :
  rosImpl w = true -> jobs w = [] ->
  let p1 := length (promises w) in
  w1 = drain (resolve p1 h (unadvertise (advertise w))) \/
  w1 = drain (unadvertise (drain (resolve p1 h (advertise w)))) ->
  let w2 := publish msg w1 in
  publisher (topic w1) = None /\
  trace w1 = trace w ++ [createPublisher (name (topic w)) (messageType (topic w)) p1;
                         publisher_unadvertise h] /\
  publisher (topic w2) = Some (S p1) /\
  promises w2 !! p1 = Some (Fulfilled h) /\
  promises w2 !! S p1 = Some (Pending [then_publish msg]) /\
  trace w2 = trace w1 ++
             [createPublisher (name (topic w)) (messageType (topic w)) (S p1)].
Proof.
  intros Himpl Hjobs p1 Hw1 w2. subst w2 p1.
  rewrite (advertise_unadvertise_completed w h w1 Himpl Hjobs Hw1).
  split; [done|]. split; [done|].
  unfold publish. simpl. rewrite advertise_spec by done. simpl.
  rewrite length_app. simpl. rewrite Nat.add_1_r.
  assert (Hfresh : (promises w ++ [Fulfilled h] ++ [Pending []]) !! S (length (promises w))
                   = Some (@Pending TMessage [])).
  { rewrite app_assoc. replace (S (length (promises w)))
      with (length (promises w ++ [Fulfilled h])).
    - apply lookup_fresh.
    - rewrite length_app. simpl. lia. }
  rewrite (then_pending _ _ []).
  - simpl. split; [done|].
    replace (S (length (promises w))) with (length (promises w ++ [Fulfilled h]))
      by (rewrite length_app; simpl; lia).
    rewrite insert_fresh.
    split.
    + rewrite <- app_assoc. by apply list_lookup_middle.
    + split; [apply lookup_fresh|done].
  - simpl. by rewrite <- app_assoc.
Qed.

Lemma unadvertise_calls_app h (tr1 tr2 : list call) :
  unadvertise_calls h (tr1 ++ tr2) =
  unadvertise_calls h tr1 + unadvertise_calls h tr2.
Proof. unfold unadvertise_calls. by rewrite omap_app, length_app. Qed.

Lemma unadvertise_calls_one h :
  unadvertise_calls h [@publisher_unadvertise TMessage h] = 1.
Proof. unfold unadvertise_calls. simpl. by rewrite decide_True. Qed.

Lemma resolve_settled p h h' w :
  promises w !! p = Some (Fulfilled h') -> resolve p h w = w.
Proof. intros Hp. unfold resolve. by rewrite Hp. Qed.

Lemma drain_unadvertise_last js h w :
  jobs w = js ++ [(then_unadvertise, h)] ->
  publisher (topic (drain w)) = None /\
  trace (drain w) = trace w ++ flat_map job_calls js ++ [publisher_unadvertise h].
Proof.
  intros Hjs. rewrite trace_drain, drain_run_jobs, Hjs, run_jobs_app.
  split; [done|]. by rewrite flat_map_app.
Qed.

(** C3 (as the code has it). A second [unadvertise()] that is called
    after the first one has completed (the publisher has resolved to [h]
    and the continuation has run) finds the publisher field empty: it is a
    no-op, it returns, and of the two calls only the first reaches the
    handle, once. *)
Theorem unadvertise_again_after_completion w p h (rs : list reaction) :
  publisher (topic w) = Some p ->
  promises w !! p = Some (Pending rs) \/
  promises w !! p = Some (Fulfilled h) /\ rs = [] ->
  let w1 := drain (resolve p h (unadvertise w)) in
  let earlier := flat_map job_calls (jobs w ++ map (fun r => (r, h)) rs) in
  publisher (topic w1) = None /\
  trace w1 = trace w ++ earlier ++ [publisher_unadvertise h] /\
  unadvertise w1 = w1 /\
  unadvertise_calls h (trace (unadvertise w1)) =
    unadvertise_calls h (trace w ++ earlier) + 1.
Proof.
  intros Hpub Hp w1 earlier.
  assert (Hjobs : jobs (resolve p h (unadvertise w)) =
                  (jobs w ++ map (fun r => (r, h)) rs) ++ [(then_unadvertise, h)] /\
                  trace (resolve p h (unadvertise w)) = trace w).
  { rewrite (unadvertise_stored p) by done. destruct Hp as [Hp|[Hp ->]].
    - assert (Hlt : p < length (promises w)) by by eapply lookup_lt_Some.
      rewrite (then_pending _ _ rs) by done.
      rewrite (resolve_pending _ _ (rs ++ [then_unadvertise]))
        by by apply list_lookup_insert_eq.
      simpl. by rewrite map_app, app_assoc.
    - rewrite (then_fulfilled _ h) by done.
      rewrite (resolve_settled _ _ h) by done. simpl. by rewrite app_nil_r. }
  destruct Hjobs as [Hjobs Htr].
  destruct (drain_unadvertise_last _ _ _ Hjobs) as [Hnone Htr1].
  fold w1 in Hnone, Htr1. rewrite Htr in Htr1. fold earlier in Htr1.
  assert (Hnoop : unadvertise w1 = w1) by by apply unadvertise_none.
  split_and!; [done..|].
  by rewrite Hnoop, Htr1, app_assoc, unadvertise_calls_app, unadvertise_calls_one.
Qed.

(** ** Advertising *)

Lemma then_frame p (r : reaction) w :
  topic (then_ p r w) = topic w /\ trace (then_ p r w) = trace w /\
  rosImpl (then_ p r w) = rosImpl w.
Proof. unfold then_. by repeat case_match. Qed.

Lemma publish_all_stored (ms : list TMessage) p w :
  publisher (topic w) = Some p ->
  publisher (topic (publish_all ms w)) = Some p /\
  trace (publish_all ms w) = trace w.
Proof.
  revert w. induction ms as [|msg ms IH]; intros w Hpub; simpl; [done|].
  destruct (then_frame p (then_publish msg) w) as (Htopic & Htr & _).
  rewrite (publish_stored p) by done.
  destruct (IH (then_ p (then_publish msg) w)) as [-> ->]; [by rewrite Htopic|].
  by rewrite Htr.
Qed.

Lemma advertise_iter n w :
  rosImpl w = true ->
  rosImpl (Nat.iter n advertise w) = true /\
  length (promises (Nat.iter n advertise w)) = length (promises w) + n /\
  publisher_requests (trace (Nat.iter n advertise w)) =
    publisher_requests (trace w) + n /\
  (0 < n ->
   publisher (topic (Nat.iter n advertise w)) = Some (length (promises w) + n - 1)).
Proof.
  intros Himpl. induction n as [|n (IHimpl & IHlen & IHreq & IHpub)]; simpl.
  - split_and!; [done|lia|lia|lia].
  - rewrite advertise_spec by done. simpl.
    rewrite length_app, publisher_requests_app, IHlen, IHreq.
    unfold publisher_requests at 2. simpl.
    split_and!; [done|lia|lia|].
    intros _. f_equal. lia.
Qed.

(** C1 (as the code has it). [advertise] has no guard: every call made
    while the connection implementation is present issues a
    [createPublisher] request of its own and stores the new promise, so
    [n] calls issue [n] requests.  The guard is in [publish]: while a
    publisher is stored, however many messages are published, no request
    is issued. *)
Theorem advertise_requests_each_time w n (ms : list TMessage) :
  rosImpl w = true -> 0 < n ->
  let w' := Nat.iter n advertise w in
  publisher_requests (trace w') = publisher_requests (trace w) + n /\
  publisher (topic w') = Some (length (promises w) + n - 1) /\
  publisher_requests (trace (publish_all ms w')) = publisher_requests (trace w').
Proof.
  intros Himpl Hn w'.
  destruct (advertise_iter n w Himpl) as (_ & _ & Hreq & Hpub).
  specialize (Hpub Hn). fold w' in Hreq, Hpub.
  destruct (publish_all_stored ms _ w' Hpub) as [_ Htr].
  by rewrite Htr.
Qed.

(** ** Subscribing *)

Lemma live_spec h cb w :
  (h, cb) ∈ live w <->
  exists nm p, createSubscription nm cb p ∈ trace w /\
               promises w !! p = Some (Fulfilled h) /\
               unsubscribe_calls h (trace w) = 0.
Proof.
  unfold live. rewrite list_elem_of_omap. split.
  - intros (c & Hin & Hc). destruct c as [| nm cb' p | | | |]; try done.
    destruct (promises w !! p) as [[|h'|]|] eqn:Hp; try done.
    case_decide; [|done]. simplify_eq. by exists nm, p.
  - intros (nm & p & Hin & Hp & Hcalls).
    exists (createSubscription nm cb p). split; [done|].
    rewrite Hp. by rewrite decide_True.
Qed.

Lemma two_fresh_12 {A} (l : list A) (x y a b : A) :
  <[S (length l) := b]> (<[length l := a]> (l ++ [x; y])) = l ++ [a; b].
Proof. induction l as [|c l IH]; simpl; [done|]. by rewrite IH. Qed.

Lemma two_fresh_21 {A} (l : list A) (x y a b : A) :
  <[length l := a]> (<[S (length l) := b]> (l ++ [x; y])) = l ++ [a; b].
Proof. induction l as [|c l IH]; simpl; [done|]. by rewrite IH. Qed.

Lemma lookup_fresh_1 {A} (l : list A) (x y : A) :
  (l ++ [x; y]) !! length l = Some x.
Proof. by apply list_lookup_middle. Qed.

Lemma lookup_fresh_2 {A} (l : list A) (x y : A) :
  (l ++ [x; y]) !! S (length l) = Some y.
Proof. induction l as [|c l IH]; simpl; [done|]. apply IH. Qed.

Lemma tick_idle w : jobs w = [] -> tick w = w.
Proof. intros Hj. unfold tick. by rewrite Hj. Qed.

Lemma iter_tick_idle k w : jobs w = [] -> Nat.iter k tick w = w.
Proof.
  intros Hj. induction k as [|k IH]; simpl; [done|].
  rewrite IH. by apply tick_idle.
Qed.

Lemma iter_tick_single k j w :
  jobs w = [j] ->
  Nat.iter k tick w = w \/ Nat.iter k tick w = run_job j (set_jobs [] w).
Proof.
  intros Hj. destruct k as [|k]; [by left|]. right.
  rewrite Nat.iter_succ_r. unfold tick at 2. rewrite Hj.
  apply iter_tick_idle. by rewrite jobs_run_job.
Qed.

Lemma subscribe_twice cb w :
  rosImpl w = true ->
  subscribe cb (subscribe cb w) =
  {| topic := topic w; rosImpl := rosImpl w;
     promises := promises w ++ [Pending [then_set cb]; Pending [then_set cb]];
     jobs := jobs w;
     trace := trace w ++
              [createSubscription (name (topic w)) cb (length (promises w));
               createSubscription (name (topic w)) cb (S (length (promises w)))] |}.
Proof.
  intros Himpl. rewrite (subscribe_spec cb w) by done.
  rewrite subscribe_spec by done. simpl.
  rewrite length_app, <- !app_assoc. simpl. by rewrite Nat.add_1_r.
Qed.

(** The second of two requests resolves and the queue runs: [Hins] puts
    the two fulfilled promises in place, [Hlook] finds the one still
    pending. *)
Local Ltac resolve_other cb Hins Hlook :=
  rewrite (resolve_pending _ _ [then_set cb]);
  [ rewrite drain_run_jobs; simpl; unfold set_subscriptions; simpl;
    by rewrite Hins
  | simpl; rewrite list_lookup_insert_ne by lia; apply Hlook ].

(** Two requests for the same callback, resolved in either order (the
    one named by [first] before the other), with any number of microtasks
    run in between: the same world, in which the handle resolved last has
    overwritten the other. *)
Lemma double_subscribe_world w cb ha hb (first : bool) k :
  rosImpl w = true -> jobs w = [] ->
  let p1 := length (promises w) in
  let pa := if first then p1 else S p1 in
  let pb := if first then S p1 else p1 in
  drain (resolve pb hb (Nat.iter k tick
           (resolve pa ha (subscribe cb (subscribe cb w))))) =
  {| topic := {| name := name (topic w); messageType := messageType (topic w);
                 publisher := publisher (topic w);
                 subscriptions :=
                   JsMap.set cb hb (JsMap.set cb ha (subscriptions (topic w))) |};
     rosImpl := rosImpl w;
     promises := promises w ++ (if first then [Fulfilled ha; Fulfilled hb]
                                else [Fulfilled hb; Fulfilled ha]);
     jobs := [];
     trace := trace w ++
              [createSubscription (name (topic w)) cb p1;
               createSubscription (name (topic w)) cb (S p1)] |}.
Proof.
  intros Himpl Hjobs p1 pa pb. subst pa pb p1.
  rewrite subscribe_twice by done. rewrite Hjobs.
  destruct first.
  - rewrite (resolve_pending _ ha [then_set cb]) by apply lookup_fresh_1.
    simpl.
    match goal with |- context [Nat.iter k tick ?W] =>
      destruct (iter_tick_single k (then_set cb, ha) W eq_refl) as [-> | ->]
    end; resolve_other cb @two_fresh_12 @lookup_fresh_2.
  - rewrite (resolve_pending _ ha [then_set cb]) by apply lookup_fresh_2.
    simpl.
    match goal with |- context [Nat.iter k tick ?W] =>
      destruct (iter_tick_single k (then_set cb, ha) W eq_refl) as [-> | ->]
    end; resolve_other cb @two_fresh_21 @lookup_fresh_1.
Qed.

(** ** A rejected request *)

Lemma unsubscribe_calls_mono h (tr1 tr2 : list call) :
  unsubscribe_calls h tr1 <> 0 -> unsubscribe_calls h (tr1 ++ tr2) <> 0.
Proof. rewrite unsubscribe_calls_app. lia. Qed.

Lemma quietly_refl cb w : unregistered cb w -> quietly cb w w.
Proof. intros Hw. split; [done|]. exists []. by rewrite app_nil_r. Qed.

Lemma quietly_trans cb w1 w2 w3 :
  quietly cb w1 w2 -> quietly cb w2 w3 -> quietly cb w1 w3.
Proof.
  intros (_ & cs1 & Htr1 & Hq1) (Hw3 & cs2 & Htr2 & Hq2).
  split; [done|]. exists (cs1 ++ cs2). split.
  - by rewrite Htr2, Htr1, app_assoc.
  - by apply Forall_app.
Qed.

Lemma quietly_intro cb w w' (cs : list call) :
  unregistered cb w ->
  trace w' = trace w ++ cs -> Forall (quiet cb) cs ->
  JsMap.get cb (subscriptions (topic w')) = None ->
  (forall h, (then_set cb, h) ∉ jobs w') ->
  (forall p rs, promises w' !! p = Some (Pending rs) -> then_set cb ∉ rs) ->
  (forall p, promises w !! p = Some Rejected -> promises w' !! p = Some Rejected) ->
  (forall p h, promises w !! p = Some (Fulfilled h) ->
               promises w' !! p = Some (Fulfilled h)) ->
  quietly cb w w'.
Proof.
  intros (_ & _ & _ & HT) Htr Hq HG HJ HP Hrej Hful.
  split; [|by exists cs]. split_and!; [done..|].
  intros nm p Hin. rewrite Htr in Hin |- *.
  apply elem_of_app in Hin as [Hin|Hin].
  - destruct (HT nm p Hin) as [Hp|(h & Hp & Hcalls)].
    + left. by apply Hrej.
    + right. exists h. split; [by apply Hful|by apply unsubscribe_calls_mono].
  - rewrite Forall_forall in Hq. by destruct (Hq _ Hin).
Qed.

Lemma quietly_emits cb (cs : list call) w :
  Forall (quiet cb) cs -> unregistered cb w ->
  quietly cb w {| topic := topic w; rosImpl := rosImpl w; promises := promises w;
                  jobs := jobs w; trace := trace w ++ cs |}.
Proof.
  intros Hq Hw. pose proof Hw as (HG & HJ & HP & _).
  by apply (quietly_intro cb w _ cs).
Qed.

Lemma quietly_emit cb (c : call) w :
  quiet cb c -> unregistered cb w -> quietly cb w (emit c w).
Proof. intros Hq. apply (quietly_emits cb [c]). by constructor. Qed.

Lemma quietly_topic cb (t : Topic) (b : bool) w :
  JsMap.get cb (subscriptions t) = None -> unregistered cb w ->
  quietly cb w {| topic := t; rosImpl := b; promises := promises w;
                  jobs := jobs w; trace := trace w |}.
Proof.
  intros Ht Hw. pose proof Hw as (HG & HJ & HP & _).
  apply (quietly_intro cb w _ []); simpl; try done. by rewrite app_nil_r.
Qed.

Lemma quietly_new_promise cb w : unregistered cb w -> quietly cb w (new_promise w).
Proof.
  intros Hw. pose proof Hw as (HG & HJ & HP & _).
  apply (quietly_intro cb w _ []); simpl; try done.
  - by rewrite app_nil_r.
  - intros p rs Hp. apply lookup_app_Some in Hp as [Hp|[_ Hp]]; [by eapply HP|].
    apply list_lookup_singleton_Some in Hp as [_ [= <-]].
    apply not_elem_of_nil.
  - intros p Hp. by apply lookup_app_l_Some.
  - intros p h Hp. by apply lookup_app_l_Some.
Qed.

Lemma quietly_then cb p (r : reaction) w :
  r <> then_set cb -> unregistered cb w -> quietly cb w (then_ p r w).
Proof.
  intros Hr Hw. pose proof Hw as (HG & HJ & HP & _). unfold then_.
  destruct (promises w !! p) as [[rs|h| ]|] eqn:Hp; try by apply quietly_refl.
  - apply (quietly_intro cb w _ []); simpl; try done.
    + by rewrite app_nil_r.
    + intros p' rs' Hp'.
      apply list_lookup_insert_Some in Hp' as [(-> & [= <-] & _)|[_ Hp']].
      * intros [Hin|Hin%list_elem_of_singleton]%elem_of_app; [by eapply HP|done].
      * by eapply HP.
    + intros p' Hp'. rewrite list_lookup_insert_ne; [done|]. congruence.
    + intros p' h Hp'. rewrite list_lookup_insert_ne; [done|]. congruence.
  - apply (quietly_intro cb w _ []); simpl; try done.
    + by rewrite app_nil_r.
    + intros h' [Hin|Hin%list_elem_of_singleton]%elem_of_app;
        [by eapply HJ|congruence].
Qed.

Lemma quietly_resolve cb p h w :
  unregistered cb w -> quietly cb w (resolve p h w).
Proof.
  intros Hw. pose proof Hw as (HG & HJ & HP & _). unfold resolve.
  destruct (promises w !! p) as [[rs|h'| ]|] eqn:Hp; try by apply quietly_refl.
  apply (quietly_intro cb w _ []); simpl; try done.
  - by rewrite app_nil_r.
  - intros h' [Hin|Hin]%elem_of_app; [by eapply HJ|].
    apply list_elem_of_fmap in Hin as (r & [= <- <-] & Hin). by eapply HP.
  - intros p' rs' Hp'.
    apply list_lookup_insert_Some in Hp' as [(_ & [=] & _)|[_ Hp']].
    by eapply HP.
  - intros p' Hp'. rewrite list_lookup_insert_ne; [done|]. congruence.
  - intros p' h' Hp'. rewrite list_lookup_insert_ne; [done|]. congruence.
Qed.

Lemma quietly_reject cb p w :
  unregistered cb w -> quietly cb w (reject p w).
Proof.
  intros Hw. pose proof Hw as (HG & HJ & HP & _). unfold reject.
  destruct (promises w !! p) as [[rs|h'| ]|] eqn:Hp; try by apply quietly_refl.
  apply (quietly_intro cb w _ []); simpl; try done.
  - by rewrite app_nil_r.
  - intros p' rs' Hp'.
    apply list_lookup_insert_Some in Hp' as [(_ & [=] & _)|[_ Hp']].
    by eapply HP.
  - intros p' Hp'. rewrite list_lookup_insert_ne; [done|]. congruence.
  - intros p' h' Hp'. rewrite list_lookup_insert_ne; [done|]. congruence.
Qed.

Lemma quietly_tick cb w : unregistered cb w -> quietly cb w (tick w).
Proof.
  intros Hw. pose proof Hw as (HG & HJ & HP & _). unfold tick.
  destruct (jobs w) as [|[r h] js] eqn:Hjobs; [by apply quietly_refl|].
  assert (Hjs : forall h', (then_set cb, h') ∉ js).
  { intros h' Hin. apply (HJ h'). by apply elem_of_cons; right. }
  assert (Hr : r <> then_set cb).
  { intros ->. apply (HJ h). by apply elem_of_cons; left. }
  destruct r as [msg| |cb'].
  - by apply (quietly_intro cb w _ [publisher_publish h msg]); simpl;
      try done; repeat constructor.
  - by apply (quietly_intro cb w _ [publisher_unadvertise h]); simpl;
      try done; repeat constructor.
  - apply (quietly_intro cb w _ []); simpl; try done.
    + by rewrite app_nil_r.
    + rewrite get_set_ne; [done|]. congruence.
Qed.

Lemma unregistered_not_live cb w h : unregistered cb w -> (h, cb) ∉ live w.
Proof.
  intros (_ & _ & _ & HT) (nm & p & Hin & Hp & Hcalls)%live_spec.
  destruct (HT nm p Hin) as [Hp'|(h' & Hp' & Hcalls')]; congruence.
Qed.

Lemma quietly_set_publisher cb (o : option promise_id) w :
  unregistered cb w -> quietly cb w (set_publisher o w).
Proof. intros Hw. apply quietly_topic; [|done]. by destruct Hw. Qed.

Lemma quietly_advertise cb w : unregistered cb w -> quietly cb w (advertise w).
Proof.
  intros Hw. unfold advertise. destruct (rosImpl w).
  - pose proof (quietly_new_promise cb w Hw) as H1.
    pose proof (quietly_emit cb
                  (createPublisher (name (topic w)) (messageType (topic w))
                     (length (promises w)))
                  (new_promise w) I (proj1 H1)) as H2.
    eapply quietly_trans; [exact H1|]. eapply quietly_trans; [exact H2|].
    apply quietly_set_publisher. by destruct H2.
  - by apply quietly_set_publisher.
Qed.

Lemma quietly_publish cb (msg : TMessage) w :
  unregistered cb w -> quietly cb w (publish msg w).
Proof.
  intros Hw. unfold publish.
  destruct (publisher (topic w)) as [p|] eqn:Hpub; cbv zeta.
  - rewrite Hpub. by apply quietly_then.
  - pose proof (quietly_advertise cb w Hw) as Hadv.
    destruct (publisher (topic (advertise w))) as [p|]; [|done].
    eapply quietly_trans; [exact Hadv|]. apply quietly_then; [done|]. by destruct Hadv.
Qed.

Lemma quietly_unadvertise cb w : unregistered cb w -> quietly cb w (unadvertise w).
Proof.
  intros Hw. unfold unadvertise.
  destruct (publisher (topic w)) as [p|]; [|by apply quietly_refl].
  by apply quietly_then.
Qed.

Lemma quietly_subscribe cb cb' w :
  cb' <> cb -> unregistered cb w -> quietly cb w (subscribe cb' w).
Proof.
  intros Hne Hw. unfold subscribe.
  destruct (rosImpl w); [|by apply quietly_refl].
  pose proof (quietly_new_promise cb w Hw) as H1.
  pose proof (quietly_emit cb
                (createSubscription (name (topic w)) cb' (length (promises w)))
                (new_promise w) Hne (proj1 H1)) as H2.
  eapply quietly_trans; [exact H1|]. eapply quietly_trans; [exact H2|].
  apply quietly_then; [congruence|]. by destruct H2.
Qed.

Lemma quietly_unsubscribe cb (ocb : option callback) w :
  unregistered cb w -> quietly cb w (unsubscribe ocb w).
Proof.
  intros Hw. pose proof Hw as (HG & _). destruct ocb as [cb'|]; unfold unsubscribe.
  - assert (Hdel : JsMap.get cb (JsMap.delete cb' (subscriptions (topic w))) = None).
    { destruct (decide (cb' = cb)) as [->|Hne];
        [apply get_delete_eq|by rewrite get_delete_ne]. }
    destruct (JsMap.get cb' (subscriptions (topic w))) as [h|].
    + pose proof (quietly_emit cb (subscription_unsubscribe h) w I Hw) as H1.
      eapply quietly_trans; [exact H1|].
      apply quietly_topic; [done|by destruct H1].
    + by apply quietly_topic.
  - rewrite foldl_emit.
    pose proof (quietly_emits cb
      (map subscription_unsubscribe (JsMap.values (subscriptions (topic w)))) w)
      as H1.
    destruct H1 as [H1 H1']; [|done|].
    { apply Forall_forall. intros c Hin.
      apply list_elem_of_fmap in Hin as (h & -> & _). done. }
    eapply quietly_trans; [exact (conj H1 H1')|]. by apply quietly_topic.
Qed.

Lemma quietly_deliver cb (msg : TMessage) w :
  unregistered cb w -> quietly cb w (deliver msg w).
Proof.
  intros Hw. unfold deliver. rewrite foldl_emit. apply quietly_emits; [|done].
  apply Forall_forall. intros c Hin.
  apply list_elem_of_fmap in Hin as ([h cb'] & -> & Hin). simpl.
  intros ->. by eapply unregistered_not_live.
Qed.

Lemma quietly_step cb (e : event) w :
  e <> Subscribe cb -> unregistered cb w -> quietly cb w (step e w).
Proof.
  intros He Hw. destruct e as [msg|cb'|ocb| | | |p h|p|b|msg]; simpl.
  - by apply quietly_publish.
  - apply quietly_subscribe; [congruence|done].
  - by apply quietly_unsubscribe.
  - by apply quietly_advertise.
  - by apply quietly_unadvertise.
  - by apply quietly_tick.
  - by apply quietly_resolve.
  - by apply quietly_reject.
  - apply quietly_topic; [by destruct Hw|done].
  - by apply quietly_deliver.
Qed.

Lemma quietly_run cb (es : list event) w :
  Subscribe cb ∉ es -> unregistered cb w -> quietly cb w (run es w).
Proof.
  revert w. induction es as [|e es IH]; intros w Hes Hw; simpl.
  - by apply quietly_refl.
  - apply not_elem_of_cons in Hes as [He Hes].
    pose proof (quietly_step cb e w (not_eq_sym He) Hw) as H1.
    eapply quietly_trans; [exact H1|]. apply IH; [done|by destruct H1].
Qed.

Lemma invocations_app cb (tr1 tr2 : list call) :
  invocations cb (tr1 ++ tr2) = invocations cb tr1 ++ invocations cb tr2.
Proof. apply omap_app. Qed.

Lemma invocations_quiet cb (cs : list call) :
  Forall (quiet cb) cs -> invocations cb cs = [].
Proof.
  induction 1 as [|c cs Hc _ IH]; [done|].
  unfold invocations in *. cbn [omap list_omap]. rewrite IH.
  destruct c; try done. simpl in Hc. by rewrite decide_False.
Qed.

Lemma subscribe_reject_spec cb w :
  rosImpl w = true ->
  reject (length (promises w)) (subscribe cb w) =
  {| topic := topic w; rosImpl := rosImpl w;
     promises := promises w ++ [Rejected]; jobs := jobs w;
     trace := trace w ++
              [createSubscription (name (topic w)) cb (length (promises w))] |}.
Proof.
  intros Himpl. rewrite subscribe_spec by done. unfold reject. simpl.
  rewrite lookup_fresh. unfold set_promises. simpl. by rewrite insert_fresh.
Qed.

Lemma unregistered_subscribe_reject cb w :
  rosImpl w = true -> unregistered cb w ->
  unregistered cb (reject (length (promises w)) (subscribe cb w)).
Proof.
  intros Himpl (HG & HJ & HP & HT). rewrite subscribe_reject_spec by done.
  split_and!; simpl; [done..| |].
  - intros p rs Hp. apply lookup_app_Some in Hp as [Hp|[_ Hp]]; [by eapply HP|].
    by apply list_lookup_singleton_Some in Hp as [_ [=]].
  - intros nm p Hin. apply elem_of_app in Hin as [Hin|Hin].
    + destruct (HT nm p Hin) as [Hp|(h & Hp & Hcalls)].
      * left. by apply lookup_app_l_Some.
      * right. exists h. split; [by apply lookup_app_l_Some|].
        by apply unsubscribe_calls_mono.
    + apply list_elem_of_singleton in Hin as [= -> ->]. left. apply lookup_fresh.
Qed.

(** C8. When the connection rejects the request issued by
    [subscribe(cb)], the call has returned normally with the request on
    the trace, and from then on, whatever happens short of a new
    [subscribe(cb)], [cb] is not a key of the map, has no live
    subscription and is never invoked. *)
Theorem subscribe_rejected_never_registers w cb (es : list event) :
  rosImpl w = true -> unregistered cb w -> Subscribe cb ∉ es ->
  let p := length (promises w) in
  let w1 := reject p (subscribe cb w) in
  let w2 := run es w1 in
  trace w1 = trace w ++ [createSubscription (name (topic w)) cb p] /\
  promises w1 !! p = Some Rejected /\
  topic w1 = topic w /\
  JsMap.get cb (subscriptions (topic w2)) = None /\
  (forall h, (h, cb) ∉ live w2) /\
  invocations cb (trace w2) = invocations cb (trace w).
Proof.
  intros Himpl Hw Hes p w1 w2.
  pose proof (unregistered_subscribe_reject cb w Himpl Hw) as Hw1.
  fold p in Hw1. fold w1 in Hw1.
  destruct (quietly_run cb es w1 Hes Hw1) as (Hw2 & cs & Htr & Hq).
  fold w2 in Hw2, Htr.
  assert (Htr1 : trace w1 = trace w ++ [createSubscription (name (topic w)) cb p]).
  { subst w1 p. by rewrite subscribe_reject_spec. }
  split_and!.
  - done.
  - subst w1 p. rewrite subscribe_reject_spec by done. apply lookup_fresh.
  - subst w1 p. by rewrite subscribe_reject_spec.
  - by destruct Hw2.
  - intros h. by apply unregistered_not_live.
  - rewrite Htr, Htr1, !invocations_app, (invocations_quiet cb cs) by done.
    simpl. by rewrite !app_nil_r.
Qed.

(** C2 (as the code has it). Two [subscribe(cb)] calls before either
    request resolves: once both have resolved, [cb] is bound in the map to
    the handle that resolved last; the handle that resolved first is no
    longer in the map, has received no [unsubscribe], receives none from a
    later [unsubscribe] of any form, and so stays live on the
    connection. *)
Theorem double_subscribe_last_wins w cb ha hb (first : bool) k
    (ocb : option callback) :
  rosImpl w = true -> jobs w = [] ->
  ha <> hb -> ha ∉ JsMap.values (subscriptions (topic w)) ->
  unsubscribe_calls ha (trace w) = 0 ->
  let p1 := length (promises w) in
  let pa := if first then p1 else S p1 in
  let pb := if first then S p1 else p1 in
  let w3 := drain (resolve pb hb (Nat.iter k tick
                     (resolve pa ha (subscribe cb (subscribe cb w))))) in
  JsMap.get cb (subscriptions (topic w3)) = Some hb /\
  (ha ∉ JsMap.values (subscriptions (topic w3))) /\
  trace w3 = trace w ++ [createSubscription (name (topic w)) cb p1;
                         createSubscription (name (topic w)) cb (S p1)] /\
  (ha, cb) ∈ live w3 /\
  (ha, cb) ∈ live (unsubscribe ocb w3).
Proof.
  intros Himpl Hjobs Hne Hfresh Hcalls p1 pa pb w3.
  pose proof (double_subscribe_world w cb ha hb first k Himpl Hjobs) as Hw3.
  cbv zeta in Hw3. fold p1 in Hw3. fold pa pb in Hw3. fold w3 in Hw3.
  assert (Hget : JsMap.get cb (subscriptions (topic w3)) = Some hb).
  { rewrite Hw3. simpl. apply get_set_eq. }
  assert (Hgone : ha ∉ JsMap.values (subscriptions (topic w3))).
  { rewrite Hw3. simpl. rewrite set_set. intros [?|?]%values_set; done. }
  assert (Htr : trace w3 = trace w ++
            [createSubscription (name (topic w)) cb p1;
             createSubscription (name (topic w)) cb (S p1)]).
  { by rewrite Hw3. }
  assert (Hpa : promises w3 !! pa = Some (Fulfilled ha)).
  { rewrite Hw3. simpl. subst pa p1.
    destruct first; [apply lookup_fresh_1|apply lookup_fresh_2]. }
  assert (Hin : createSubscription (name (topic w)) cb pa ∈ trace w3).
  { rewrite Htr. apply elem_of_app. right. subst pa.
    destruct first; [by left|by right; left]. }
  assert (Hcalls3 : unsubscribe_calls ha (trace w3) = 0).
  { rewrite Htr, unsubscribe_calls_app, Hcalls. done. }
  split_and!; [done..| |].
  - apply live_spec. by exists (name (topic w)), pa.
  - destruct (unsubscribe_spec ocb w3) as (hs & m' & Hhs & _ & ->).
    apply live_spec. exists (name (topic w)), pa. simpl. split_and!.
    + apply elem_of_app. by left.
    + done.
    + rewrite unsubscribe_calls_app, Hcalls3, unsubscribe_calls_other; [done|].
      intros Hin'. by apply Hgone, Hhs.
Qed.

End Properties.

(** * The properties on the concrete topic *)

Example two_subscriptions_map :
  subscriptions (topic two_subscriptions) = [(1, 10); (2, 11)].
Proof. reflexivity. Qed.

Example subscribed_twice_map :
  subscriptions (topic subscribed_twice) = [(1, 11)].
Proof. reflexivity. Qed.

Lemma unregistered_new_World {TMessage : Type} cb impl nm ty :
  unregistered cb (@new_World TMessage impl nm ty).
Proof.
  split_and!; simpl.
  - done.
  - intros h. apply not_elem_of_nil.
  - intros p rs Hp. by rewrite lookup_nil in Hp.
  - intros nm' p Hin. by apply elem_of_nil in Hin.
Qed.

(** C1, as stated, fails: a second [advertise()], called while the first
    request is still pending, is not a no-op.  It issues a second
    [createPublisher] request and replaces the stored promise. *)
Lemma advertise_twice_requests_twice :
  let w1 := advertise diagnostics in
  let w2 := advertise w1 in
  publisher (topic w1) = Some 0 /\
  promises w1 !! 0 = Some (Pending []) /\
  publisher_requests (trace w1) = 1 /\
  publisher_requests (trace w2) = 2 /\
  publisher (topic w2) = Some 1 /\
  w2 <> w1.
Proof. split_and!; [reflexivity..|]. intros [=]. Qed.

(** C2, as stated, fails: after a double [subscribe(cb)] and both
    resolutions the map has one entry, but the first handle was dropped
    without an [unsubscribe]; both subscriptions are live on the
    connection, and after [unsubscribe(cb)] (or [unsubscribe()]) the first
    one still is, so that a delivered message still reaches [cb]. *)
Lemma double_subscribe_orphans_first_handle :
  subscriptions (topic subscribed_twice) = [(1, 11)] /\
  unsubscribe_calls 10 (trace subscribed_twice) = 0 /\
  live subscribed_twice = [(10, 1); (11, 1)] /\
  unsubscribe_calls 10 (trace (unsubscribe (Some 1) subscribed_twice)) = 0 /\
  unsubscribe_calls 10 (trace (unsubscribe None subscribed_twice)) = 0 /\
  live (unsubscribe (Some 1) subscribed_twice) = [(10, 1)] /\
  invocations 1
    (trace (deliver "status" (unsubscribe (Some 1) subscribed_twice)))
  = ["status"].
Proof. split_and!; reflexivity. Qed.

(** C3, as stated, fails: two [unadvertise()] calls in a row, the second
    before the continuation of the first has run, both chain on the stored
    promise, and the handle receives [unadvertise] twice; so it is with a
    resolved publisher and with a pending one. *)
Lemma unadvertise_twice_in_a_row_calls_twice :
  publisher (topic advertised) = Some 0 /\
  promises advertised !! 0 = Some (Fulfilled 7) /\
  unadvertise_calls 7 (trace (drain (unadvertise (unadvertise advertised)))) = 2 /\
  unadvertise_calls 7
    (trace (drain (resolve 0 7
       (unadvertise (unadvertise (advertise diagnostics)))))) = 2.
Proof. split_and!; reflexivity. Qed.

(** Instances of the theorems on the concrete topic. *)

Lemma advertise_requests_each_time_witness :
  let w' := Nat.iter 3 advertise diagnostics in
  publisher_requests (trace w') = 3 /\
  publisher (topic w') = Some 2 /\
  publisher_requests (trace (publish_all ["a"; "b"] w')) = 3.
Proof.
  apply (advertise_requests_each_time diagnostics 3 ["a"; "b"]);
    [reflexivity|lia].
Defined.

Lemma double_subscribe_last_wins_witness :
  JsMap.get 1 (subscriptions (topic subscribed_twice)) = Some 11 /\
  (10 ∉ JsMap.values (subscriptions (topic subscribed_twice))) /\
  trace subscribed_twice =
    [createSubscription "/ns/diagnostics_agg" 1 0;
     createSubscription "/ns/diagnostics_agg" 1 1] /\
  (10, 1) ∈ live subscribed_twice /\
  (10, 1) ∈ live (unsubscribe (Some 1) subscribed_twice).
Proof.
  apply (double_subscribe_last_wins diagnostics 1 10 11 true 0 (Some 1));
    [reflexivity|reflexivity|lia|apply not_elem_of_nil|reflexivity].
Defined.

Lemma unadvertise_again_after_completion_witness :
  let w1 := drain (resolve 0 7 (unadvertise advertised)) in
  publisher (topic w1) = None /\
  trace w1 = trace advertised ++ [publisher_unadvertise 7] /\
  unadvertise w1 = w1 /\
  unadvertise_calls 7 (trace (unadvertise w1)) = 1.
Proof.
  apply (unadvertise_again_after_completion advertised 0 7 []);
    [reflexivity|right; split; reflexivity].
Defined.

Lemma publish_order_witness :
  let w1 := publish_all ["m1"; "m2"; "m3"] diagnostics in
  exists p rs,
    publisher (topic w1) = Some p /\
    promises w1 !! p = Some (Pending (rs ++ map then_publish ["m1"; "m2"; "m3"])) /\
    (publisher (topic diagnostics) = None ->
     rs = [] /\ p = length (promises diagnostics)) /\
    (forall p0, publisher (topic diagnostics) = Some p0 ->
       p = p0 /\ promises diagnostics !! p0 = Some (Pending rs)) /\
    publisher_requests (trace w1) <= publisher_requests (trace diagnostics) + 1 /\
    let w2 := drain (resolve p 7 w1) in
    let earlier :=
      flat_map job_calls (jobs diagnostics ++ map (fun r => (r, 7)) rs) in
    trace w2 = trace w1 ++ earlier ++ map (publisher_publish 7) ["m1"; "m2"; "m3"] /\
    forwarded 7 (trace w2) =
      forwarded 7 (trace w1 ++ earlier) ++ ["m1"; "m2"; "m3"].
Proof.
  apply (publish_order diagnostics ["m1"; "m2"; "m3"] 7);
    [reflexivity|discriminate].
Defined.

Lemma publish_after_unadvertise_readvertises_witness :
  let w1 := drain (resolve 0 7 (unadvertise (advertise diagnostics))) in
  let w2 := publish "m" w1 in
  publisher (topic w1) = None /\
  trace w1 = [createPublisher "/ns/diagnostics_agg"
                "diagnostic_msgs/DiagnosticArray" 0;
              publisher_unadvertise 7] /\
  publisher (topic w2) = Some 1 /\
  promises w2 !! 0 = Some (Fulfilled 7) /\
  promises w2 !! 1 = Some (Pending [then_publish "m"]) /\
  trace w2 = trace w1 ++
             [createPublisher "/ns/diagnostics_agg"
                "diagnostic_msgs/DiagnosticArray" 1].
Proof.
  apply (publish_after_unadvertise_readvertises diagnostics 7 "m"
           (drain (resolve 0 7 (unadvertise (advertise diagnostics)))));
    [reflexivity|reflexivity|left; reflexivity].
Defined.

Lemma unsubscribe_all_clears_witness :
  let w' := unsubscribe None two_subscriptions in
  subscriptions (topic w') = [] /\
  trace w' = trace two_subscriptions ++
             [subscription_unsubscribe 10; subscription_unsubscribe 11] /\
  (forall h, h ∈ [10; 11] ->
     unsubscribe_calls h (trace w') =
     unsubscribe_calls h (trace two_subscriptions) + 1) /\
  (forall h, h ∉ [10; 11] ->
     unsubscribe_calls h (trace w') =
     unsubscribe_calls h (trace two_subscriptions)) /\
  (subscriptions (topic two_subscriptions) = [] -> w' = two_subscriptions).
Proof.
  apply (unsubscribe_all_clears two_subscriptions).
  apply NoDup_cons_2; [|apply NoDup_singleton].
  intros Hin. apply list_elem_of_singleton in Hin. discriminate Hin.
Defined.

Lemma unsubscribe_misses_pending_witness :
  let w1 := unsubscribe None (subscribe 3 two_subscriptions) in
  let w2 := drain (resolve 2 12 w1) in
  promises w1 !! 2 = Some (Pending [then_set 3]) /\
  (exists hs,
     trace w1 = trace (subscribe 3 two_subscriptions) ++
                map subscription_unsubscribe hs /\
     forall h', h' ∈ hs -> h' ∈ [10; 11]) /\
  JsMap.get 3 (subscriptions (topic w2)) = Some 12 /\
  unsubscribe_calls 12 (trace w2) = 0.
Proof.
  apply (unsubscribe_misses_pending two_subscriptions 3 None 12);
    [reflexivity|].
  intros Hin. apply elem_of_cons in Hin as [Hin|Hin]; [discriminate Hin|].
  apply list_elem_of_singleton in Hin. discriminate Hin.
Defined.

Lemma subscribe_rejected_never_registers_witness :
  let es := [Deliver "m1"; Unsubscribe None; Subscribe 2; Resolve 1 8; Tick;
             Deliver "m2"; Resolve 0 9; Tick; Deliver "m3"] in
  let w1 := reject 0 (subscribe 1 diagnostics) in
  let w2 := run es w1 in
  trace w1 = [createSubscription "/ns/diagnostics_agg" 1 0] /\
  promises w1 !! 0 = Some Rejected /\
  topic w1 = topic diagnostics /\
  JsMap.get 1 (subscriptions (topic w2)) = None /\
  (forall h, (h, 1) ∉ live w2) /\
  invocations 1 (trace w2) = [].
Proof.
  apply (subscribe_rejected_never_registers diagnostics 1);
    [reflexivity|apply unregistered_new_World|].
  intros Hin.
  repeat (apply elem_of_cons in Hin as [Hin|Hin]; [discriminate|]).
  by apply elem_of_nil in Hin.
Defined.

Lemma unsubscribe_unknown_noop_witness :
  unsubscribe (Some 3) two_subscriptions = two_subscriptions /\
  subscriptions (topic (unsubscribe (Some 3) two_subscriptions)) =
    [(1, 10); (2, 11)] /\
  trace (unsubscribe (Some 3) two_subscriptions) = trace two_subscriptions.
Proof. apply (unsubscribe_unknown_noop two_subscriptions 3). reflexivity. Defined.

(** * Further properties of the Topic *)

Section MoreProperties.
Context {TMessage : Type}.
Local Abbreviation World := (@World TMessage).
Local Abbreviation reaction := (@reaction TMessage).
Local Abbreviation call := (@call TMessage).
Local Abbreviation event := (@event TMessage).
Implicit Types (w : World) (p : promise_id) (h : handle) (cb : callback).
Implicit Types (m : JsMap.t callback handle).

Lemma set_publisher_same w : set_publisher (publisher (topic w)) w = w.
Proof. by destruct w as [[] ? ? ? ?]. Qed.

Lemma offline_step (e : event) w :
  rosImpl w = false -> publisher (topic w) = None ->
  needs_connection e = true -> step e w = w.
Proof.
  intros Himpl Hpub He. destruct e; try done; simpl.
  - unfold publish, advertise. rewrite Hpub, Himpl. cbv zeta. simpl.
    rewrite <- Hpub at 1. apply set_publisher_same.
  - unfold subscribe. by rewrite Himpl.
  - unfold advertise. rewrite Himpl, <- Hpub. apply set_publisher_same.
  - unfold unadvertise. by rewrite Hpub.
Qed.

(** X1. While the [Ros] object has no implementation and no publisher is
    stored, [publish], [subscribe], [advertise] and [unadvertise] change
    nothing at all: no request is made and nothing is kept for later. *)
Theorem offline_calls_are_dropped (es : list event) w :
  rosImpl w = false -> publisher (topic w) = None ->
  Forall (fun e => needs_connection e = true) es ->
  run es w = w.
Proof.
  intros Himpl Hpub Hes. induction Hes as [|e es He _ IH]; simpl; [done|].
  by rewrite offline_step.
Qed.

Lemma rejected_step (e : event) p w :
  publisher (topic w) = Some p -> promises w !! p = Some Rejected ->
  uses_publisher e = true -> step e w = w.
Proof.
  intros Hpub Hp He. destruct e; try done; simpl.
  - rewrite (publish_stored p) by done. unfold then_. by rewrite Hp.
  - rewrite (unadvertise_stored p) by done. unfold then_. by rewrite Hp.
Qed.

(** X2. Once the connection has rejected the stored [createPublisher]
    request, the rejected promise stays stored: [publish] neither forwards
    nor requests a publisher again, and [unadvertise] does not clear the
    field. *)
Theorem rejected_publisher_is_kept (es : list event) p w :
  publisher (topic w) = Some p -> promises w !! p = Some Rejected ->
  Forall (fun e => uses_publisher e = true) es ->
  run es w = w.
Proof.
  intros Hpub Hp Hes. induction Hes as [|e es He _ IH]; simpl; [done|].
  by rewrite (rejected_step e p).
Qed.

Lemma publish_all_fulfilled (ms : list TMessage) p h w :
  publisher (topic w) = Some p -> promises w !! p = Some (Fulfilled h) ->
  publish_all ms w =
  set_jobs (jobs w ++ map (fun msg => (then_publish msg, h)) ms) w.
Proof.
  revert w. induction ms as [|msg ms IH]; intros w Hpub Hp; simpl.
  - rewrite app_nil_r. by destruct w.
  - rewrite (publish_stored p), (then_fulfilled p h) by done.
    rewrite IH by done. unfold set_jobs. simpl. by rewrite <- app_assoc.
Qed.

Lemma job_calls_forward h (ms : list TMessage) :
  flat_map job_calls (map (fun msg => (then_publish msg, h)) ms) =
  map (publisher_publish h) ms.
Proof. induction ms as [|msg ms IH]; simpl; [done|]. by rewrite IH. Qed.

(** X3. With a resolved publisher, [publish] requests nothing and queues one
    forward per message; when the queue runs the handle receives the
    messages in the order of the calls. *)
Theorem publish_resolved_order (ms : list TMessage) p h w :
  publisher (topic w) = Some p -> promises w !! p = Some (Fulfilled h) ->
  let w1 := publish_all ms w in
  trace w1 = trace w /\
  publisher (topic w1) = Some p /\
  trace (drain w1) =
    trace w ++ flat_map job_calls (jobs w) ++ map (publisher_publish h) ms /\
  forwarded h (trace (drain w1)) =
    forwarded h (trace w ++ flat_map job_calls (jobs w)) ++ ms.
Proof.
  intros Hpub Hp w1. subst w1. rewrite (publish_all_fulfilled ms p h) by done.
  split; [done|]. split; [done|].
  rewrite trace_drain. simpl. rewrite flat_map_app, job_calls_forward.
  split; [done|].
  by rewrite app_assoc, forwarded_app, forwarded_publish.
Qed.

Lemma insert_fresh_1 {A} (l : list A) (x y a : A) :
  <[length l := a]> (l ++ [x; y]) = l ++ [a; y].
Proof. induction l as [|c l IH]; simpl; [done|]. by rewrite IH. Qed.

(** X4. A message published after [unadvertise()] was called, but before the
    publisher resolved, is chained behind the teardown: the handle
    receives it after its own [unadvertise]. *)
Theorem publish_after_pending_unadvertise (m1 m2 : TMessage) p h
    (rs : list reaction) w :
  publisher (topic w) = Some p -> promises w !! p = Some (Pending rs) ->
  let w1 := publish m2 (unadvertise (publish m1 w)) in
  let w2 := drain (resolve p h w1) in
  promises w1 !! p =
    Some (Pending (rs ++ [then_publish m1; then_unadvertise; then_publish m2])) /\
  trace w1 = trace w /\
  trace w2 =
    trace w ++ flat_map job_calls (jobs w ++ map (fun r => (r, h)) rs) ++
    [publisher_publish h m1; publisher_unadvertise h; publisher_publish h m2] /\
  publisher (topic w2) = None.
Proof.
  intros Hpub Hp w1 w2.
  assert (Hlt : p < length (promises w)) by (by eapply lookup_lt_Some).
  assert (Hw1 : w1 = set_promises
            (<[p := Pending (rs ++ [then_publish m1; then_unadvertise;
                                    then_publish m2])]> (promises w)) w).
  { subst w1. rewrite (publish_stored p m1 w) by done.
    rewrite (then_pending p _ rs w) by done.
    rewrite (unadvertise_stored p) by done.
    rewrite (then_pending p _ (rs ++ [then_publish m1]))
      by (by apply list_lookup_insert_eq).
    rewrite (publish_stored p) by done.
    rewrite (then_pending p _ ((rs ++ [then_publish m1]) ++ [then_unadvertise])).
    - unfold set_promises. simpl.
      by rewrite !list_insert_insert_eq, <- !app_assoc.
    - simpl. rewrite list_insert_insert_eq. by apply list_lookup_insert_eq. }
  assert (Hp1 : promises w1 !! p =
            Some (Pending (rs ++ [then_publish m1; then_unadvertise;
                                  then_publish m2]))).
  { rewrite Hw1. simpl. by apply list_lookup_insert_eq. }
  split; [done|]. split; [by rewrite Hw1|]. subst w2.
  rewrite (resolve_pending _ _ _ _ Hp1), trace_drain, drain_run_jobs. simpl.
  rewrite Hw1. simpl. split.
  - rewrite !map_app, !flat_map_app. simpl. by rewrite <- !app_assoc.
  - rewrite map_app, app_assoc, run_jobs_app. simpl.
    unfold run_jobs. simpl. done.
Qed.

(** X5. An [advertise()] that follows an [unadvertise()] still under way is
    undone by it: when the first request resolves, the continuation of
    [unadvertise] empties the publisher field although it holds the second
    request by then.  The second promise stays pending and unreferenced,
    and the next [publish] makes a third request. *)
Theorem stale_unadvertise_drops_new_publisher w h (msg : TMessage) :
  rosImpl w = true -> jobs w = [] ->
  let p1 := length (promises w) in
  let nm := name (topic w) in
  let ty := messageType (topic w) in
  let w1 := advertise (unadvertise (advertise w)) in
  let w2 := drain (resolve p1 h w1) in
  publisher (topic w1) = Some (S p1) /\
  publisher (topic w2) = None /\
  promises w2 !! S p1 = Some (Pending []) /\
  trace w2 = trace w ++ [createPublisher nm ty p1; createPublisher nm ty (S p1);
                         publisher_unadvertise h] /\
  trace (publish msg w2) = trace w2 ++ [createPublisher nm ty (S (S p1))].
Proof.
  intros Himpl Hjobs p1 nm ty w1 w2.
  assert (Hw1 : w1 =
    {| topic := {| name := nm; messageType := ty; publisher := Some (S p1);
                   subscriptions := subscriptions (topic w) |};
       rosImpl := rosImpl w;
       promises := promises w ++ [Pending [then_unadvertise]; Pending []];
       jobs := [];
       trace := trace w ++ [createPublisher nm ty p1;
                            createPublisher nm ty (S p1)] |}).
  { subst w1 p1 nm ty. rewrite (advertise_spec w) by done.
    rewrite (unadvertise_stored (length (promises w))) by done.
    rewrite (then_pending _ _ []) by apply lookup_fresh.
    rewrite advertise_spec by done. simpl.
    rewrite insert_fresh, length_app, Hjobs, <- !app_assoc. simpl.
    by rewrite Nat.add_1_r. }
  assert (Hw2 : w2 =
    {| topic := {| name := nm; messageType := ty; publisher := None;
                   subscriptions := subscriptions (topic w) |};
       rosImpl := rosImpl w;
       promises := promises w ++ [Fulfilled h; Pending []];
       jobs := [];
       trace := trace w ++ [createPublisher nm ty p1;
                            createPublisher nm ty (S p1);
                            publisher_unadvertise h] |}).
  { subst w2. rewrite Hw1. subst p1.
    rewrite (resolve_pending _ _ [then_unadvertise]) by apply lookup_fresh_1.
    rewrite drain_run_jobs. simpl. unfold set_publisher, emit. simpl.
    by rewrite <- app_assoc, insert_fresh_1. }
  split; [by rewrite Hw1|]. split; [by rewrite Hw2|].
  split; [rewrite Hw2; apply lookup_fresh_2|]. split; [by rewrite Hw2|].
  rewrite Hw2. unfold publish. simpl. rewrite advertise_spec by done. simpl.
  rewrite length_app. simpl.
  replace (length (promises w) + 2) with (S (S p1)) by (subst p1; lia).
  unfold then_. simpl. by repeat case_match.
Qed.

Lemma delete_delete cb m : JsMap.delete cb (JsMap.delete cb m) = JsMap.delete cb m.
Proof. apply delete_absent, get_delete_eq. Qed.

Lemma delete_set_absent cb h m :
  JsMap.get cb m = None -> JsMap.delete cb (JsMap.set cb h m) = m.
Proof.
  induction m as [|[k v] m IH]; simpl.
  - by rewrite decide_True.
  - destruct (decide (k = cb)) as [->|Hk]; [done|].
    intros Hget. simpl. rewrite decide_False by done. by rewrite IH.
Qed.

(** X6. [unsubscribe(cb)] for a subscribed callback calls [unsubscribe] once,
    on the handle stored for [cb], removes that entry and no other, and
    touches nothing else; calling it again changes nothing. *)
Theorem unsubscribe_known w cb h :
  JsMap.get cb (subscriptions (topic w)) = Some h ->
  let w' := unsubscribe (Some cb) w in
  trace w' = trace w ++ [subscription_unsubscribe h] /\
  JsMap.get cb (subscriptions (topic w')) = None /\
  (forall cb', cb' <> cb ->
     JsMap.get cb' (subscriptions (topic w')) =
     JsMap.get cb' (subscriptions (topic w))) /\
  publisher (topic w') = publisher (topic w) /\
  promises w' = promises w /\ jobs w' = jobs w /\
  unsubscribe (Some cb) w' = w'.
Proof.
  intros Hget w'. subst w'. unfold unsubscribe at 1 2 3 4 5 6. rewrite Hget.
  simpl. split_and!; try done.
  - apply get_delete_eq.
  - intros cb' Hne. by apply get_delete_ne.
  - unfold unsubscribe. simpl. rewrite get_delete_eq. simpl.
    unfold set_subscriptions. simpl. by rewrite delete_delete.
Qed.

(** After [unsubscribe()] the map is empty, so any further [unsubscribe],
    with or without a callback, changes nothing and calls no handle. *)
Theorem unsubscribe_after_unsubscribe_all (ocb : option callback) w :
  unsubscribe ocb (unsubscribe None w) = unsubscribe None w.
Proof.
  unfold unsubscribe at 2 3. rewrite foldl_emit. simpl.
  destruct ocb as [cb|]; unfold unsubscribe, set_subscriptions, JsMap.clear; simpl.
  - done.
  - done.
Qed.

(** X7. Subscribing, once the request has resolved, and unsubscribing the
    same callback brings the Topic back to where it was: the map is the
    one before [subscribe], and the request and one [unsubscribe] on its
    handle are all that reached the connection. *)
Theorem subscribe_unsubscribe_roundtrip w cb h :
  rosImpl w = true -> jobs w = [] ->
  JsMap.get cb (subscriptions (topic w)) = None ->
  let p := length (promises w) in
  let w1 := drain (resolve p h (subscribe cb w)) in
  let w2 := unsubscribe (Some cb) w1 in
  JsMap.get cb (subscriptions (topic w1)) = Some h /\
  topic w2 = topic w /\
  jobs w2 = [] /\
  trace w2 = trace w ++ [createSubscription (name (topic w)) cb p;
                         subscription_unsubscribe h].
Proof.
  intros Himpl Hjobs Hget p w1 w2.
  assert (Hw1 : w1 =
    {| topic := {| name := name (topic w); messageType := messageType (topic w);
                   publisher := publisher (topic w);
                   subscriptions := JsMap.set cb h (subscriptions (topic w)) |};
       rosImpl := rosImpl w; promises := promises w ++ [Fulfilled h];
       jobs := [];
       trace := trace w ++ [createSubscription (name (topic w)) cb p] |}).
  { subst w1 p. rewrite subscribe_spec by done.
    rewrite (resolve_pending _ _ [then_set cb]) by apply lookup_fresh.
    rewrite drain_run_jobs. simpl. rewrite Hjobs. simpl.
    unfold set_subscriptions. simpl. by rewrite insert_fresh. }
  subst w2. rewrite Hw1. unfold unsubscribe. simpl. rewrite get_set_eq. simpl.
  split; [done|]. rewrite delete_set_absent by done.
  split; [by destruct w as [[] ? ? ? ?]|]. split; [done|].
  by rewrite <- app_assoc.
Qed.

Lemma subscription_requests_app (tr1 tr2 : list call) :
  subscription_requests (tr1 ++ tr2) =
  subscription_requests tr1 + subscription_requests tr2.
Proof. unfold subscription_requests. by rewrite omap_app, length_app. Qed.

(** X8. [subscribe] never deduplicates and never touches the map itself:
    every call, also for a callback subscribed or requested already,
    issues a [createSubscription] request with a promise of its own and
    leaves the Topic's fields as they are. *)
Theorem subscribe_requests_each_time (cbs : list callback) w :
  rosImpl w = true ->
  let w' := foldl (fun w0 cb => subscribe cb w0) w cbs in
  subscription_requests (trace w') =
    subscription_requests (trace w) + length cbs /\
  promises w' = promises w ++ map (fun cb => Pending [then_set cb]) cbs /\
  topic w' = topic w /\ jobs w' = jobs w.
Proof.
  revert w. induction cbs as [|cb cbs IH]; intros w Himpl; simpl.
  - rewrite app_nil_r. split_and!; [lia|done..].
  - destruct (IH (subscribe cb w)) as (Hreq & Hps & Htopic & Hjobs).
    { by rewrite subscribe_spec. }
    rewrite Hreq, Hps, Htopic, Hjobs, subscribe_spec by done. simpl.
    rewrite subscription_requests_app, <- app_assoc. simpl.
    split_and!; [|done..]. unfold subscription_requests at 2. simpl. lia.
Qed.

(** ** Provenance *)

Lemma publisher_request_app (tr cs : list call) p :
  publisher_request tr p -> publisher_request (tr ++ cs) p.
Proof. intros (nm & ty & Hin). exists nm, ty. apply elem_of_app. by left. Qed.

Lemma subscription_request_app (tr cs : list call) cb p :
  subscription_request tr cb p -> subscription_request (tr ++ cs) cb p.
Proof. intros (nm & Hin). exists nm. apply elem_of_app. by left. Qed.

Lemma reaction_origin_app (tr cs : list call) p (r : reaction) :
  reaction_origin tr p r -> reaction_origin (tr ++ cs) p r.
Proof.
  destruct r; simpl;
    [apply publisher_request_app..|apply subscription_request_app].
Qed.

Lemma last_publisher_request_in (tr : list call) p :
  last_publisher_request tr = Some p -> publisher_request tr p.
Proof.
  unfold last_publisher_request. intros Hlast.
  assert (Hin : p ∈ omap (fun c : call => match c with
                                          | createPublisher _ _ p => Some p
                                          | _ => None
                                          end) tr).
  { apply last_Some in Hlast as [l ->]. apply elem_of_app. right. by left. }
  apply list_elem_of_omap in Hin as (c & Hin & Hc).
  destruct c as [nm ty p'| | | | |]; try done. simplify_eq. by exists nm, ty.
Qed.

Lemma last_publisher_request_app (tr cs : list call) :
  last_publisher_request (tr ++ cs) =
  match last_publisher_request cs with
  | Some p => Some p
  | None => last_publisher_request tr
  end.
Proof.
  unfold last_publisher_request. rewrite omap_app.
  generalize (omap (fun c : call => match c with
                                    | createPublisher _ _ p => Some p
                                    | _ => None
                                    end) cs). intros l.
  destruct l as [|x l _] using rev_ind.
  - by rewrite app_nil_r.
  - by rewrite app_assoc, !last_snoc.
Qed.

Lemma request_ids_app (tr cs : list call) :
  request_ids (tr ++ cs) = request_ids tr ++ request_ids cs.
Proof. apply omap_app. Qed.

(** What is left to check after a step that appends [cs] to the trace,
    keeps the names and keeps the fulfilled promises: the old calls stay
    legitimate by themselves. *)
Lemma consistent_intro w w' (cs : list call) :
  consistent w ->
  trace w' = trace w ++ cs ->
  name (topic w') = name (topic w) ->
  messageType (topic w') = messageType (topic w) ->
  (forall p h, promises w !! p = Some (Fulfilled h) ->
               promises w' !! p = Some (Fulfilled h)) ->
  request_ids (trace w') = seq 0 (length (promises w')) ->
  (forall p rs r, promises w' !! p = Some (Pending rs) -> r ∈ rs ->
                  reaction_origin (trace w') p r) ->
  (forall r h, (r, h) ∈ jobs w' ->
     exists p, promises w' !! p = Some (Fulfilled h) /\
               reaction_origin (trace w') p r) ->
  (forall cb h, (cb, h) ∈ subscriptions (topic w') ->
     exists p, promises w' !! p = Some (Fulfilled h) /\
               subscription_request (trace w') cb p) ->
  (forall p, publisher (topic w') = Some p ->
             last_publisher_request (trace w') = Some p) ->
  NoDup (JsMap.keys (subscriptions (topic w'))) ->
  (forall c, c ∈ cs -> handle_obtained w' c /\ request_named (topic w') c) ->
  consistent w'.
Proof.
  intros Hw Htr Hnm Hty Hful Hids Hpend Hjobs Hsubs Hpub Hkeys Hcs.
  split; [exact Hids|exact Hpend|exact Hjobs|exact Hsubs|exact Hpub|
          |exact Hkeys|].
  - intros c Hin. rewrite Htr in Hin. apply elem_of_app in Hin as [Hin|Hin];
      [|by apply Hcs].
    pose proof (cons_calls w Hw c Hin) as Hc.
    destruct c as [| |h ?|h|h|]; simpl in *; try done.
    + destruct Hc as (p & Hp & Hreq). exists p. split; [by apply Hful|].
      rewrite Htr. by apply publisher_request_app.
    + destruct Hc as (p & Hp & Hreq). exists p. split; [by apply Hful|].
      rewrite Htr. by apply publisher_request_app.
    + destruct Hc as (p & cb & Hp & Hreq). exists p, cb.
      split; [by apply Hful|]. rewrite Htr. by apply subscription_request_app.
  - intros c Hin. rewrite Htr in Hin. apply elem_of_app in Hin as [Hin|Hin];
      [|by apply Hcs].
    pose proof (cons_names w Hw c Hin) as Hc.
    destruct c; simpl in *; try done; by rewrite Hnm, ?Hty.
Qed.

Lemma consistent_new_World impl nm ty : consistent (@new_World TMessage impl nm ty).
Proof.
  split; simpl.
  - done.
  - intros p rs r Hp. by rewrite lookup_nil in Hp.
  - intros r h Hin. by apply elem_of_nil in Hin.
  - intros cb h Hin. by apply elem_of_nil in Hin.
  - done.
  - intros c Hin. by apply elem_of_nil in Hin.
  - apply NoDup_nil_2.
  - intros c Hin. by apply elem_of_nil in Hin.
Qed.

Lemma fulfilled_insert (l : list (@promise_state TMessage)) p
    (rs : list reaction) st p' h :
  l !! p = Some (Pending rs) -> l !! p' = Some (Fulfilled h) ->
  <[p := st]> l !! p' = Some (Fulfilled h).
Proof. intros Hp Hp'. rewrite list_lookup_insert_ne; [done|]. congruence. Qed.

Lemma consistent_then p (r : reaction) w :
  consistent w -> reaction_origin (trace w) p r -> consistent (then_ p r w).
Proof.
  intros Hw Hr. unfold then_.
  destruct (promises w !! p) as [[rs|h| ]|] eqn:Hp; try done.
  - apply (consistent_intro w _ []); simpl; try done.
    + by rewrite app_nil_r.
    + intros p' h'. by apply fulfilled_insert with rs.
    + rewrite length_insert. apply (cons_ids w Hw).
    + intros p' rs' r' Hp' Hin.
      apply list_lookup_insert_Some in Hp' as [(-> & [= <-] & _)|[_ Hp']].
      * apply elem_of_app in Hin as [Hin|Hin%list_elem_of_singleton].
        -- by apply (cons_pending w Hw p' rs).
        -- by subst.
      * by apply (cons_pending w Hw p' rs').
    + intros r' h' Hin. destruct (cons_jobs w Hw r' h' Hin) as (p' & Hp' & Ho).
      exists p'. split; [by apply fulfilled_insert with rs|done].
    + intros cb h' Hin. destruct (cons_subs w Hw cb h' Hin) as (p' & Hp' & Ho).
      exists p'. split; [by apply fulfilled_insert with rs|done].
    + apply (cons_publisher w Hw).
    + apply (cons_keys w Hw).
    + intros c Hin. by apply elem_of_nil in Hin.
  - apply (consistent_intro w _ []); simpl; try done.
    + by rewrite app_nil_r.
    + apply (cons_ids w Hw).
    + apply (cons_pending w Hw).
    + intros r' h' [Hin|Hin%list_elem_of_singleton]%elem_of_app.
      * by apply (cons_jobs w Hw).
      * simplify_eq. by exists p.
    + apply (cons_subs w Hw).
    + apply (cons_publisher w Hw).
    + apply (cons_keys w Hw).
    + intros c Hin. by apply elem_of_nil in Hin.
Qed.

Lemma consistent_resolve p h w : consistent w -> consistent (resolve p h w).
Proof.
  intros Hw. unfold resolve.
  destruct (promises w !! p) as [[rs|h'| ]|] eqn:Hp; try done.
  assert (Hlt : p < length (promises w)) by (by eapply lookup_lt_Some).
  apply (consistent_intro w _ []); simpl; try done.
  - by rewrite app_nil_r.
  - intros p' h'. by apply fulfilled_insert with rs.
  - rewrite length_insert. apply (cons_ids w Hw).
  - intros p' rs' r' Hp' Hin.
    apply list_lookup_insert_Some in Hp' as [(_ & [=] & _)|[_ Hp']].
    by apply (cons_pending w Hw p' rs').
  - intros r' h' [Hin|Hin]%elem_of_app.
    + destruct (cons_jobs w Hw r' h' Hin) as (p' & Hp' & Ho).
      exists p'. split; [by apply fulfilled_insert with rs|done].
    + apply list_elem_of_fmap in Hin as (r0 & [= -> ->] & Hin).
      exists p. split; [by apply list_lookup_insert_eq|].
      by apply (cons_pending w Hw p rs).
  - intros cb h' Hin. destruct (cons_subs w Hw cb h' Hin) as (p' & Hp' & Ho).
    exists p'. split; [by apply fulfilled_insert with rs|done].
  - apply (cons_publisher w Hw).
  - apply (cons_keys w Hw).
  - intros c Hin. by apply elem_of_nil in Hin.
Qed.

Lemma consistent_reject p w : consistent w -> consistent (reject p w).
Proof.
  intros Hw. unfold reject.
  destruct (promises w !! p) as [[rs|h'| ]|] eqn:Hp; try done.
  apply (consistent_intro w _ []); simpl; try done.
  - by rewrite app_nil_r.
  - intros p' h'. by apply fulfilled_insert with rs.
  - rewrite length_insert. apply (cons_ids w Hw).
  - intros p' rs' r' Hp' Hin.
    apply list_lookup_insert_Some in Hp' as [(_ & [=] & _)|[_ Hp']].
    by apply (cons_pending w Hw p' rs').
  - intros r' h' Hin. destruct (cons_jobs w Hw r' h' Hin) as (p' & Hp' & Ho).
    exists p'. split; [by apply fulfilled_insert with rs|done].
  - intros cb h' Hin. destruct (cons_subs w Hw cb h' Hin) as (p' & Hp' & Ho).
    exists p'. split; [by apply fulfilled_insert with rs|done].
  - apply (cons_publisher w Hw).
  - apply (cons_keys w Hw).
  - intros c Hin. by apply elem_of_nil in Hin.
Qed.

Lemma handle_obtained_mono w w' (cs : list call) (c : call) :
  trace w' = trace w ++ cs ->
  (forall p h, promises w !! p = Some (Fulfilled h) ->
               promises w' !! p = Some (Fulfilled h)) ->
  handle_obtained w c -> handle_obtained w' c.
Proof.
  intros Htr Hful Hc. destruct c as [| |h ?|h|h|]; simpl in *; try done.
  - destruct Hc as (p & Hp & Hreq). exists p. split; [by apply Hful|].
    rewrite Htr. by apply publisher_request_app.
  - destruct Hc as (p & Hp & Hreq). exists p. split; [by apply Hful|].
    rewrite Htr. by apply publisher_request_app.
  - destruct Hc as (p & cb & Hp & Hreq). exists p, cb.
    split; [by apply Hful|]. rewrite Htr. by apply subscription_request_app.
Qed.

(** The same for a step that leaves the promises alone and makes no
    request. *)
Lemma consistent_intro_same w w' (cs : list call) :
  consistent w ->
  trace w' = trace w ++ cs ->
  promises w' = promises w ->
  name (topic w') = name (topic w) ->
  messageType (topic w') = messageType (topic w) ->
  (forall r h, (r, h) ∈ jobs w' -> (r, h) ∈ jobs w) ->
  (forall cb h, (cb, h) ∈ subscriptions (topic w') ->
     (cb, h) ∈ subscriptions (topic w) \/
     exists p, promises w !! p = Some (Fulfilled h) /\
               subscription_request (trace w) cb p) ->
  request_ids cs = [] ->
  publisher (topic w') = None \/ publisher (topic w') = publisher (topic w) ->
  NoDup (JsMap.keys (subscriptions (topic w'))) ->
  (forall c, c ∈ cs -> handle_obtained w c /\ request_named (topic w) c) ->
  consistent w'.
Proof.
  intros Hw Htr Hps Hnm Hty Hjobs Hsubs Hids Hpub Hkeys Hcs.
  assert (Hful : forall p h, promises w !! p = Some (Fulfilled h) ->
                             promises w' !! p = Some (Fulfilled h)).
  { intros p h. by rewrite Hps. }
  apply (consistent_intro w w' cs); try done.
  - rewrite Htr, request_ids_app, Hids, app_nil_r, Hps. apply (cons_ids w Hw).
  - intros p rs r Hp Hin. rewrite Hps in Hp. rewrite Htr.
    by apply reaction_origin_app, (cons_pending w Hw p rs).
  - intros r h Hin. destruct (cons_jobs w Hw r h (Hjobs r h Hin)) as (p & Hp & Ho).
    exists p. split; [by apply Hful|]. rewrite Htr. by apply reaction_origin_app.
  - intros cb h Hin. rewrite Htr.
    destruct (Hsubs cb h Hin) as [Hin'|(p & Hp & Ho)].
    + destruct (cons_subs w Hw cb h Hin') as (p & Hp & Ho).
      exists p. split; [by apply Hful|]. by apply subscription_request_app.
    + exists p. split; [by apply Hful|]. by apply subscription_request_app.
  - intros p Hp. destruct Hpub as [Hpub|Hpub]; [congruence|].
    rewrite Hpub in Hp. rewrite Htr, last_publisher_request_app.
    assert (Hnone : last_publisher_request cs = None).
    { unfold last_publisher_request.
      assert (Hnil : omap (fun c : call => match c with
                                           | createPublisher _ _ p => Some p
                                           | _ => None
                                           end) cs = []); [|by rewrite Hnil].
      clear -Hids. induction cs as [|c cs IH]; [done|].
      unfold request_ids in *. cbn [omap list_omap] in *.
      destruct c; simpl in *; try done; by apply IH. }
    rewrite Hnone. by apply (cons_publisher w Hw).
  - intros c Hin. destruct (Hcs c Hin) as [Hc Hn]. split.
    + by eapply handle_obtained_mono.
    + destruct c; simpl in *; try done; by rewrite Hnm, ?Hty.
Qed.

Lemma elem_of_set cb h cb' h' m :
  (cb', h') ∈ JsMap.set cb h m -> (cb', h') = (cb, h) \/ (cb', h') ∈ m.
Proof.
  induction m as [|[k v] m IH]; simpl.
  - intros Hin%list_elem_of_singleton. by left.
  - destruct (decide (k = cb)) as [->|Hk]; intros [->|Hin]%elem_of_cons.
    + by left.
    + right. by apply elem_of_cons; right.
    + right. by apply elem_of_cons; left.
    + destruct (IH Hin) as [->|Hm]; [by left|]. right. by apply elem_of_cons; right.
Qed.

Lemma keys_set cb h m k :
  k ∈ JsMap.keys (JsMap.set cb h m) -> k = cb \/ k ∈ JsMap.keys m.
Proof.
  unfold JsMap.keys. induction m as [|[k' v] m IH]; simpl.
  - intros Hin%list_elem_of_singleton. by left.
  - destruct (decide (k' = cb)) as [->|Hk]; simpl; intros [->|Hin]%elem_of_cons.
    + by left.
    + right. by apply elem_of_cons; right.
    + right. by apply elem_of_cons; left.
    + destruct (IH Hin) as [->|Hm]; [by left|]. right. by apply elem_of_cons; right.
Qed.

Lemma NoDup_keys_set cb h m :
  NoDup (JsMap.keys m) -> NoDup (JsMap.keys (JsMap.set cb h m)).
Proof.
  unfold JsMap.keys. induction m as [|[k v] m IH]; simpl.
  - intros _. apply NoDup_singleton.
  - intros [Hnin Hnd]%NoDup_cons. destruct (decide (k = cb)) as [->|Hk]; simpl.
    + by apply NoDup_cons.
    + apply NoDup_cons. split; [|by apply IH].
      intros [->|Hin]%(keys_set cb h m k); done.
Qed.

Lemma elem_of_delete cb cb' h' m :
  (cb', h') ∈ JsMap.delete cb m -> (cb', h') ∈ m.
Proof.
  induction m as [|[k v] m IH]; simpl; [done|].
  destruct (decide (k = cb)) as [->|Hk].
  - intros Hin. apply elem_of_cons; right. by apply IH.
  - intros [->|Hin]%elem_of_cons; apply elem_of_cons; [by left|right; by apply IH].
Qed.

Lemma NoDup_keys_delete cb m :
  NoDup (JsMap.keys m) -> NoDup (JsMap.keys (JsMap.delete cb m)).
Proof.
  unfold JsMap.keys. induction m as [|[k v] m IH]; simpl; [done|].
  intros [Hnin Hnd]%NoDup_cons. destruct (decide (k = cb)) as [->|Hk]; simpl.
  - by apply IH.
  - apply NoDup_cons. split; [|by apply IH].
    intros Hin. apply Hnin. apply list_elem_of_fmap in Hin as ([k' v'] & -> & Hin).
    apply list_elem_of_fmap. exists (k', v'). split; [done|].
    by eapply elem_of_delete.
Qed.

Lemma get_elem_of cb h m : JsMap.get cb m = Some h -> (cb, h) ∈ m.
Proof.
  induction m as [|[k v] m IH]; simpl; [done|].
  destruct (decide (k = cb)) as [->|Hk].
  - intros [= ->]. by left.
  - intros Hget. right. by apply IH.
Qed.

Lemma consistent_tick w : consistent w -> consistent (tick w).
Proof.
  intros Hw. unfold tick. destruct (jobs w) as [|[r h] js] eqn:Hjobs; [done|].
  assert (Hjs : forall r' h', (r', h') ∈ js -> (r', h') ∈ jobs w).
  { intros r' h' Hin. rewrite Hjobs. by apply elem_of_cons; right. }
  destruct (cons_jobs w Hw r h) as (p & Hp & Ho).
  { rewrite Hjobs. by apply elem_of_cons; left. }
  destruct r as [msg| |cb]; simpl in Ho.
  - apply (consistent_intro_same w _ [publisher_publish h msg]); simpl; try done.
    + intros cb' h'. by left.
    + by right.
    + apply (cons_keys w Hw).
    + intros c ->%list_elem_of_singleton. split; [|done]. by exists p.
  - apply (consistent_intro_same w _ [publisher_unadvertise h]); simpl; try done.
    + intros cb' h'. by left.
    + by left.
    + apply (cons_keys w Hw).
    + intros c ->%list_elem_of_singleton. split; [|done]. by exists p.
  - apply (consistent_intro_same w _ []); simpl; try done.
    + by rewrite app_nil_r.
    + intros cb' h' [[= -> ->]|Hin]%elem_of_set; [right; by exists p|by left].
    + by right.
    + apply NoDup_keys_set, (cons_keys w Hw).
    + intros c Hin. by apply elem_of_nil in Hin.
Qed.

Lemma consistent_unsubscribe (ocb : option callback) w :
  consistent w -> consistent (unsubscribe ocb w).
Proof.
  intros Hw. destruct ocb as [cb|]; unfold unsubscribe.
  - destruct (JsMap.get cb (subscriptions (topic w))) as [h|] eqn:Hget.
    + apply (consistent_intro_same w _ [subscription_unsubscribe h]);
        simpl; try done.
      * intros cb' h' Hin. left. by eapply elem_of_delete.
      * by right.
      * apply NoDup_keys_delete, (cons_keys w Hw).
      * intros c ->%list_elem_of_singleton. split; [|done]. simpl.
        destruct (cons_subs w Hw cb h) as (p & Hp & Ho);
          [by apply get_elem_of|]. by exists p, cb.
    + apply (consistent_intro_same w _ []); simpl; try done.
      * by rewrite app_nil_r.
      * intros cb' h' Hin. left. by eapply elem_of_delete.
      * by right.
      * apply NoDup_keys_delete, (cons_keys w Hw).
      * intros c Hin. by apply elem_of_nil in Hin.
  - rewrite foldl_emit.
    apply (consistent_intro_same w _
             (map subscription_unsubscribe
                (JsMap.values (subscriptions (topic w))))); simpl; try done.
    + intros cb h Hin. by apply elem_of_nil in Hin.
    + unfold request_ids.
      induction (JsMap.values (subscriptions (topic w))) as [|h hs IH]; done.
    + by right.
    + apply NoDup_nil_2.
    + intros c Hin. apply list_elem_of_fmap in Hin as (h & -> & Hin).
      split; [|done]. simpl.
      apply list_elem_of_fmap in Hin as ([cb h'] & -> & Hin).
      destruct (cons_subs w Hw cb h' Hin) as (p & Hp & Ho). by exists p, cb.
Qed.

Lemma consistent_deliver (msg : TMessage) w :
  consistent w -> consistent (deliver msg w).
Proof.
  intros Hw. unfold deliver. rewrite foldl_emit.
  apply (consistent_intro_same w _
           (map (fun r => invoke (snd r) msg) (live w))); simpl; try done.
  - intros cb h. by left.
  - unfold request_ids. induction (live w) as [|r rs IH]; done.
  - by right.
  - apply (cons_keys w Hw).
  - intros c Hin. apply list_elem_of_fmap in Hin as (r & -> & _). done.
Qed.

Lemma consistent_set_publisher_None w :
  consistent w -> consistent (set_publisher None w).
Proof.
  intros Hw. apply (consistent_intro_same w _ []); simpl; try done.
  - by rewrite app_nil_r.
  - intros cb h. by left.
  - by left.
  - apply (cons_keys w Hw).
  - intros c Hin. by apply elem_of_nil in Hin.
Qed.

Lemma consistent_set_rosImpl (b : bool) w :
  consistent w -> consistent (set_rosImpl b w).
Proof.
  intros Hw. apply (consistent_intro_same w _ []); simpl; try done.
  - by rewrite app_nil_r.
  - intros cb h. by left.
  - by right.
  - apply (cons_keys w Hw).
  - intros c Hin. by apply elem_of_nil in Hin.
Qed.

Lemma consistent_advertise w : consistent w -> consistent (advertise w).
Proof.
  intros Hw. destruct (rosImpl w) eqn:Himpl.
  - rewrite advertise_spec by done.
    apply (consistent_intro w _
             [createPublisher (name (topic w)) (messageType (topic w))
                (length (promises w))]); simpl; try done.
    + intros p h Hp. by apply lookup_app_l_Some.
    + rewrite request_ids_app, length_app, (cons_ids w Hw). simpl.
      by rewrite Nat.add_1_r, seq_S.
    + intros p rs r Hp Hin.
      apply lookup_app_Some in Hp as [Hp|[_ Hp]].
      * by apply reaction_origin_app, (cons_pending w Hw p rs).
      * apply list_lookup_singleton_Some in Hp as [_ [= <-]].
        by apply elem_of_nil in Hin.
    + intros r h Hin. destruct (cons_jobs w Hw r h Hin) as (p & Hp & Ho).
      exists p. split; [by apply lookup_app_l_Some|by apply reaction_origin_app].
    + intros cb h Hin. destruct (cons_subs w Hw cb h Hin) as (p & Hp & Ho).
      exists p.
      split; [by apply lookup_app_l_Some|by apply subscription_request_app].
    + intros p [= <-]. by rewrite last_publisher_request_app.
    + apply (cons_keys w Hw).
    + intros c ->%list_elem_of_singleton. done.
  - unfold advertise. rewrite Himpl. by apply consistent_set_publisher_None.
Qed.

Lemma consistent_subscribe cb w : consistent w -> consistent (subscribe cb w).
Proof.
  intros Hw. destruct (rosImpl w) eqn:Himpl.
  - rewrite subscribe_spec by done.
    apply (consistent_intro w _
             [createSubscription (name (topic w)) cb (length (promises w))]);
      simpl; try done.
    + intros p h Hp. by apply lookup_app_l_Some.
    + rewrite request_ids_app, length_app, (cons_ids w Hw). simpl.
      by rewrite Nat.add_1_r, seq_S.
    + intros p rs r Hp Hin.
      apply lookup_app_Some in Hp as [Hp|[Hle Hp]].
      * by apply reaction_origin_app, (cons_pending w Hw p rs).
      * apply list_lookup_singleton_Some in Hp as [Hp0 [= <-]].
        apply list_elem_of_singleton in Hin as ->. simpl.
        exists (name (topic w)). apply elem_of_app. right.
        replace p with (length (promises w)) by lia. by left.
    + intros r h Hin. destruct (cons_jobs w Hw r h Hin) as (p & Hp & Ho).
      exists p. split; [by apply lookup_app_l_Some|by apply reaction_origin_app].
    + intros cb' h Hin. destruct (cons_subs w Hw cb' h Hin) as (p & Hp & Ho).
      exists p.
      split; [by apply lookup_app_l_Some|by apply subscription_request_app].
    + intros p Hp. rewrite last_publisher_request_app. simpl.
      by apply (cons_publisher w Hw).
    + apply (cons_keys w Hw).
    + intros c ->%list_elem_of_singleton. done.
  - unfold subscribe. by rewrite Himpl.
Qed.

Lemma consistent_publish (msg : TMessage) w :
  consistent w -> consistent (publish msg w).
Proof.
  intros Hw. unfold publish.
  destruct (publisher (topic w)) as [p|] eqn:Hpub; cbv zeta.
  - rewrite Hpub. apply consistent_then; [done|]. simpl.
    by apply last_publisher_request_in, (cons_publisher w Hw).
  - pose proof (consistent_advertise w Hw) as Hadv.
    destruct (publisher (topic (advertise w))) as [p|] eqn:Hpub'; [|done].
    apply consistent_then; [done|]. simpl.
    by apply last_publisher_request_in, (cons_publisher _ Hadv).
Qed.

Lemma consistent_unadvertise w : consistent w -> consistent (unadvertise w).
Proof.
  intros Hw. unfold unadvertise.
  destruct (publisher (topic w)) as [p|] eqn:Hpub; [|done].
  apply consistent_then; [done|]. simpl.
  by apply last_publisher_request_in, (cons_publisher w Hw).
Qed.

Lemma consistent_step (e : event) w : consistent w -> consistent (step e w).
Proof.
  intros Hw. destruct e; simpl.
  - by apply consistent_publish.
  - by apply consistent_subscribe.
  - by apply consistent_unsubscribe.
  - by apply consistent_advertise.
  - by apply consistent_unadvertise.
  - by apply consistent_tick.
  - by apply consistent_resolve.
  - by apply consistent_reject.
  - by apply consistent_set_rosImpl.
  - by apply consistent_deliver.
Qed.

Lemma consistent_run (es : list event) w : consistent w -> consistent (run es w).
Proof.
  revert w. induction es as [|e es IH]; intros w Hw; simpl; [done|].
  by apply IH, consistent_step.
Qed.

Lemma name_run (es : list event) w :
  name (topic (run es w)) = name (topic w) /\
  messageType (topic (run es w)) = messageType (topic w).
Proof.
  revert w. induction es as [|e es IH]; intros w; simpl; [done|].
  destruct (IH (step e w)) as [-> ->]. apply name_step.
Qed.

Lemma consistent_reachable impl nm ty (es : list event) :
  consistent (run es (new_World impl nm ty)).
Proof. apply consistent_run, consistent_new_World. Qed.

(** X9. Whatever has happened to a Topic since its construction, the map
    holds at most one handle per callback, and the handle stored for a
    callback is the one with which the connection fulfilled a
    [createSubscription] request made, under the Topic's name, for that
    very callback. *)
Theorem stored_handles_come_from_requests impl nm ty (es : list event) cb h :
  let w := run es (new_World impl nm ty) in
  NoDup (JsMap.keys (subscriptions (topic w))) /\
  (JsMap.get cb (subscriptions (topic w)) = Some h ->
   exists p, createSubscription nm cb p ∈ trace w /\
             promises w !! p = Some (Fulfilled h)).
Proof.
  intros w. pose proof (consistent_reachable impl nm ty es) as Hw. fold w in Hw.
  split; [apply (cons_keys w Hw)|]. intros Hget.
  destruct (cons_subs w Hw cb h (get_elem_of _ _ _ Hget)) as (p & Hp & nm' & Hin).
  exists p. split; [|done].
  pose proof (cons_names w Hw _ Hin) as Hnm. simpl in Hnm.
  destruct (name_run es (new_World impl nm ty)) as [Hname _].
  fold w in Hname. simpl in Hname. by rewrite Hnm, Hname in Hin.
Qed.

(** X10. The stored publisher is always the promise of the most recent
    [createPublisher] request, a request made with the Topic's name and
    message type. *)
Theorem stored_publisher_is_latest_request impl nm ty (es : list event) p :
  let w := run es (new_World impl nm ty) in
  publisher (topic w) = Some p ->
  last_publisher_request (trace w) = Some p /\
  createPublisher nm ty p ∈ trace w /\
  is_Some (promises w !! p).
Proof.
  intros w Hpub. pose proof (consistent_reachable impl nm ty es) as Hw.
  fold w in Hw. pose proof (cons_publisher w Hw p Hpub) as Hlast.
  destruct (last_publisher_request_in _ _ Hlast) as (nm' & ty' & Hin).
  pose proof (cons_names w Hw _ Hin) as [Hnm Hty]. simpl in Hnm, Hty.
  destruct (name_run es (new_World impl nm ty)) as [Hname Htype].
  fold w in Hname, Htype. simpl in Hname, Htype.
  rewrite Hnm, Hty, Hname, Htype in Hin. split_and!; [done..|].
  apply lookup_lt_is_Some.
  assert (Hid : p ∈ request_ids (trace w)).
  { apply list_elem_of_omap. by exists (createPublisher nm ty p). }
  rewrite (cons_ids w Hw) in Hid. apply elem_of_seq in Hid. lia.
Qed.

(** X11. The Topic calls no handle it was not given: every [publish] and
    [unadvertise] on the trace is on a handle with which the connection
    fulfilled a [createPublisher] request, every [unsubscribe] on one with
    which it fulfilled a [createSubscription] request. *)
Theorem handle_calls_are_on_obtained_handles impl nm ty (es : list event) h :
  let w := run es (new_World impl nm ty) in
  ((exists msg, publisher_publish h msg ∈ trace w) \/
   publisher_unadvertise h ∈ trace w ->
   exists p, createPublisher nm ty p ∈ trace w /\
             promises w !! p = Some (Fulfilled h)) /\
  (subscription_unsubscribe h ∈ trace w ->
   exists p cb, createSubscription nm cb p ∈ trace w /\
                promises w !! p = Some (Fulfilled h)).
Proof.
  intros w. pose proof (consistent_reachable impl nm ty es) as Hw. fold w in Hw.
  destruct (name_run es (new_World impl nm ty)) as [Hname Htype].
  fold w in Hname, Htype. simpl in Hname, Htype.
  assert (Hpub : forall p, publisher_request (trace w) p ->
                           createPublisher nm ty p ∈ trace w).
  { intros p (nm' & ty' & Hin).
    pose proof (cons_names w Hw _ Hin) as [Hnm Hty]. simpl in Hnm, Hty.
    by rewrite Hnm, Hty, Hname, Htype in Hin. }
  split.
  - intros [[msg Hin]|Hin];
      destruct (cons_calls w Hw _ Hin) as (p & Hp & Hreq);
      exists p; (split; [by apply Hpub|done]).
  - intros Hin. destruct (cons_calls w Hw _ Hin) as (p & cb & Hp & nm' & Hreq).
    exists p, cb. split; [|done].
    pose proof (cons_names w Hw _ Hreq) as Hnm. simpl in Hnm.
    by rewrite Hnm, Hname in Hreq.
Qed.

(** X12. Every request the Topic makes carries its name, and for a publisher
    its message type. *)
Theorem requests_carry_name_and_type impl nm ty (es : list event) nm' ty' cb p :
  let w := run es (new_World impl nm ty) in
  (createPublisher nm' ty' p ∈ trace w -> nm' = nm /\ ty' = ty) /\
  (createSubscription nm' cb p ∈ trace w -> nm' = nm).
Proof.
  intros w. pose proof (consistent_reachable impl nm ty es) as Hw. fold w in Hw.
  destruct (name_run es (new_World impl nm ty)) as [Hname Htype].
  fold w in Hname, Htype. simpl in Hname, Htype.
  split; intros Hin; pose proof (cons_names w Hw _ Hin) as Hn; simpl in Hn.
  - destruct Hn as [-> ->]. done.
  - by rewrite Hn.
Qed.

End MoreProperties.

Lemma offline_calls_are_dropped_witness :
  let w := @new_World string false "/ns/diagnostics_agg"
             "diagnostic_msgs/DiagnosticArray" in
  run [Publish "m1"; Subscribe 1; Advertise; Unadvertise; Publish "m2"] w = w.
Proof.
  apply (offline_calls_are_dropped
           [Publish "m1"; Subscribe 1; Advertise; Unadvertise; Publish "m2"]);
    [reflexivity|reflexivity|repeat constructor].
Defined.

Lemma rejected_publisher_is_kept_witness :
  let w := reject 0 (advertise diagnostics) in
  run [Publish "m1"; Unadvertise; Publish "m2"] w = w.
Proof.
  apply (rejected_publisher_is_kept
           [Publish "m1"; Unadvertise; Publish "m2"] 0);
    [reflexivity|reflexivity|repeat constructor].
Defined.

Lemma publish_resolved_order_witness :
  let w1 := publish_all ["m1"; "m2"] advertised in
  trace w1 = trace advertised /\
  publisher (topic w1) = Some 0 /\
  trace (drain w1) =
    trace advertised ++ [publisher_publish 7 "m1"; publisher_publish 7 "m2"] /\
  forwarded 7 (trace (drain w1)) = ["m1"; "m2"].
Proof.
  apply (publish_resolved_order ["m1"; "m2"] 0 7 advertised); reflexivity.
Defined.

Lemma publish_after_pending_unadvertise_witness :
  let w := advertise diagnostics in
  let w1 := publish "m2" (unadvertise (publish "m1" w)) in
  let w2 := drain (resolve 0 7 w1) in
  promises w1 !! 0 =
    Some (Pending [then_publish "m1"; then_unadvertise; then_publish "m2"]) /\
  trace w1 = trace w /\
  trace w2 =
    trace w ++ [publisher_publish 7 "m1"; publisher_unadvertise 7;
                publisher_publish 7 "m2"] /\
  publisher (topic w2) = None.
Proof.
  apply (publish_after_pending_unadvertise "m1" "m2" 0 7 []
           (advertise diagnostics)); reflexivity.
Defined.

Lemma stale_unadvertise_drops_new_publisher_witness :
  let w1 := advertise (unadvertise (advertise diagnostics)) in
  let w2 := drain (resolve 0 7 w1) in
  publisher (topic w1) = Some 1 /\
  publisher (topic w2) = None /\
  promises w2 !! 1 = Some (Pending []) /\
  trace w2 =
    [createPublisher "/ns/diagnostics_agg" "diagnostic_msgs/DiagnosticArray" 0;
     createPublisher "/ns/diagnostics_agg" "diagnostic_msgs/DiagnosticArray" 1;
     publisher_unadvertise 7] /\
  trace (publish "m" w2) =
    trace w2 ++
    [createPublisher "/ns/diagnostics_agg" "diagnostic_msgs/DiagnosticArray" 2].
Proof.
  apply (stale_unadvertise_drops_new_publisher diagnostics 7 "m"); reflexivity.
Defined.

Lemma unsubscribe_known_witness :
  let w' := unsubscribe (Some 1) two_subscriptions in
  trace w' = trace two_subscriptions ++ [subscription_unsubscribe 10] /\
  JsMap.get 1 (subscriptions (topic w')) = None /\
  (forall cb', cb' <> 1 ->
     JsMap.get cb' (subscriptions (topic w')) =
     JsMap.get cb' (subscriptions (topic two_subscriptions))) /\
  publisher (topic w') = publisher (topic two_subscriptions) /\
  promises w' = promises two_subscriptions /\
  jobs w' = jobs two_subscriptions /\
  unsubscribe (Some 1) w' = w'.
Proof. apply (unsubscribe_known two_subscriptions 1 10). reflexivity. Defined.

Lemma subscribe_unsubscribe_roundtrip_witness :
  let w1 := drain (resolve 2 12 (subscribe 3 two_subscriptions)) in
  let w2 := unsubscribe (Some 3) w1 in
  JsMap.get 3 (subscriptions (topic w1)) = Some 12 /\
  topic w2 = topic two_subscriptions /\
  jobs w2 = [] /\
  trace w2 = trace two_subscriptions ++
             [createSubscription "/ns/diagnostics_agg" 3 2;
              subscription_unsubscribe 12].
Proof.
  apply (subscribe_unsubscribe_roundtrip two_subscriptions 3 12); reflexivity.
Defined.

Lemma subscribe_requests_each_time_witness :
  let w' := foldl (fun w0 cb => subscribe cb w0) diagnostics [1; 1; 2] in
  subscription_requests (trace w') = 3 /\
  promises w' = [Pending [then_set 1]; Pending [then_set 1]; Pending [then_set 2]] /\
  topic w' = topic diagnostics /\ jobs w' = [].
Proof. apply (subscribe_requests_each_time [1; 1; 2] diagnostics). reflexivity. Defined.

Lemma stored_publisher_is_latest_request_witness :
  let w := run [Advertise; Publish "m"; Advertise]
             (@new_World string true "/t" "T") in
  last_publisher_request (trace w) = Some 1 /\
  createPublisher "/t" "T" 1 ∈ trace w /\
  is_Some (promises w !! 1).
Proof.
  apply (stored_publisher_is_latest_request true "/t" "T"
           [Advertise; Publish "m"; Advertise] 1). reflexivity.
Defined.

(** * Properties of the application *)

Section AppProperties.
Import App.
Implicit Types (s t : jsstring) (re : list term) (c : code_unit).

(** ** The regular expressions *)

Lemma longestFirst_Some {A} (k : nat -> option A) lo n (r : A) :
  longestFirst k lo n = Some r -> exists m, lo <= m <= n /\ k m = Some r.
Proof.
  induction n as [|n IH]; simpl.
  - case_decide; [done|]. destruct (k 0) eqn:Hk; [|done].
    intros [= ->]. exists 0. split; [lia|done].
  - case_decide; [done|]. destruct (k (S n)) eqn:Hk.
    + intros [= ->]. exists (S n). split; [lia|done].
    + intros (m & Hm & Hkm)%IH. exists m. split; [lia|done].
Qed.

Lemma longestFirst_first {A} (k : nat -> option A) lo n (r : A) :
  lo <= n -> k n = Some r -> longestFirst k lo n = Some r.
Proof.
  intros Hlo Hk. destruct n; simpl; (case_decide; [lia|]); by rewrite Hk.
Qed.

Lemma runLength_le cls s : runLength cls s <= length s.
Proof. induction s as [|c s IH]; simpl; [lia|]. destruct (cls c); lia. Qed.

Lemma runLength_take cls s n :
  n <= runLength cls s -> Forall (fun c => cls c = true) (take n s).
Proof.
  revert n. induction s as [|c s IH]; intros n; simpl.
  - intros Hn. by rewrite take_nil.
  - destruct n as [|n]; [intros _; constructor|].
    destruct (cls c) eqn:Hc; intros Hn; [|lia].
    simpl. constructor; [done|]. apply IH. lia.
Qed.

Lemma runLength_app cls s t :
  Forall (fun c => cls c = true) s ->
  runLength cls (s ++ t) = length s + runLength cls t.
Proof. induction 1 as [|c s Hc _ IH]; simpl; [done|]. by rewrite Hc, IH. Qed.

Lemma runLength_stop cls t :
  match t with [] => True | c :: _ => cls c = false end -> runLength cls t = 0.
Proof. destruct t as [|c t]; simpl; [done|]. by intros ->. Qed.

(** A capture, when it does not come from outside, is a non-empty run of
    the class of a group of the pattern. *)
Lemma matchFrom_capture re s i cap e cp :
  (forall cls, CapturePlus cls ∈ re -> cls = notSpace) ->
  matchFrom re s i cap = Some (e, Some cp) ->
  cap = Some cp \/ (cp <> [] /\ Forall (fun c => notSpace c = true) cp).
Proof.
  revert i cap. induction re as [|tm re IH]; intros i cap Hre; simpl.
  - intros [= -> ->]. by left.
  - assert (Hre' : forall cls, CapturePlus cls ∈ re -> cls = notSpace).
    { intros cls Hin. apply Hre. by right. }
    destruct tm as [|c|cls|cls].
    + case_match; [by apply IH|done].
    + destruct (s !! i); [|done]. case_bool_decide; [by apply IH|done].
    + intros (m & _ & Hm)%longestFirst_Some. by apply IH in Hm.
    + assert (Hcls : cls = notSpace) by (apply Hre; by left). subst cls.
      intros (m & Hle & Hm)%longestFirst_Some.
      apply IH in Hm as [[= <-]|Hm]; [|by right|done].
      right. split.
      * intros Hnil%(f_equal length). rewrite length_take in Hnil.
        simpl in Hnil. pose proof (runLength_le notSpace (drop i s)). lia.
      * apply runLength_take. lia.
Qed.

Lemma execFrom_Some re s i fuel j e cap :
  execFrom re s i fuel = Some (j, e, cap) -> matchFrom re s j None = Some (e, cap).
Proof.
  revert i. induction fuel as [|fuel IH]; intros i; simpl.
  - destruct (matchFrom re s i None) as [[e' cap']|] eqn:Hm; [|done].
    by intros [= <- <- <-].
  - destruct (matchFrom re s i None) as [[e' cap']|] eqn:Hm; [|by apply IH].
    by intros [= <- <- <-].
Qed.

Lemma captures_namespaceRe cls : CapturePlus cls ∈ namespaceRe -> cls = notSpace.
Proof.
  unfold namespaceRe, lits. intros Hin. simpl in Hin.
  repeat (apply elem_of_cons in Hin as [Hin|Hin]; [discriminate Hin|]).
  apply elem_of_cons in Hin as [[= ->]|Hin]; [done|].
  by apply elem_of_nil in Hin.
Qed.

Lemma captures_serialNumberRe cls :
  CapturePlus cls ∈ serialNumberRe -> cls = notSpace.
Proof.
  unfold serialNumberRe, lits. intros Hin. simpl in Hin.
  repeat (apply elem_of_cons in Hin as [Hin|Hin]; [discriminate Hin|]).
  apply elem_of_cons in Hin as [[= ->]|Hin]; [done|].
  by apply elem_of_nil in Hin.
Qed.

Lemma exec_token re s j e cp :
  (forall cls, CapturePlus cls ∈ re -> cls = notSpace) ->
  exec re s = Some (j, e, Some cp) ->
  cp <> [] /\ Forall (fun c => notSpace c = true) cp.
Proof.
  intros Hre Hex. apply execFrom_Some in Hex.
  by apply matchFrom_capture in Hex as [?|?].
Qed.

Lemma replaceDashes_token s :
  s <> [] /\ Forall (fun c => notSpace c = true) s ->
  replaceDashes s <> [] /\ Forall (fun c => notSpace c = true) (replaceDashes s).
Proof.
  intros [Hne Hall]. split.
  - by destruct s.
  - unfold replaceDashes. apply Forall_fmap. eapply Forall_impl; [exact Hall|].
    intros c Hc. simpl. case_bool_decide; [done|done].
Qed.

Lemma replaceDashes_no_dash s : 45%N ∉ replaceDashes s.
Proof.
  unfold replaceDashes. intros (c & Hc & _)%list_elem_of_fmap.
  case_bool_decide; [done|]. congruence.
Qed.

(** X13. Whenever [updateYamlContent] changes the namespace, the new one is a
    token: not empty and free of white space and line terminators. *)
Theorem namespace_is_a_token Unknown (content : option jsstring) (st : State) :
  let st' := updateYamlContent Unknown content st in
  namespace st' = namespace st \/
  (namespace st' <> [] /\ Forall (fun c => isSpace c = false) (namespace st')).
Proof.
  intros st'. subst st'. unfold updateYamlContent.
  destruct content as [[|c cs]|]; [by left| |by left]. cbv zeta.
  assert (Htok : forall t, t <> [] /\ Forall (fun c => notSpace c = true) t ->
                           t <> [] /\ Forall (fun c => isSpace c = false) t).
  { intros t [Hne Hall]. split; [done|]. eapply Forall_impl; [exact Hall|].
    intros x. unfold notSpace. by destruct (isSpace x). }
  destruct (exec namespaceRe (trim (c :: cs))) as [[[j e] [ns|]]|] eqn:Hns.
  - right. simpl. eapply Htok, exec_token; [apply captures_namespaceRe|done].
  - by left.
  - destruct (exec serialNumberRe (trim (c :: cs))) as [[[j e] [sn|]]|] eqn:Hsn;
      [|by left..].
    right. simpl. apply Htok, replaceDashes_token.
    eapply exec_token; [apply captures_serialNumberRe|done].
Qed.

(** X14. When no [namespace:] key matches, a namespace that changes comes
    from the serial number and contains no dash. *)
Theorem serial_number_namespace_has_no_dash Unknown (content : option jsstring)
    (st : State) :
  (forall t, content = Some t -> exec namespaceRe (trim t) = None) ->
  let st' := updateYamlContent Unknown content st in
  namespace st' = namespace st \/ 45%N ∉ namespace st'.
Proof.
  intros Hno st'. subst st'. unfold updateYamlContent.
  destruct content as [[|c cs]|]; [by left| |by left]. cbv zeta.
  rewrite (Hno (c :: cs)) by done.
  destruct (exec serialNumberRe (trim (c :: cs))) as [[[j e] [sn|]]|];
    [|by left..].
  right. apply replaceDashes_no_dash.
Qed.

Lemma execFrom_first re s i fuel e cap :
  matchFrom re s i None = Some (e, cap) -> execFrom re s i fuel = Some (i, e, cap).
Proof. intros Hm. destruct fuel; simpl; by rewrite Hm. Qed.

Lemma matchFrom_lits (key : jsstring) re (pre post : jsstring) cap :
  matchFrom (map Lit key ++ re) (pre ++ key ++ post) (length pre) cap =
  matchFrom re (pre ++ key ++ post) (length pre + length key) cap.
Proof.
  revert pre. induction key as [|c key IH]; intros pre.
  - simpl. by rewrite Nat.add_0_r.
  - cbn [map app matchFrom length].
    rewrite (list_lookup_middle pre (key ++ post) c) by done.
    rewrite bool_decide_true by done.
    replace (pre ++ c :: key ++ post) with ((pre ++ [c]) ++ key ++ post)
      by (by rewrite <- app_assoc).
    replace (S (length pre)) with (length (pre ++ [c]))
      by (rewrite length_app; simpl; lia).
    rewrite IH. f_equal. rewrite length_app. simpl. lia.
Qed.

(** A key, white space of any kind, a token, and then white space or the
    end of the input: the rest of either pattern matches there, and
    captures the token. *)
Lemma matchFrom_key_value (key pre ws tok rest : jsstring) cap :
  Forall (fun c => isSpace c = true) ws ->
  tok <> [] -> Forall (fun c => notSpace c = true) tok ->
  match rest with [] => True | c :: _ => isSpace c = true end ->
  matchFrom (map Lit key ++ [Star isSpace; CapturePlus notSpace])
    (pre ++ key ++ ws ++ tok ++ rest) (length pre) cap =
  Some (length pre + length key + length ws + length tok, Some tok).
Proof.
  intros Hws Hne Htok Hrest. rewrite matchFrom_lits. simpl.
  assert (Hdrop : drop (length pre + length key)
                    (pre ++ key ++ ws ++ tok ++ rest) = ws ++ tok ++ rest).
  { rewrite app_assoc, <- length_app. by rewrite drop_app_length. }
  rewrite Hdrop.
  assert (Hrun : runLength isSpace (ws ++ tok ++ rest) = length ws).
  { rewrite runLength_app by done. rewrite runLength_stop; [lia|].
    destruct tok as [|c tok]; [done|]. simpl.
    apply Forall_cons_1 in Htok as [Hc _]. unfold notSpace in Hc.
    by destruct (isSpace c). }
  rewrite Hrun. apply longestFirst_first; [lia|].
  assert (Hdrop2 : drop (length pre + length key + length ws)
                     (pre ++ key ++ ws ++ tok ++ rest) = tok ++ rest).
  { rewrite (app_assoc pre), (app_assoc (pre ++ key)), <- !length_app.
    by rewrite drop_app_length. }
  rewrite Hdrop2.
  assert (Hrun2 : runLength notSpace (tok ++ rest) = length tok).
  { rewrite runLength_app by done. rewrite runLength_stop; [lia|].
    destruct rest as [|c rest]; [done|]. unfold notSpace. by rewrite Hrest. }
  rewrite Hrun2. apply longestFirst_first.
  - destruct tok; [done|]. simpl. lia.
  - by rewrite take_app_length.
Qed.

(** X15. With [namespace:] as the first key of the trimmed content, the
    namespace becomes the token that follows it, wherever that token is:
    the white space skipped after the colon may contain line ends. *)
Theorem namespace_key_first Unknown (content ws tok rest : jsstring) (st : State) :
  content <> [] ->
  trim content = js "namespace:" ++ ws ++ tok ++ rest ->
  Forall (fun c => isSpace c = true) ws ->
  tok <> [] -> Forall (fun c => notSpace c = true) tok ->
  match rest with [] => True | c :: _ => isSpace c = true end ->
  updateYamlContent Unknown (Some content) st =
  {| yaml := trim content; namespace := tok |}.
Proof.
  intros Hne Htrim Hws Htokne Htok Hrest. unfold updateYamlContent.
  destruct content as [|c cs]; [done|]. cbv zeta.
  assert (Hex : exec namespaceRe (trim (c :: cs)) =
                Some (0, length (js "namespace:") + length ws + length tok, Some tok)).
  { rewrite Htrim. unfold exec. apply execFrom_first.
    unfold namespaceRe. cbn [app matchFrom atLineStart].
    change (drop 0 ?l) with l.
    replace (runLength isSpace (js "namespace:" ++ ws ++ tok ++ rest)) with 0
      by done.
    apply longestFirst_first; [lia|].
    apply (matchFrom_key_value (js "namespace:") [] ws tok rest None); done. }
  by rewrite Hex.
Qed.

(** X16. With [serial_number:] as the first key and no [namespace:] key
    anywhere, the namespace becomes the serial number with its dashes
    turned into underscores. *)
Theorem serial_number_key_first Unknown (content ws tok rest : jsstring)
    (st : State) :
  content <> [] ->
  trim content = js "serial_number:" ++ ws ++ tok ++ rest ->
  exec namespaceRe (trim content) = None ->
  Forall (fun c => isSpace c = true) ws ->
  tok <> [] -> Forall (fun c => notSpace c = true) tok ->
  match rest with [] => True | c :: _ => isSpace c = true end ->
  updateYamlContent Unknown (Some content) st =
  {| yaml := trim content; namespace := replaceDashes tok |}.
Proof.
  intros Hne Htrim Hno Hws Htokne Htok Hrest. unfold updateYamlContent.
  destruct content as [|c cs]; [done|]. cbv zeta. rewrite Hno.
  assert (Hex : exec serialNumberRe (trim (c :: cs)) =
                Some (0, length (js "serial_number:") + length ws + length tok,
                      Some tok)).
  { rewrite Htrim. unfold exec. apply execFrom_first.
    unfold serialNumberRe. cbn [app matchFrom atLineStart].
    apply (matchFrom_key_value (js "serial_number:") [] ws tok rest None); done. }
  by rewrite Hex.
Qed.

(** ** Saving *)

(** X17. The Save button is released no sooner than 500 ms after the save
    started, and at once when the save itself took that long; unless the
    clock went backwards the delay is at most 500 ms. *)
Theorem remainingTime_bounds (saveStartTime now : Z) :
  (0 <= remainingTime saveStartTime now)%Z /\
  (500 <= (now - saveStartTime) + remainingTime saveStartTime now)%Z /\
  (500 <= now - saveStartTime -> remainingTime saveStartTime now = 0)%Z /\
  (saveStartTime <= now -> remainingTime saveStartTime now <= 500)%Z.
Proof. unfold remainingTime. lia. Qed.

(** ** The tables *)

Lemma startsWith_spec s p : startsWith s p = true <-> exists rest, s = p ++ rest.
Proof.
  revert s. induction p as [|c p IH]; intros s; simpl.
  - split; [intros _; by exists s|done].
  - destruct s as [|d s]; simpl.
    + split; [done|]. by intros (rest & [=]).
    + rewrite andb_true_iff, bool_decide_eq_true, IH. split.
      * intros [-> (rest & ->)]. by exists rest.
      * intros (rest & [= -> ->]). split; [done|]. by exists rest.
Qed.

Lemma isBottomLevel_spec (diagnostics : list DiagnosticStatus) status :
  isBottomLevel diagnostics status = true <->
  forall other rest, other ∈ diagnostics ->
                     name other <> name status ++ js "/" ++ rest.
Proof.
  unfold isBottomLevel. rewrite negb_true_iff, <- not_true_iff_false.
  rewrite existsb_exists. split.
  - intros Hno other rest Hin Heq. apply Hno. exists other.
    split; [by apply list_elem_of_In|]. apply startsWith_spec. exists rest.
    by rewrite <- app_assoc.
  - intros Hall (other & Hin & (rest & Heq)%startsWith_spec).
    apply (Hall other rest); [by apply list_elem_of_In|].
    by rewrite <- app_assoc in Heq.
Qed.

(** X18. A table lists exactly the entries of the diagnostics
    whose level is one of the table's and that no other entry lies below:
    an entry is left out as soon as the name of some entry is its own name
    followed by a slash and anything. *)
Theorem tableRows_spec (diagnostics : list DiagnosticStatus)
    (levelFilter : list jsstring) status :
  status ∈ tableRows diagnostics levelFilter <->
  status ∈ diagnostics /\ level status ∈ levelFilter /\
  forall other rest, other ∈ diagnostics ->
                     name other <> name status ++ js "/" ++ rest.
Proof.
  unfold tableRows. rewrite list_elem_of_In, filter_In, <- list_elem_of_In.
  rewrite andb_true_iff, isBottomLevel_spec. unfold includes.
  rewrite bool_decide_eq_true. tauto.
Qed.

(** X19. When no name contains a slash nothing is left out: a table is the
    diagnostics of its levels. *)
Theorem tableRows_flat (diagnostics : list DiagnosticStatus)
    (levelFilter : list jsstring) :
  (forall status, status ∈ diagnostics -> 47%N ∉ name status) ->
  tableRows diagnostics levelFilter =
  List.filter (fun status => includes levelFilter (level status)) diagnostics.
Proof.
  intros Hflat. unfold tableRows. apply filter_ext_in. intros status Hin.
  assert (Hb : isBottomLevel diagnostics status = true); [|by rewrite Hb].
  apply isBottomLevel_spec. intros other rest Hother Heq.
  apply (Hflat other Hother). rewrite Heq.
  apply elem_of_app. right. by left.
Qed.

(** ** The tree *)

Lemma dict_get_set_eq {V} (k : jsstring) (v : V) (o : list (jsstring * V)) :
  JsMap.get k (JsMap.set k v o) = Some v.
Proof.
  induction o as [|[k' v'] o IH]; simpl.
  - by rewrite decide_True.
  - destruct (decide (k' = k)) as [->|Hk]; simpl.
    + by rewrite decide_True.
    + by rewrite decide_False.
Qed.

Lemma dict_get_set_ne {V} (k k' : jsstring) (v : V) (o : list (jsstring * V)) :
  k <> k' -> JsMap.get k' (JsMap.set k v o) = JsMap.get k' o.
Proof.
  intros Hne. induction o as [|[k0 v0] o IH]; simpl.
  - by rewrite decide_False.
  - destruct (decide (k0 = k)) as [->|Hk]; simpl.
    + by rewrite !decide_False.
    + by rewrite IH.
Qed.

Lemma findNode_cons q (qs : list jsstring) (tree : list (jsstring * treeNode)) :
  qs <> [] ->
  findNode (q :: qs) tree =
  match JsMap.get q tree with
  | Some n => findNode qs (nodeChildren n)
  | None => None
  end.
Proof. intros Hne. destruct qs; [done|]. done. Qed.

Lemma findNode_nil_tree (qs : list jsstring) : findNode qs [] = None.
Proof. by destruct qs. Qed.

(** What adding one diagnostic does to the tree: along its path every
    node is there afterwards, under its old name or, when new, under its
    key, and with its old data except for the last one; off the path
    nothing changes. *)
Lemma insertParts_find (ps : list jsstring) (status : DiagnosticStatus)
    (tree0 : list (jsstring * treeNode)) :
  Forall (fun part => part ∉ inheritedKeys) ps ->
  exists tree', insertParts ps status tree0 = Ok tree' /\
    forall qs,
      (qs <> [] -> qs `prefix_of` ps ->
       exists n', findNode qs tree' = Some n' /\
         nodeName n' = default (default [] (last qs)) (nodeName <$> findNode qs tree0) /\
         nodeData n' = if decide (qs = ps) then Some status
                       else findNode qs tree0 ≫= nodeData) /\
      (~ (qs <> [] /\ qs `prefix_of` ps) -> findNode qs tree' = findNode qs tree0).
Proof.
  intros Hsafe. revert tree0. induction Hsafe as [|p rest Hp Hrest IH]; intros tree0.
  - exists tree0. split; [done|]. intros qs. split; [|done].
    intros Hne Hpre. apply prefix_nil_inv in Hpre. done.
  - simpl. rewrite bool_decide_false by done.
    set (node := match JsMap.get p tree0 with
                 | Some n => n
                 | None => TreeNode p [] None
                 end).
    destruct (IH (nodeChildren node)) as (ch & -> & Hch).
    eexists. split; [done|]. intros [|q qs].
    { split; [done|]. intros _. done. }
    destruct (decide (q = p)) as [->|Hq].
    + assert (Hsub : forall rs, rs <> [] ->
                findNode rs (nodeChildren node) = findNode (p :: rs) tree0).
      { intros rs Hrs. rewrite findNode_cons by done. subst node.
        destruct (JsMap.get p tree0); [done|]. simpl. apply findNode_nil_tree. }
      destruct qs as [|q2 qs].
      * split.
        -- intros _ _. simpl. rewrite dict_get_set_eq. eexists. split; [done|].
           simpl. split.
           ++ subst node. by destruct (JsMap.get p tree0).
           ++ destruct rest as [|r rest].
              ** by rewrite decide_True.
              ** rewrite decide_False by done. subst node.
                 by destruct (JsMap.get p tree0).
        -- intros Hno. exfalso. apply Hno. split; [done|].
           by apply prefix_cons, prefix_nil.
      * rewrite findNode_cons by done. rewrite dict_get_set_eq. simpl nodeChildren.
        destruct (Hch (q2 :: qs)) as [Hon Hoff]. split.
        -- intros _ Hpre. apply prefix_cons_inv_2 in Hpre.
           destruct (Hon ltac:(done) Hpre) as (n' & Hn' & Hname & Hdata).
           exists n'. split; [done|]. rewrite Hsub in Hname, Hdata by done.
           split; [done|].
           destruct (decide (q2 :: qs = rest)) as [->|Hne].
           ++ by rewrite decide_True.
           ++ rewrite decide_False by congruence. done.
        -- intros Hno. rewrite Hoff, Hsub; [done..|].
           intros [_ Hpre]. apply Hno. split; [done|]. by apply prefix_cons.
    + split.
      * intros _ Hpre. by apply prefix_cons_inv_1 in Hpre.
      * intros _. destruct qs as [|q2 qs].
        -- simpl. by rewrite dict_get_set_ne.
        -- rewrite !findNode_cons by done. by rewrite dict_get_set_ne.
Qed.

Lemma split_nonempty s : split s <> [].
Proof.
  induction s as [|c s IH]; simpl; [done|].
  case_bool_decide; [done|]. by destruct (split s).
Qed.

Lemma last_filter_cons {A} (P : A -> bool) (x : A) (l : list A) :
  last (List.filter P (x :: l)) =
  match last (List.filter P l) with
  | Some y => Some y
  | None => if P x then Some x else None
  end.
Proof.
  simpl. destruct (P x); [|by destruct (last (List.filter P l))].
  destruct (List.filter P l) as [|y l'] eqn:Hf; [done|].
  rewrite last_cons. by destruct (last (y :: l')).
Qed.

(** The tree after all the diagnostics: a node at every non-empty prefix
    of a name, with the last diagnostic of exactly that name as its data,
    and named after its key. *)
Lemma insertAll_find (diagnostics : list DiagnosticStatus)
    (tree0 : list (jsstring * treeNode)) :
  Forall (fun status => safeName (name status)) diagnostics ->
  exists tree, insertAll diagnostics tree0 = Ok tree /\
    forall qs,
      (is_Some (findNode qs tree) <->
       is_Some (findNode qs tree0) \/
       (qs <> [] /\ exists status, status ∈ diagnostics /\
                                   qs `prefix_of` split (name status))) /\
      (findNode qs tree ≫= nodeData =
       match last (List.filter (fun status => bool_decide (split (name status) = qs))
                     diagnostics) with
       | Some status => Some status
       | None => findNode qs tree0 ≫= nodeData
       end) /\
      (forall n, findNode qs tree = Some n ->
         nodeName n = default (default [] (last qs)) (nodeName <$> findNode qs tree0)).
Proof.
  intros Hsafe. revert tree0.
  induction Hsafe as [|status rest Hs Hrest IH]; intros tree0.
  - exists tree0. split; [done|]. intros qs. split_and!.
    + split; [by left|]. intros [?|(_ & s & Hin & _)]; [done|].
      by apply elem_of_nil in Hin.
    + done.
    + intros n ->. done.
  - simpl insertAll.
    destruct (insertParts_find (split (name status)) status tree0 Hs)
      as (tree1 & -> & H1).
    destruct (IH tree1) as (tree & -> & H2). exists tree. split; [done|].
    intros qs. destruct (H2 qs) as (Hpres & Hdata & Hname).
    destruct (H1 qs) as [Hon Hoff].
    destruct (decide (qs <> [] /\ qs `prefix_of` split (name status)))
      as [[Hne Hpre]|Hno].
    + destruct (Hon Hne Hpre) as (n1 & Hn1 & Hname1 & Hdata1). split_and!.
      * rewrite Hpres, Hn1. split.
        -- intros [_|(_ & s & Hin & Hp)].
           ++ right. split; [done|]. exists status. split; [by left|done].
           ++ right. split; [done|]. exists s. split; [by right|done].
        -- intros _. left. by eexists.
      * rewrite Hdata, last_filter_cons, Hn1. simpl.
        destruct (last (List.filter _ rest)); [done|].
        rewrite Hdata1. case_bool_decide; case_decide; congruence.
      * intros n Hn. rewrite (Hname n Hn), Hn1. simpl. done.
    + rewrite (Hoff Hno) in *. split_and!.
      * rewrite Hpres. split.
        -- intros [?|(Hne & s & Hin & Hp)]; [by left|].
           right. split; [done|]. exists s. split; [by right|done].
        -- intros [?|(Hne & s & [->|Hin]%elem_of_cons & Hp)]; [by left| |].
           ++ exfalso. by apply Hno.
           ++ right. split; [done|]. by exists s.
      * rewrite Hdata, last_filter_cons.
        destruct (last (List.filter _ rest)); [done|].
        case_bool_decide as Heq; [|done]. exfalso. apply Hno. subst qs.
        split; [apply split_nonempty|done].
      * done.
Qed.

(** ** The order of [Object.values] *)

Lemma insertIndexed_elem {A} (i : N) (a x : A) (j : N) (l : list (N * A)) :
  (j, x) ∈ insertIndexed i a l <-> (j, x) = (i, a) \/ (j, x) ∈ l.
Proof.
  induction l as [|[k b] l IH]; simpl.
  - rewrite list_elem_of_singleton, elem_of_nil. tauto.
  - destruct (i <? k)%N; rewrite !elem_of_cons, ?IH; tauto.
Qed.

Lemma insertIndexed_map {A B} (f : A -> B) (i : N) (a : A) (l : list (N * A)) :
  insertIndexed i (f a) (map (fun kv => (fst kv, f (snd kv))) l) =
  map (fun kv => (fst kv, f (snd kv))) (insertIndexed i a l).
Proof.
  induction l as [|[k b] l IH]; simpl; [done|].
  destruct (i <? k)%N; simpl; [done|]. by rewrite IH.
Qed.

Lemma indexed_map {A B} (f : A -> B) (o : list (jsstring * A)) :
  indexed (map (fun kv => (fst kv, f (snd kv))) o) =
  map (fun kv => (fst kv, f (snd kv))) (indexed o).
Proof.
  induction o as [|[k a] o IH]; simpl; [done|].
  destruct (arrayIndex k); [|done]. by rewrite IH, insertIndexed_map.
Qed.

Lemma named_map {A B} (f : A -> B) (o : list (jsstring * A)) :
  named (map (fun kv => (fst kv, f (snd kv))) o) = map f (named o).
Proof.
  induction o as [|[k a] o IH]; simpl; [done|].
  destruct (arrayIndex k); simpl; by rewrite IH.
Qed.

(** The order depends on the keys alone, so that converting the values
    before or after taking them in order is the same. *)
Lemma objectValues_map {A B} (f : A -> B) (o : list (jsstring * A)) :
  objectValues (map (fun kv => (fst kv, f (snd kv))) o) = map f (objectValues o).
Proof.
  unfold objectValues. rewrite indexed_map, named_map, map_app, !map_map.
  done.
Qed.

Lemma objectValues_elem {A} (x : A) (o : list (jsstring * A)) :
  x ∈ objectValues o <-> exists k, (k, x) ∈ o.
Proof.
  unfold objectValues. rewrite elem_of_app.
  assert (Hidx : x ∈ map snd (indexed o) <->
                 exists k, (k, x) ∈ o /\ is_Some (arrayIndex k)).
  { induction o as [|[k a] o IH]; simpl.
    - split; [intros Hin; by apply elem_of_nil in Hin|].
      intros (k & Hin & _). by apply elem_of_nil in Hin.
    - destruct (arrayIndex k) as [i|] eqn:Hk.
      + rewrite list_elem_of_fmap. split.
        * intros ([j y] & -> & [[= -> ->]|Hin]%insertIndexed_elem).
          -- exists k. rewrite Hk. split; [by left|by eexists].
          -- destruct (proj1 IH) as (k' & Hin' & Hsome).
             { apply list_elem_of_fmap. by exists (j, y). }
             exists k'. split; [by right|done].
        * intros (k' & [[= -> ->]|Hin]%elem_of_cons & Hsome).
          -- exists (i, a). split; [done|]. apply insertIndexed_elem. by left.
          -- assert (Hx : x ∈ map snd (indexed o)) by (apply IH; by exists k').
             apply list_elem_of_fmap in Hx as ([j y] & -> & Hin').
             exists (j, y). split; [done|]. apply insertIndexed_elem. by right.
      + rewrite IH. split.
        * intros (k' & Hin & Hsome). exists k'. split; [by right|done].
        * intros (k' & [[= -> ->]|Hin]%elem_of_cons & Hsome).
          -- rewrite Hk in Hsome. by destruct Hsome.
          -- by exists k'. }
  assert (Hnam : x ∈ named o <-> exists k, (k, x) ∈ o /\ arrayIndex k = None).
  { clear Hidx. induction o as [|[k a] o IH]; simpl.
    - split; [intros Hin; by apply elem_of_nil in Hin|].
      intros (k & Hin & _). by apply elem_of_nil in Hin.
    - destruct (arrayIndex k) as [i|] eqn:Hk.
      + rewrite IH. split.
        * intros (k' & Hin & Hnone). exists k'. split; [by right|done].
        * intros (k' & [[= -> ->]|Hin]%elem_of_cons & Hnone); [congruence|].
          by exists k'.
      + rewrite elem_of_cons, IH. split.
        * intros [->|(k' & Hin & Hnone)].
          -- exists k. split; [by left|done].
          -- exists k'. split; [by right|done].
        * intros (k' & [[= -> ->]|Hin]%elem_of_cons & Hnone); [by left|].
          right. by exists k'. }
  rewrite Hidx, Hnam. split.
  - intros [(k & Hin & _)|(k & Hin & _)]; by exists k.
  - intros (k & Hin). destruct (arrayIndex k) eqn:Hk.
    + left. exists k. split; [done|]. rewrite Hk. by eexists.
    + right. by exists k.
Qed.

(** [convertToTreeView] as the source has it: the children of an item
    are the conversion of its [children]. *)
Lemma convertItem_eq nm (children : list (jsstring * treeNode))
    (data : option DiagnosticStatus) :
  convertItem (TreeNode nm children data) =
  ViewNode nm (orNA (message <$> data)) (orNA (level <$> data))
    (convertToTreeView children).
Proof.
  unfold convertToTreeView. rewrite <- objectValues_map. done.
Qed.

Lemma dict_get_elem_of {V} (k : jsstring) (v : V) (o : list (jsstring * V)) :
  JsMap.get k o = Some v -> (k, v) ∈ o.
Proof.
  induction o as [|[k' v'] o IH]; simpl; [done|].
  destruct (decide (k' = k)) as [->|Hk].
  - intros [= ->]. by left.
  - intros Hget. right. by apply IH.
Qed.

(** ** Names as paths *)

Lemma split_app_slash (a b : jsstring) :
  split (a ++ 47%N :: b) = split a ++ split b.
Proof.
  induction a as [|c a IH]; simpl.
  - done.
  - case_bool_decide; [by rewrite IH|]. rewrite IH.
    pose proof (split_nonempty a). by destruct (split a).
Qed.

Lemma join_split s : join (split s) = s.
Proof.
  induction s as [|c s IH]; simpl; [done|].
  pose proof (split_nonempty s) as Hne.
  case_bool_decide as Hc.
  - subst c. destruct (split s) as [|p ps] eqn:Hs; [done|].
    simpl in *. by rewrite IH.
  - destruct (split s) as [|p ps] eqn:Hs; [done|].
    destruct ps as [|p2 ps]; simpl in *; by rewrite <- IH.
Qed.

Lemma join_app (xs ys : list jsstring) :
  xs <> [] -> ys <> [] -> join (xs ++ ys) = join xs ++ 47%N :: join ys.
Proof.
  intros Hxs Hys. induction xs as [|x xs IH]; [done|].
  destruct xs as [|x2 xs].
  - destruct ys; [done|]. done.
  - simpl in *. rewrite IH by done. by rewrite <- app_assoc.
Qed.

(** One name lies below another, in the sense of the tables, exactly
    when its parts extend the parts of the other. *)
Lemma below_iff_parts (a b : jsstring) :
  (exists rest, b = a ++ js "/" ++ rest) <->
  exists q, (split a ++ [q]) `prefix_of` split b.
Proof.
  split.
  - intros (rest & ->). change (js "/" ++ rest) with (47%N :: rest).
    rewrite split_app_slash. pose proof (split_nonempty rest).
    destruct (split rest) as [|q more]; [done|]. exists q, more.
    by rewrite <- app_assoc.
  - intros (q & more & Heq). exists (join (q :: more)).
    rewrite <- (join_split b), Heq, <- app_assoc. simpl app at 2.
    rewrite join_app; [|apply split_nonempty|done].
    by rewrite join_split.
Qed.

Lemma findNode_snoc (qs : list jsstring) q (tree : list (jsstring * treeNode)) n :
  findNode qs tree = Some n ->
  findNode (qs ++ [q]) tree = JsMap.get q (nodeChildren n).
Proof.
  revert tree. induction qs as [|p qs IH]; intros tree; [done|].
  destruct qs as [|p2 qs].
  - simpl. destruct (JsMap.get p tree); [|done]. intros [= ->].
    by destruct (JsMap.get q (nodeChildren n)).
  - rewrite findNode_cons by done. change ((p :: p2 :: qs) ++ [q])
      with (p :: ((p2 :: qs) ++ [q])).
    rewrite findNode_cons by done.
    destruct (JsMap.get p tree); [|done]. apply IH.
Qed.

Lemma children_nil_iff (n : treeNode) :
  nodeChildren n = [] <-> forall q, JsMap.get q (nodeChildren n) = None.
Proof.
  split; [by intros ->|]. destruct (nodeChildren n) as [|[k v] o]; [done|].
  intros Hall. specialize (Hall k). simpl in Hall. by rewrite decide_True in Hall.
Qed.

(** A tree whose nodes are named after their keys is shown under those
    names. *)
Lemma viewAt_convert (qs : list jsstring) (tree : list (jsstring * treeNode)) n :
  (forall rs m, findNode rs tree = Some m -> nodeName m = default [] (last rs)) ->
  findNode qs tree = Some n ->
  viewAt qs (convertToTreeView tree) (convertItem n).
Proof.
  revert tree. induction qs as [|p qs IH]; intros tree Hnamed; [done|].
  destruct qs as [|p2 qs].
  - simpl. destruct (JsMap.get p tree) as [m|] eqn:Hget; [|done].
    intros [= ->]. split.
    + unfold convertToTreeView. apply list_elem_of_fmap. exists n.
      split; [done|]. apply objectValues_elem. exists p.
      by apply dict_get_elem_of.
    + specialize (Hnamed [p] n). simpl in Hnamed. rewrite Hget in Hnamed.
      destruct n. simpl in *. by apply Hnamed.
  - rewrite findNode_cons by done.
    destruct (JsMap.get p tree) as [m|] eqn:Hget; [|done]. intros Hfind.
    change (viewAt (p :: p2 :: qs) (convertToTreeView tree) (convertItem n))
      with (exists u, u ∈ convertToTreeView tree /\ viewName u = p /\
                      viewAt (p2 :: qs) (viewChildren u) (convertItem n)).
    exists (convertItem m). split_and!.
    + unfold convertToTreeView. apply list_elem_of_fmap. exists m.
      split; [done|]. apply objectValues_elem. exists p.
      by apply dict_get_elem_of.
    + specialize (Hnamed [p] m). simpl in Hnamed. rewrite Hget in Hnamed.
      destruct m. simpl in *. by apply Hnamed.
    + destruct m as [nm ch d]. rewrite convertItem_eq. simpl viewChildren.
      simpl in Hfind. apply IH; [|done].
      intros rs m' Hrs. destruct rs as [|r rs]; [done|].
      specialize (Hnamed (p :: r :: rs) m').
      rewrite findNode_cons, Hget in Hnamed by done. simpl nodeChildren in Hnamed.
      rewrite (Hnamed Hrs). by rewrite !last_cons_cons.
Qed.

(** ** Keys are unique *)

Lemma dict_keys_set {V} (k k' : jsstring) (v : V) (o : list (jsstring * V)) :
  k' ∈ map fst (JsMap.set k v o) -> k' = k \/ k' ∈ map fst o.
Proof.
  induction o as [|[k0 v0] o IH]; simpl.
  - intros Hin%list_elem_of_singleton. by left.
  - destruct (decide (k0 = k)) as [->|Hk]; simpl; intros [->|Hin]%elem_of_cons.
    + by left.
    + right. by apply elem_of_cons; right.
    + right. by apply elem_of_cons; left.
    + destruct (IH Hin) as [->|Hm]; [by left|]. right. by apply elem_of_cons; right.
Qed.

Lemma dict_NoDup_set {V} (k : jsstring) (v : V) (o : list (jsstring * V)) :
  NoDup (map fst o) -> NoDup (map fst (JsMap.set k v o)).
Proof.
  induction o as [|[k0 v0] o IH]; simpl.
  - intros _. apply NoDup_singleton.
  - intros [Hnin Hnd]%NoDup_cons. destruct (decide (k0 = k)) as [->|Hk]; simpl.
    + by apply NoDup_cons.
    + apply NoDup_cons. split; [|by apply IH].
      intros [->|Hin]%dict_keys_set; done.
Qed.

Lemma dict_elem_of_get {V} (k : jsstring) (v : V) (o : list (jsstring * V)) :
  NoDup (map fst o) -> (k, v) ∈ o -> JsMap.get k o = Some v.
Proof.
  induction o as [|[k0 v0] o IH]; simpl.
  - intros _ Hin. by apply elem_of_nil in Hin.
  - intros [Hnin Hnd]%NoDup_cons [[= -> ->]|Hin]%elem_of_cons.
    + by rewrite decide_True.
    + rewrite decide_False; [by apply IH|]. intros ->. apply Hnin.
      apply list_elem_of_fmap. by exists (k, v).
Qed.

Lemma uniqueKeys_children p (tree : list (jsstring * treeNode)) n :
  uniqueKeys tree -> JsMap.get p tree = Some n -> uniqueKeys (nodeChildren n).
Proof.
  intros [_ Hall] Hget. split.
  - apply (Hall [p]). simpl. by rewrite Hget.
  - intros qs m Hqs. destruct qs as [|q qs]; [done|].
    apply (Hall (p :: q :: qs)). rewrite findNode_cons by done. by rewrite Hget.
Qed.

Lemma insertParts_uniqueKeys (ps : list jsstring) (status : DiagnosticStatus)
    (tree0 tree' : list (jsstring * treeNode)) :
  uniqueKeys tree0 -> insertParts ps status tree0 = Ok tree' -> uniqueKeys tree'.
Proof.
  revert tree0 tree'. induction ps as [|p rest IH]; intros tree0 tree' Hu; simpl.
  - by intros [= <-].
  - case_bool_decide.
    { destruct rest; [|done]. case_bool_decide; [done|]. by intros [= <-]. }
    set (node := match JsMap.get p tree0 with
                 | Some n => n
                 | None => TreeNode p [] None
                 end).
    assert (Hnode : uniqueKeys (nodeChildren node)).
    { subst node. destruct (JsMap.get p tree0) as [n|] eqn:Hget.
      - by eapply uniqueKeys_children.
      - split; [apply NoDup_nil_2|]. intros qs n. by rewrite findNode_nil_tree. }
    destruct (insertParts rest status (nodeChildren node)) as [ch| |] eqn:Hch;
      [|done..].
    intros [= <-]. pose proof (IH _ _ Hnode Hch) as [Hch0 Hch1].
    destruct Hu as [Hu0 Hu1]. split; [by apply dict_NoDup_set|].
    intros [|q qs] n; [done|]. destruct (decide (q = p)) as [->|Hq].
    + destruct qs as [|q2 qs].
      * simpl. rewrite dict_get_set_eq. by intros [= <-].
      * rewrite findNode_cons by done. rewrite dict_get_set_eq. apply Hch1.
    + destruct qs as [|q2 qs].
      * simpl. rewrite dict_get_set_ne by done. apply (Hu1 [q]).
      * rewrite findNode_cons by done. rewrite dict_get_set_ne by done.
        rewrite <- (findNode_cons q (q2 :: qs) tree0) by done. apply Hu1.
Qed.

Lemma insertAll_uniqueKeys (diagnostics : list DiagnosticStatus)
    (tree0 tree : list (jsstring * treeNode)) :
  uniqueKeys tree0 -> insertAll diagnostics tree0 = Ok tree -> uniqueKeys tree.
Proof.
  revert tree0. induction diagnostics as [|status rest IH]; intros tree0 Hu; simpl.
  - by intros [= <-].
  - destruct (insertParts (split (name status)) status tree0) as [tree1| |] eqn:H1;
      [|done..].
    apply IH. by eapply insertParts_uniqueKeys.
Qed.

(** In such a tree, named after its keys, a node of the view under given
    names is the conversion of the node under those keys. *)
Lemma viewAt_inv (qs : list jsstring) (tree : list (jsstring * treeNode)) v :
  uniqueKeys tree ->
  (forall rs m, findNode rs tree = Some m -> nodeName m = default [] (last rs)) ->
  viewAt qs (convertToTreeView tree) v ->
  exists n, findNode qs tree = Some n /\ v = convertItem n.
Proof.
  revert tree. induction qs as [|p qs IH]; intros tree Hu Hnamed; [done|].
  assert (Hfind : forall u, u ∈ convertToTreeView tree -> viewName u = p ->
            exists m, JsMap.get p tree = Some m /\ u = convertItem m).
  { intros u Hin Hname. unfold convertToTreeView in Hin.
    apply list_elem_of_fmap in Hin as (m & -> & Hm).
    apply objectValues_elem in Hm as (k & Hk).
    pose proof (dict_elem_of_get k m tree (proj1 Hu) Hk) as Hget.
    specialize (Hnamed [k] m). simpl in Hnamed. rewrite Hget in Hnamed.
    specialize (Hnamed eq_refl). destruct m as [nm ch d]. simpl in *.
    exists (TreeNode nm ch d). split; [|done]. congruence. }
  destruct qs as [|p2 qs].
  - simpl. intros [Hin Hname]. destruct (Hfind v Hin Hname) as (m & Hget & ->).
    exists m. by rewrite Hget.
  - intros (u & Hin & Hname & Hrest).
    destruct (Hfind u Hin Hname) as (m & Hget & ->).
    rewrite findNode_cons, Hget by done.
    destruct m as [nm ch d]. rewrite convertItem_eq in Hrest. simpl in Hrest.
    apply IH; [by eapply (uniqueKeys_children p tree (TreeNode nm ch d))| |done].
    intros rs m' Hrs. destruct rs as [|r rs]; [done|].
    specialize (Hnamed (p :: r :: rs) m').
    rewrite findNode_cons, Hget in Hnamed by done. simpl nodeChildren in Hnamed.
    rewrite (Hnamed Hrs). by rewrite !last_cons_cons.
Qed.

Lemma split_inj (a b : jsstring) : split a = split b -> a = b.
Proof. intros Heq. by rewrite <- (join_split a), Heq, join_split. Qed.

(** The tree built from names without inherited keys, and what is at the
    path of each diagnostic. *)
Lemma insertAll_safe (diagnostics : list DiagnosticStatus) :
  Forall (fun status => safeName (name status)) diagnostics ->
  exists tree, insertAll diagnostics [] = Ok tree /\
    (forall rs m, findNode rs tree = Some m -> nodeName m = default [] (last rs)) /\
    forall status, status ∈ diagnostics ->
      exists n latest,
        findNode (split (name status)) tree = Some n /\
        last (List.filter (fun other => bool_decide (name other = name status))
                diagnostics) = Some latest /\
        nodeData n = Some latest /\
        (nodeChildren n = [] <-> isBottomLevel diagnostics status = true).
Proof.
  intros Hsafe. destruct (insertAll_find diagnostics [] Hsafe) as (tree & Htree & H).
  exists tree. split; [done|]. split.
  { intros rs m Hrs. destruct (H rs) as (_ & _ & Hname).
    rewrite (Hname m Hrs), findNode_nil_tree. done. }
  intros status Hin. destruct (H (split (name status))) as (Hpres & Hdata & _).
  destruct (proj2 Hpres) as [n Hn].
  { right. split; [apply split_nonempty|]. by exists status. }
  assert (Hfilter :
    List.filter (fun other => bool_decide (split (name other) = split (name status)))
      diagnostics =
    List.filter (fun other => bool_decide (name other = name status)) diagnostics).
  { apply filter_ext. intros other. apply bool_decide_ext. split.
    - apply split_inj.
    - by intros ->. }
  rewrite Hfilter, Hn, findNode_nil_tree in Hdata. simpl in Hdata.
  destruct (last (List.filter _ diagnostics)) as [latest|] eqn:Hlast.
  2:{ exfalso. apply last_None in Hlast.
      assert (Hmem : In status (List.filter
                (fun other => bool_decide (name other = name status)) diagnostics)).
      { apply filter_In. split; [by apply list_elem_of_In|].
        by apply bool_decide_eq_true. }
      by rewrite Hlast in Hmem. }
  exists n, latest. split_and!; [done..|].
  rewrite children_nil_iff, isBottomLevel_spec. split.
  - intros Hnone other rest Hother Heq.
    destruct (proj1 (below_iff_parts (name status) (name other))) as [q Hq];
      [by exists rest|].
    destruct (H (split (name status) ++ [q])) as (Hp & _ & _).
    destruct (proj2 Hp) as [m Hm].
    { right. split; [by destruct (split (name status))|]. by exists other. }
    rewrite (findNode_snoc _ q tree n Hn), Hnone in Hm. done.
  - intros Hbottom q. destruct (JsMap.get q (nodeChildren n)) as [m|] eqn:Hget;
      [|done].
    exfalso. destruct (H (split (name status) ++ [q])) as (Hp & _ & _).
    destruct (proj1 Hp) as [Hold|(_ & other & Hother & Hpre)].
    { rewrite (findNode_snoc _ q tree n Hn), Hget. by eexists. }
    { rewrite findNode_nil_tree in Hold. by destruct Hold. }
    destruct (proj2 (below_iff_parts (name status) (name other))) as [rest Hrest];
      [by exists q|].
    by apply (Hbottom other rest).
Qed.

Lemma uniqueKeys_nil : uniqueKeys [].
Proof. split; [apply NoDup_nil_2|]. intros qs n. by rewrite findNode_nil_tree. Qed.

Lemma viewAt_unique (diagnostics : list DiagnosticStatus)
    (tree : list (jsstring * treeNode)) (qs : list jsstring) v v' :
  Forall (fun status => safeName (name status)) diagnostics ->
  insertAll diagnostics [] = Ok tree ->
  viewAt qs (convertToTreeView tree) v -> viewAt qs (convertToTreeView tree) v' ->
  v = v'.
Proof.
  intros Hsafe Htree Hv Hv'.
  destruct (insertAll_safe diagnostics Hsafe) as (tree1 & Htree1 & Hnamed & _).
  rewrite Htree in Htree1. injection Htree1 as <-.
  pose proof (insertAll_uniqueKeys _ _ _ uniqueKeys_nil Htree) as Hu.
  destruct (viewAt_inv qs tree v Hu Hnamed Hv) as (n & Hn & ->).
  destruct (viewAt_inv qs tree v' Hu Hnamed Hv') as (n' & Hn' & ->).
  congruence.
Qed.

(** X20. From names none of whose parts is a property inherited from
    [Object.prototype], [buildTree] returns a view in which every
    diagnostic is found under the parts of its name, with the message and
    the level of the last diagnostic of that name. *)
Theorem buildTree_places_every_diagnostic (diagnostics : list DiagnosticStatus) :
  Forall (fun status => safeName (name status)) diagnostics ->
  exists view, buildTree diagnostics = Ok view /\
    forall status, status ∈ diagnostics ->
      exists v latest,
        viewAt (split (name status)) view v /\
        (forall v', viewAt (split (name status)) view v' -> v' = v) /\
        last (List.filter (fun other => bool_decide (name other = name status))
                diagnostics) = Some latest /\
        viewMessage v = orNA (Some (message latest)) /\
        viewLevel v = orNA (Some (level latest)).
Proof.
  intros Hsafe.
  destruct (insertAll_safe diagnostics Hsafe) as (tree & Htree & Hnamed & H).
  exists (convertToTreeView tree). unfold buildTree. rewrite Htree.
  split; [done|]. intros status Hin.
  destruct (H status Hin) as (n & latest & Hn & Hlast & Hdata & _).
  exists (convertItem n), latest.
  assert (Hv : viewAt (split (name status)) (convertToTreeView tree) (convertItem n))
    by (by apply viewAt_convert).
  split; [done|]. split.
  { intros v' Hv'. by eapply viewAt_unique. }
  split; [done|]. destruct n as [nm ch d]. simpl in Hdata. subst d.
  by rewrite convertItem_eq.
Qed.

(** X22. The entries a table keeps are the leaves of the tree: the node of a
    diagnostic has no children exactly when no other diagnostic lies below
    it. *)
Theorem bottom_level_is_a_leaf (diagnostics : list DiagnosticStatus) :
  Forall (fun status => safeName (name status)) diagnostics ->
  exists view, buildTree diagnostics = Ok view /\
    forall status, status ∈ diagnostics ->
      exists v, viewAt (split (name status)) view v /\
                (forall v', viewAt (split (name status)) view v' -> v' = v) /\
                (viewChildren v = [] <-> isBottomLevel diagnostics status = true).
Proof.
  intros Hsafe.
  destruct (insertAll_safe diagnostics Hsafe) as (tree & Htree & Hnamed & H).
  exists (convertToTreeView tree). unfold buildTree. rewrite Htree.
  split; [done|]. intros status Hin.
  destruct (H status Hin) as (n & latest & Hn & _ & _ & Hleaf).
  assert (Hv : viewAt (split (name status)) (convertToTreeView tree) (convertItem n))
    by (by apply viewAt_convert).
  exists (convertItem n). split; [done|]. split.
  { intros v' Hv'. by eapply viewAt_unique. }
  rewrite <- Hleaf. destruct n as [nm ch d]. rewrite convertItem_eq. simpl.
  unfold convertToTreeView. split.
  - intros Hnil. destruct ch as [|[k m] ch]; [done|]. exfalso.
    assert (Hm : convertItem m ∈ map convertItem (objectValues ((k, m) :: ch))).
    { apply list_elem_of_fmap. exists m. split; [done|].
      apply objectValues_elem. exists k. by left. }
    rewrite Hnil in Hm. by apply elem_of_nil in Hm.
  - by intros ->.
Qed.

(** X21. The view has no node of its own making: every node lies under a
    non-empty prefix of the parts of some diagnostic and bears the last of
    these parts as its name; its message and level are those of the last
    diagnostic whose name has exactly these parts, and ['N/A'] when there
    is none. *)
Theorem buildTree_nodes_are_prefixes (diagnostics : list DiagnosticStatus) :
  Forall (fun status => safeName (name status)) diagnostics ->
  exists view, buildTree diagnostics = Ok view /\
    forall qs v, viewAt qs view v ->
      (exists status, status ∈ diagnostics /\ qs `prefix_of` split (name status)) /\
      Some (viewName v) = last qs /\
      let exact := last (List.filter
                           (fun other => bool_decide (split (name other) = qs))
                           diagnostics) in
      viewMessage v = orNA (message <$> exact) /\
      viewLevel v = orNA (level <$> exact).
Proof.
  intros Hsafe.
  destruct (insertAll_find diagnostics [] Hsafe) as (tree & Htree & H).
  destruct (insertAll_safe diagnostics Hsafe) as (tree1 & Htree1 & Hnamed & _).
  rewrite Htree in Htree1. injection Htree1 as <-.
  pose proof (insertAll_uniqueKeys _ _ _ uniqueKeys_nil Htree) as Hu.
  exists (convertToTreeView tree). unfold buildTree. rewrite Htree.
  split; [done|]. intros qs v Hv.
  destruct (viewAt_inv qs tree v Hu Hnamed Hv) as (n & Hn & ->).
  destruct (H qs) as (Hpres & Hdata & _).
  destruct (proj1 Hpres) as [Hold|(Hne & status & Hin & Hpre)].
  { rewrite Hn. by eexists. }
  { rewrite findNode_nil_tree in Hold. by destruct Hold. }
  split; [by exists status|].
  rewrite Hn, findNode_nil_tree in Hdata. simpl in Hdata.
  pose proof (Hnamed qs n Hn) as Hname.
  destruct n as [nm ch d]. rewrite convertItem_eq. simpl in *. split.
  - rewrite Hname. destruct (last qs) eqn:Hlast; [done|].
    apply last_None in Hlast. done.
  - rewrite Hdata. by destruct (last (List.filter _ diagnostics)).
Qed.

Lemma insertParts_throws (pre : list jsstring) key part (rest : list jsstring)
    (status : DiagnosticStatus) (tree0 : list (jsstring * treeNode)) :
  Forall (fun p => p ∉ inheritedKeys) pre -> key ∈ inheritedKeys ->
  insertParts (pre ++ key :: part :: rest) status tree0 = Throws.
Proof.
  intros Hpre Hkey. revert tree0.
  induction Hpre as [|p pre Hp _ IH]; intros tree0; simpl.
  - by rewrite bool_decide_true.
  - rewrite bool_decide_false by done. by rewrite IH.
Qed.

(** X23. A name in which a property inherited from [Object.prototype] (say
    [constructor] or [toString]) is followed by a further part makes
    [buildTree] throw a [TypeError], whatever the other diagnostics are,
    as long as those before it are safe. *)
Theorem buildTree_throws_on_inherited_key
    (before after : list DiagnosticStatus) (status : DiagnosticStatus)
    (pre : list jsstring) key part (rest : list jsstring) :
  Forall (fun other => safeName (name other)) before ->
  split (name status) = pre ++ key :: part :: rest ->
  Forall (fun p => p ∉ inheritedKeys) pre -> key ∈ inheritedKeys ->
  buildTree (before ++ status :: after) = Throws.
Proof.
  intros Hbefore Hsplit Hpre Hkey. unfold buildTree.
  assert (Hall : forall tree0, insertAll (before ++ status :: after) tree0 = Throws);
    [|by rewrite Hall].
  induction Hbefore as [|other before Hother _ IH]; intros tree0; simpl.
  - by rewrite Hsplit, insertParts_throws.
  - destruct (insertParts_find (split (name other)) other tree0 Hother)
      as (tree1 & -> & _). apply IH.
Qed.

End AppProperties.

Section AppInstances.
Import App.

Lemma someDiagnostics_safe :
  Forall (fun status => safeName (name status)) someDiagnostics.
Proof.
  unfold someDiagnostics, safeName.
  repeat (apply Forall_cons; split); try apply Forall_nil_2;
    apply (bool_decide_unpack _); vm_compute; reflexivity.
Qed.

Lemma serial_number_namespace_has_no_dash_witness :
  let st' := updateYamlContent (js "Unknown") (Some yamlSerial)
               (mkState [] (js "default_namespace")) in
  namespace st' = js "default_namespace" \/ 45%N ∉ namespace st'.
Proof.
  apply (serial_number_namespace_has_no_dash (js "Unknown") (Some yamlSerial)).
  intros t [= <-]. reflexivity.
Defined.

Lemma namespace_key_first_witness :
  updateYamlContent (js "Unknown") (Some yamlNamespace)
    (mkState [] (js "default_namespace")) =
  {| yaml := trim yamlNamespace; namespace := js "a200_0001" |}.
Proof.
  apply (namespace_key_first (js "Unknown") yamlNamespace
           ([10%N] ++ js "    ") (js "a200_0001") (js " # id")).
  - discriminate.
  - reflexivity.
  - repeat constructor.
  - discriminate.
  - repeat constructor.
  - reflexivity.
Defined.

Lemma serial_number_key_first_witness :
  updateYamlContent (js "Unknown") (Some yamlSerial)
    (mkState [] (js "default_namespace")) =
  {| yaml := trim yamlSerial; namespace := js "a200_0001" |}.
Proof.
  apply (serial_number_key_first (js "Unknown") yamlSerial
           (js " ") (js "a200-0001") ([10%N] ++ js "version: 0")).
  - discriminate.
  - reflexivity.
  - reflexivity.
  - repeat constructor.
  - discriminate.
  - repeat constructor.
  - reflexivity.
Defined.

Lemma tableRows_flat_witness :
  let flat := [mkStatus (js "battery") (js "low") (js "1");
               mkStatus (js "motors") (js "stalled") (js "2")] in
  tableRows flat [js "2"] =
  List.filter (fun status => includes [js "2"] (level status)) flat.
Proof.
  apply (tableRows_flat
           [mkStatus (js "battery") (js "low") (js "1");
            mkStatus (js "motors") (js "stalled") (js "2")] [js "2"]).
  intros status Hin.
  apply elem_of_cons in Hin as [->|Hin];
    [|apply list_elem_of_singleton in Hin as ->];
    apply (bool_decide_unpack _); vm_compute; reflexivity.
Defined.

Lemma buildTree_places_every_diagnostic_witness :
  exists view, buildTree someDiagnostics = Ok view /\
    forall status, status ∈ someDiagnostics ->
      exists v latest,
        viewAt (split (name status)) view v /\
        (forall v', viewAt (split (name status)) view v' -> v' = v) /\
        last (List.filter (fun other => bool_decide (name other = name status))
                someDiagnostics) = Some latest /\
        viewMessage v = orNA (Some (message latest)) /\
        viewLevel v = orNA (Some (level latest)).
Proof.
  apply (buildTree_places_every_diagnostic someDiagnostics someDiagnostics_safe).
Defined.

Lemma bottom_level_is_a_leaf_witness :
  exists view, buildTree someDiagnostics = Ok view /\
    forall status, status ∈ someDiagnostics ->
      exists v, viewAt (split (name status)) view v /\
                (forall v', viewAt (split (name status)) view v' -> v' = v) /\
                (viewChildren v = [] <->
                 isBottomLevel someDiagnostics status = true).
Proof. apply (bottom_level_is_a_leaf someDiagnostics someDiagnostics_safe). Defined.

Lemma buildTree_nodes_are_prefixes_witness :
  exists view, buildTree someDiagnostics = Ok view /\
    forall qs v, viewAt qs view v ->
      (exists status, status ∈ someDiagnostics /\
                      qs `prefix_of` split (name status)) /\
      Some (viewName v) = last qs /\
      let exact := last (List.filter
                           (fun other => bool_decide (split (name other) = qs))
                           someDiagnostics) in
      viewMessage v = orNA (message <$> exact) /\
      viewLevel v = orNA (level <$> exact).
Proof.
  apply (buildTree_nodes_are_prefixes someDiagnostics someDiagnostics_safe).
Defined.

Lemma buildTree_throws_on_inherited_key_witness :
  buildTree (someDiagnostics ++
             mkStatus (js "base/constructor/x") (js "ok") (js "0") ::
             [mkStatus (js "later") (js "ok") (js "0")]) = Throws.
Proof.
  apply (buildTree_throws_on_inherited_key someDiagnostics
           [mkStatus (js "later") (js "ok") (js "0")]
           (mkStatus (js "base/constructor/x") (js "ok") (js "0"))
           [js "base"] (js "constructor") (js "x") []).
  - exact someDiagnostics_safe.
  - reflexivity.
  - repeat constructor. apply (bool_decide_unpack _). vm_compute. reflexivity.
  - apply (bool_decide_unpack _). vm_compute. reflexivity.
Defined.

End AppInstances.
